(** * Spack contexts: a shallow embedding of [spack/cmd/context.py]

    The module manages a named environment descriptor (a "context"):
    the user's requests ([user_specs]), the hashes of their resolutions
    ([concretized_order]), the resolved graphs ([specs_by_hash]), and a
    three-slot rename protocol that persists all of it.

    Python code is embedded as programs of a small state-and-error monad
    that also records the externally visible events (terminal output and
    calls into the rest of Spack).  Everything the module imports from
    the rest of Spack (the [Spec] class, the concretizer, the serializers)
    is an interface, [SpackAPI]. *)

From stdpp Require Import base option list strings gmap fin_maps.
From Stdlib Require Import ZArith Lia Ascii.

Local Open Scope Z_scope.

(** ** Exceptions, terminal output, external calls *)

Inductive Member := full_specs_json | context_yaml | repo.

(** A path below a directory: [fs.join_path(dir, 'context.yaml')] and
    the like. *)
Definition FilePath : Type := string * Member.

Inductive Error :=
  | Die (msg : string)                 (* tty.die: message, then SystemExit *)
  | AttributeError (obj attr : string) (* 'obj' object has no attribute 'attr' *)
  | KeyError (key : string)
  | IndexError
  | IOError (path : FilePath)          (* open() of a missing file *)
  | OSError (path : string)            (* shutil / os on a bad path *)
  | SpecError (what : string)          (* raised inside spack.spec *)
  | Killed.                            (* the process was interrupted *)

Inductive Event :=
  | EvWarn (msg : string)              (* tty.warn *)
  | EvMsg (msg : string)               (* tty.msg *)
  | EvInfo (msg : string)              (* tty.info *)
  | EvConcretize (spec : string)       (* spec.concretize() *)
  | EvInstall (spec : string)          (* spec.package.do_install(explicit=True) *)
  | EvPutFirst (root : FilePath).      (* spack.repo.put_first(repo) *)

Inductive Res (A : Type) :=
  | Ok (a : A)
  | Raise (e : Error).
Arguments Ok {A} a.
Arguments Raise {A} e.

(** ** The monad: state [S], exceptions, and an event log *)

Definition M (S A : Type) : Type := S → Res A * S * list Event.

Definition ret {S A} (a : A) : M S A := λ s, (Ok a, s, []).

Definition bind {S A B} (m : M S A) (f : A → M S B) : M S B :=
  λ s, match m s with
       | (Ok a, s1, ev1) =>
           match f a s1 with (r, s2, ev2) => (r, s2, ev1 ++ ev2) end
       | (Raise e, s1, ev1) => (Raise e, s1, ev1)
       end.

#[global] Instance M_ret {S} : MRet (M S) := λ A, ret.
#[global] Instance M_bind {S} : MBind (M S) := λ A B f m, bind m f.

Definition get {S} : M S S := λ s, (Ok s, s, []).
Definition put {S} (s : S) : M S unit := λ _, (Ok (), s, []).
Definition modify {S} (f : S → S) : M S unit := λ s, (Ok (), f s, []).
Definition raise {S A} (e : Error) : M S A := λ s, (Raise e, s, []).
Definition emit {S} (e : Event) : M S unit := λ s, (Ok (), s, [e]).
(** An [if] without [else] falls through. *)
Definition pass {S} : M S unit := ret ().
Definition lift_res {S A} (r : Res A) : M S A := λ s, (r, s, []).

(** [for x in l: body] *)
Fixpoint for_each {S A} (l : list A) (body : A → M S unit) : M S unit :=
  match l with
  | [] => mret ()
  | x :: l' => body x ;; for_each l' body
  end.

(** A [for] loop that threads the local variables [acc] of its body. *)
Fixpoint for_fold {S A B} (l : list A) (acc : B) (body : B → A → M S B) : M S B :=
  match l with
  | [] => mret acc
  | x :: l' => acc' ← body acc x; for_fold l' acc' body
  end.

(** [tty.die], [tty.warn], [tty.msg], [tty.info] *)
Definition tty_die {S A} (msg : string) : M S A := raise (Die msg).
Definition tty_warn {S} (msg : string) : M S unit := emit (EvWarn msg).
Definition tty_msg {S} (msg : string) : M S unit := emit (EvMsg msg).
Definition tty_info {S} (msg : string) : M S unit := emit (EvInfo msg).

(** [del l[i]] for [0 <= i]: Python raises [IndexError] out of range. *)
Definition list_del {A} (i : nat) (l : list A) : Res (list A) :=
  if decide (i < length l)%nat then Ok (delete i l) else Raise IndexError.

(** [d[k]] and [del d[k]] on a dict keyed by strings. *)
Definition dict_getitem {V} (k : string) (d : gmap string V) : Res V :=
  match d !! k with Some v => Ok v | None => Raise (KeyError k) end.

Definition dict_del {V} (k : string) (d : gmap string V) : Res (gmap string V) :=
  match d !! k with Some _ => Ok (delete k d) | None => Raise (KeyError k) end.

(** ** What the module uses of [spack.spec]

    [Spec] objects are built from a string ([Spec(s)]), resolved by
    [concretize()], and identified afterwards by [dag_hash()].  The
    operations below are the ones [context.py] calls; their
    implementation is outside this module. *)

Class SpackAPI := {
  var_path : string;                           (* spack.var_path *)
  Spec : Type;
  SpecDict : Type;
  Spec_parse : string → Spec;                  (* Spec(s) *)
  Spec_name : Spec → string;                   (* s.name *)
  Spec_format : Spec → string;                 (* s.format(), str(s) *)
  Spec_concretize : Spec → Res Spec;           (* s.concretize() *)
  Spec_dag_hash : Spec → string;               (* s.dag_hash() *)
  Spec_traverse : list string → Spec → list Spec; (* s.traverse(deptype=..) *)
  Spec_contains : string → Spec → bool;        (* name in s *)
  Spec_getitem : string → Spec → Res Spec;     (* s[name] *)
  Spec_clear_concrete : Spec → Spec;           (* x._concrete = False; x._hash = None on every node *)
  Spec_set_versions_any : string → Spec → Res Spec; (* s[name].versions = VersionList(':') *)
  Spec_to_dict : Spec → SpecDict;              (* s.to_dict(all_deps=True) *)
  Spec_from_dict : SpecDict → Spec;            (* Spec.from_dict(d) *)
}.

Section ContextModule.
Context `{API : SpackAPI}.

(** ** class Context *)

Record Context := mkContext {
  name : string;
  user_specs : list string;
  concretized_order : list string;
  specs_by_hash : gmap string Spec;
  common_libs : gmap string string;
  common_bins : gmap string string;
}.

(** [Context(name)] *)
Definition Context_init (name : string) : Context :=
  mkContext name [] [] ∅ ∅ ∅.

Definition set_user_specs (l : list string) (c : Context) : Context :=
  mkContext (name c) l (concretized_order c) (specs_by_hash c)
            (common_libs c) (common_bins c).

Definition set_concretized_order (l : list string) (c : Context) : Context :=
  mkContext (name c) (user_specs c) l (specs_by_hash c)
            (common_libs c) (common_bins c).

Definition set_specs_by_hash (m : gmap string Spec) (c : Context) : Context :=
  mkContext (name c) (user_specs c) (concretized_order c) m
            (common_libs c) (common_bins c).

(** [Context.add] *)
Definition add (user_spec : string) : M Context unit :=
  self ← get;
  let query_spec := Spec_parse user_spec in
  let existing : gset string :=
    list_to_set (filter (λ x, Spec_name (Spec_parse x) = Spec_name query_spec)
                        (user_specs self)) in
  if decide (existing ≠ ∅) then
    tty_die ("Package " +:+ Spec_name query_spec +:+ " was already added to "
             +:+ name self)
  else
    put (set_user_specs (user_specs self ++ [user_spec]) self).

(** The [for i, spec in enumerate(self.user_specs)] loop of [remove],
    with its [break]; [-1] when nothing matches. *)
Fixpoint match_loop (query_name : string) (i : Z) (l : list string) : Z :=
  match l with
  | [] => -1
  | spec :: l' =>
      if decide (Spec_name (Spec_parse spec) = query_name) then i
      else match_loop query_name (i + 1) l'
  end.

(** [Context.remove] *)
Definition remove (query : string) : M Context unit :=
  let query_spec := Spec_parse query in
  self ← get;
  let match_index := match_loop (Spec_name query_spec) 0 (user_specs self) in
  if decide (match_index < 0) then
    tty_die ("Not found: " +:+ Spec_format query_spec)
  else
    let i := Z.to_nat match_index in
    us ← lift_res (list_del i (user_specs self));
    modify (set_user_specs us);;
    if decide (match_index < Z.of_nat (length (concretized_order self))) then
      spec_hash ← lift_res (match concretized_order self !! i with
                            | Some h => Ok h | None => Raise IndexError end);
      co ← lift_res (list_del i (concretized_order self));
      modify (set_concretized_order co);;
      sbh ← lift_res (dict_del spec_hash (specs_by_hash self));
      modify (set_specs_by_hash sbh)
    else pass.

(** [spec = Spec(user_spec); spec.concretize()] *)
Definition concretize_spec {S} (spec : Spec) : M S Spec :=
  emit (EvConcretize (Spec_format spec));;
  lift_res (Spec_concretize spec).

(** The body of the loop of [concretize]. *)
Definition concretize_step (new_specs : list Spec) (user_spec : string)
    : M Context (list Spec) :=
  spec ← concretize_spec (Spec_parse user_spec);
  modify (λ self, set_specs_by_hash
            (<[Spec_dag_hash spec := spec]> (specs_by_hash self)) self);;
  modify (λ self, set_concretized_order
            (concretized_order self ++ [Spec_dag_hash spec]) self);;
  mret (new_specs ++ [spec]).

(** [Context.concretize] *)
Definition concretize : M Context (list Spec) :=
  self ← get;
  let num_concretized := length (concretized_order self) in
  for_fold (drop num_concretized (user_specs self)) [] concretize_step.

(** [upgrade_dependency_version]; [spec.copy()] is the identity on
    values, the loop over [spec.traverse()] is [Spec_clear_concrete]. *)
Definition upgrade_dependency_version {S} (spec : Spec) (dep_name : string)
    : M S Spec :=
  let spec := Spec_clear_concrete spec in
  spec ← lift_res (Spec_set_versions_any dep_name spec);
  concretize_spec spec.

(** [Context.install] *)
Definition install : M Context unit :=
  self ← get;
  for_each (concretized_order self)
    (λ concretized_hash,
       spec ← lift_res (dict_getitem concretized_hash (specs_by_hash self));
       emit (EvInstall (Spec_format spec))).

(** The body of the loop of [upgrade_dependency]; [new_order] and
    [new_deps] are its locals. *)
Definition upgrade_step (dep_name : string) (dry_run : bool)
    (locals : list string * list Spec) (spec_hash : string)
    : M Context (list string * list Spec) :=
  let '(new_order, new_deps) := locals in
  self ← get;
  spec ← lift_res (dict_getitem spec_hash (specs_by_hash self));
  if Spec_contains dep_name spec then
    if dry_run then
      dep ← lift_res (Spec_getitem dep_name spec);
      tty_msg ("Would upgrade " +:+ Spec_format dep +:+ " for "
               +:+ Spec_format spec);;
      mret (new_order, new_deps)
    else
      new_spec ← upgrade_dependency_version spec dep_name;
      modify (λ self, set_specs_by_hash
                (<[Spec_dag_hash new_spec := new_spec]> (specs_by_hash self))
                self);;
      new_dep ← lift_res (Spec_getitem dep_name new_spec);
      mret (new_order ++ [Spec_dag_hash new_spec], new_deps ++ [new_dep])
  else
    mret (new_order ++ [spec_hash], new_deps).

(** [Context.upgrade_dependency] *)
Definition upgrade_dependency (dep_name : string) (dry_run : bool)
    : M Context (option Spec) :=
  self ← get;
  '(new_order, new_deps) ←
    for_fold (concretized_order self) ([], []) (upgrade_step dep_name dry_run);
  if dry_run then mret None
  else
    modify (set_concretized_order new_order);;
    mret (head new_deps).

(** The body of the inner loop of [_get_environment_specs]. *)
Definition environment_step {S} (package_to_spec : gmap string Spec) (dep : Spec)
    : M S (gmap string Spec) :=
  match package_to_spec !! Spec_name dep with
  | Some chosen =>
      tty_warn (Spec_format chosen +:+ " takes priority over " +:+ Spec_format dep);;
      mret package_to_spec
  | None => mret (<[Spec_name dep := dep]> package_to_spec)
  end.

(** The body of the outer loop of [_get_environment_specs]. *)
Definition environment_root (self : Context)
    (package_to_spec : gmap string Spec) (spec_hash : string)
    : M Context (gmap string Spec) :=
  spec ← lift_res (dict_getitem spec_hash (specs_by_hash self));
  for_fold (Spec_traverse ["link"; "run"] spec) package_to_spec environment_step.

(** The dict [package_to_spec] that [_get_environment_specs] builds. *)
Definition package_to_spec : M Context (gmap string Spec) :=
  self ← get;
  for_fold (concretized_order self) ∅ (environment_root self).

(** [Context._get_environment_specs]: the values of the dict, in the
    order the dict happens to iterate. *)
Definition _get_environment_specs : M Context (list Spec) :=
  package_to_spec ← package_to_spec;
  mret ((map_to_list package_to_spec).*2).

(** The mapping written to [context.yaml]. *)
Record ContextYaml := mkContextYaml {
  y_user_specs : list string;
  y_concretized_order : list string;
  y_common_libs : gmap string string;
  y_common_bins : gmap string string;
}.

(** [Context.to_dict] *)
Definition to_dict (self : Context) : ContextYaml :=
  mkContextYaml (user_specs self) (concretized_order self)
                (common_libs self) (common_bins self).

(** [Context.from_dict] *)
Definition from_dict (name : string) (d : ContextYaml) : Context :=
  mkContext name (y_user_specs d) (y_concretized_order d) ∅
            (y_common_libs d) (y_common_bins d).

(** ** Paths *)

(** [fs.join_path(a, b)], which is [os.path.join]. *)
Definition starts_with_slash (b : string) : bool :=
  match b with String "/"%char _ => true | _ => false end.

Fixpoint ends_with_slash (a : string) : bool :=
  match a with
  | EmptyString => false
  | String c EmptyString => bool_decide (c = "/"%char)
  | String _ a' => ends_with_slash a'
  end.

Definition join_path (a b : string) : string :=
  if starts_with_slash b then b
  else if decide (a = "") then b
  else if ends_with_slash a then a +:+ b
  else a +:+ "/" +:+ b.

Definition _db_dirname : string := join_path var_path "contexts".

(** [Context.path] and [Context.repo_path] *)
Definition path (self : Context) : string := join_path _db_dirname (name self).
Definition repo_path (self : Context) : FilePath := (path self, repo).

(** The objects a variable called [context] is bound to in this module:
    a [Context], or the function [context(parser, args)] that the module
    defines at its top level. *)
Inductive PyObj :=
  | PyContext (c : Context)
  | PyFunction (func_name : string).

Definition attr_name {S} (o : PyObj) : M S string :=
  match o with
  | PyContext c => mret (name c)
  | PyFunction _ => raise (AttributeError "function" "name")
  end.

Definition call_path {S} (o : PyObj) : M S string :=
  match o with
  | PyContext c => mret (path c)
  | PyFunction _ => raise (AttributeError "function" "path")
  end.

Definition call_repo_path {S} (o : PyObj) : M S FilePath :=
  match o with
  | PyContext c => mret (repo_path c)
  | PyFunction _ => raise (AttributeError "function" "repo_path")
  end.

(** The module-level name [context]: bound by [def context(parser, args,
    **kwargs)] once the module is loaded. *)
Definition global_context : PyObj := PyFunction "context".

(** [write_paths] *)
Definition write_paths {S} (context : PyObj) : M S (string * string * string) :=
  n ← attr_name context;
  let tmp_new := join_path _db_dirname ("_" +:+ n) in
  dest ← call_path context;
  n ← attr_name context;
  let tmp_old := join_path _db_dirname ("." +:+ n) in
  mret (tmp_new, dest, tmp_old).


(** ** The file system

    Directories are keyed by their full path.  A directory holds the
    three members this module reads and writes; the snapshot of package
    definitions is a tree of its own.

    A path is the key as the program writes it: the map does not resolve
    [.], [..] or a trailing [/], does not relate a path to the paths
    below it, and does not hold the directories above a path.  It stands
    for the file system where the paths in play are entries of one
    directory, as the three paths of a context are when its name is one
    path component ([is_component] below); the statements on what a
    [write] leaves on disk are made for such names. *)

Record RepoTree := mkRepoTree {
  namespace : string;
  packages : gmap string string;
}.

Record Directory := mkDirectory {
  d_full_specs : option (gmap string SpecDict);
  d_context : option ContextYaml;
  d_repo : option RepoTree;
}.

Definition empty_dir : Directory := mkDirectory None None None.

(** [budget] is the number of file-system updates the process still
    performs before it is interrupted; [None]: it is not interrupted. *)
Record World := mkWorld {
  dirs : gmap string Directory;
  budget : option nat;
}.

Definition set_dirs (f : gmap string Directory → gmap string Directory)
    (w : World) : World :=
  mkWorld (f (dirs w)) (budget w).

(** Every update of the file system starts here. *)
Definition syscall : M World unit :=
  λ w, match budget w with
       | Some O => (Raise Killed, w, [])
       | Some (S k) => (Ok (), mkWorld (dirs w) (Some k), [])
       | None => (Ok (), w, [])
       end.

Definition has_member (m : Member) (d : Directory) : bool :=
  match m with
  | full_specs_json => bool_decide (is_Some (d_full_specs d))
  | context_yaml => bool_decide (is_Some (d_context d))
  | repo => bool_decide (is_Some (d_repo d))
  end.

(** [os.path.exists] on a directory and on a member of a directory *)
Definition os_path_exists (p : string) : M World bool :=
  w ← get; mret (bool_decide (is_Some (dirs w !! p))).

Definition os_path_exists_member (p : FilePath) : M World bool :=
  w ← get;
  mret (match dirs w !! p.1 with
        | Some d => has_member p.2 d
        | None => false
        end).

(** [fs.mkdirp]; the directories it makes above [p] are not held by
    the map. *)
Definition fs_mkdirp (p : string) : M World unit :=
  syscall;;
  w ← get;
  match dirs w !! p with
  | Some _ => mret ()
  | None => modify (set_dirs <[p := empty_dir]>)
  end.

(** [with open(path, 'w') as F: sjson.dump(data, F)] *)
Definition write_json (p : FilePath) (data : gmap string SpecDict) : M World unit :=
  syscall;;
  w ← get;
  match dirs w !! p.1 with
  | Some d =>
      modify (set_dirs <[p.1 := mkDirectory (Some data) (d_context d) (d_repo d)]>)
  | None => raise (IOError p)
  end.

(** [with open(path, 'w') as F: syaml.dump(data, stream=F)] *)
Definition write_yaml (p : FilePath) (data : ContextYaml) : M World unit :=
  syscall;;
  w ← get;
  match dirs w !! p.1 with
  | Some d =>
      modify (set_dirs <[p.1 := mkDirectory (d_full_specs d) (Some data) (d_repo d)]>)
  | None => raise (IOError p)
  end.

(** [with open(path, 'r') as F: syaml.load(F)] *)
Definition read_yaml (p : FilePath) : M World ContextYaml :=
  w ← get;
  match dirs w !! p.1 ≫= d_context with
  | Some data => mret data
  | None => raise (IOError p)
  end.

(** [with open(path, 'r') as F: sjson.load(F)] *)
Definition read_json (p : FilePath) : M World (gmap string SpecDict) :=
  w ← get;
  match dirs w !! p.1 ≫= d_full_specs with
  | Some data => mret data
  | None => raise (IOError p)
  end.

(** [shutil.copytree(src, dst)] of a snapshot of package definitions:
    [src] must exist and [dst] must not; missing parents of [dst] are
    created. *)
Definition shutil_copytree (src dst : FilePath) : M World unit :=
  syscall;;
  w ← get;
  match dirs w !! src.1 ≫= d_repo with
  | None => raise (OSError src.1)
  | Some tree =>
      match dirs w !! dst.1 with
      | None => modify (set_dirs <[dst.1 := mkDirectory None None (Some tree)]>)
      | Some d =>
          match d_repo d with
          | Some _ => raise (OSError dst.1)
          | None =>
              modify (set_dirs
                <[dst.1 := mkDirectory (d_full_specs d) (d_context d) (Some tree)]>)
          end
      end
  end.

(** [shutil.move(src, dst)] of a directory.  When [dst] is an existing
    directory the real call moves [src] inside it; every call in this
    module tests [os.path.exists(dst)] first, and that case is an error
    here. *)
Definition shutil_move (src dst : string) : M World unit :=
  syscall;;
  w ← get;
  match dirs w !! src with
  | None => raise (OSError src)
  | Some d =>
      match dirs w !! dst with
      | Some _ => raise (OSError dst)
      | None => modify (set_dirs (λ ds, <[dst := d]> (delete src ds)))
      end
  end.

(** [shutil.rmtree] of a directory *)
Definition shutil_rmtree (p : string) : M World unit :=
  syscall;;
  w ← get;
  match dirs w !! p with
  | None => raise (OSError p)
  | Some _ => modify (set_dirs (delete p))
  end.

(** [shutil.rmtree] of the directory of one package inside a snapshot *)
Definition shutil_rmtree_package (root : FilePath) (pkg_name : string)
    : M World unit :=
  syscall;;
  w ← get;
  match dirs w !! root.1 with
  | Some d =>
      match d_repo d with
      | Some tree =>
          match packages tree !! pkg_name with
          | Some _ =>
              modify (set_dirs
                <[root.1 := mkDirectory (d_full_specs d) (d_context d)
                    (Some (mkRepoTree (namespace tree)
                                      (delete pkg_name (packages tree))))]>)
          | None => raise (OSError root.1)
          end
      | None => raise (OSError root.1)
      end
  | None => raise (OSError root.1)
  end.

(** [tempfile.mkdtemp()]: a new, empty directory at an unused path. *)
Definition tempfile_mkdtemp : M World string :=
  syscall;;
  w ← get;
  let p := fresh (dom (dirs w)) in
  modify (set_dirs <[p := empty_dir]>);;
  mret p.

(** [spack.repository.create_repo(root, namespace)] *)
Definition create_repo (root : FilePath) (ns : string) : M World unit :=
  syscall;;
  w ← get;
  match dirs w !! root.1 with
  | Some d =>
      match d_repo d with
      | Some _ => raise (OSError root.1)
      | None =>
          modify (set_dirs
            <[root.1 := mkDirectory (d_full_specs d) (d_context d)
                                    (Some (mkRepoTree ns ∅))]>)
      end
  | None => modify (set_dirs <[root.1 := mkDirectory None None (Some (mkRepoTree ns ∅))]>)
  end.

(** A [spack.repository.Repo] object *)
Record Repo := mkRepo { root : FilePath }.

(** ** Persistence *)

(** [store_specs_by_hash], with the [open] of its caller *)
Definition store_specs_by_hash (specs_by_hash : gmap string Spec)
    (stream : FilePath) : M World unit :=
  let installs := Spec_to_dict <$> specs_by_hash in
  write_json stream installs.

Definition partial_write_msg : string :=
  "Partial write state, run 'spack context repair'".

(** [write] *)
Definition write (context : Context) (new_repo : option Repo) : M World unit :=
  '(tmp_new, dest, tmp_old) ← write_paths (PyContext context);
  new_exists ← os_path_exists tmp_new;
  old_exists ← os_path_exists tmp_old;
  if new_exists || old_exists then tty_die partial_write_msg
  else
    fs_mkdirp tmp_new;;
    store_specs_by_hash (specs_by_hash context) (tmp_new, full_specs_json);;
    write_yaml (tmp_new, context_yaml) (to_dict context);;
    let dest_repo_dir := (tmp_new, repo) in
    match new_repo with
    | Some new_repo => shutil_copytree (root new_repo) dest_repo_dir
    | None =>
        have_repo ← os_path_exists_member (repo_path context);
        if (have_repo : bool) then shutil_copytree (repo_path context) dest_repo_dir
        else pass
    end;;
    dest_exists ← os_path_exists dest;
    (if (dest_exists : bool) then shutil_move dest tmp_old else pass);;
    shutil_move tmp_new dest;;
    old_exists ← os_path_exists tmp_old;
    if (old_exists : bool) then shutil_rmtree tmp_old else pass.

(** The statements of [repair] after its call of [write_paths]. *)
Definition repair_body (tmp_new dest tmp_old : string) : M World unit :=
  old_exists ← os_path_exists tmp_old;
  (if (old_exists : bool) then
     dest_exists ← os_path_exists dest;
     (if negb dest_exists then shutil_move tmp_new dest
      else shutil_rmtree tmp_old);;
     tty_info "Previous update completed"
   else
     new_exists ← os_path_exists tmp_new;
     if (new_exists : bool) then tty_info "Previous update did not complete"
     else tty_info "Previous update may have completed");;
  new_exists ← os_path_exists tmp_new;
  if (new_exists : bool) then shutil_rmtree tmp_new else pass.

(** [repair]: its local is [c]; the [context] it passes to [write_paths]
    is the module-level name. *)
Definition repair (context_name : string) : M World unit :=
  let c := Context_init context_name in
  '(tmp_new, dest, tmp_old) ← write_paths global_context;
  repair_body tmp_new dest tmp_old.

(** [read] *)
Definition read (context_name : string) : M World Context :=
  '(tmp_new, context_dir, tmp_old) ←
    write_paths (PyContext (Context_init context_name));
  new_exists ← os_path_exists tmp_new;
  old_exists ← os_path_exists tmp_old;
  if new_exists || old_exists then tty_die partial_write_msg
  else
    context_dict ← read_yaml (context_dir, context_yaml);
    let context := from_dict context_name context_dict in
    install_dict ← read_json (context_dir, full_specs_json);
    let installs := Spec_from_dict <$> install_dict in
    mret (set_specs_by_hash installs context).

(** ** Command handlers *)

(** [prepare_repository(context, remove=None)] *)
Definition prepare_repository (context : PyObj) (remove : list string)
    : M World Repo :=
  repo_stage ← tempfile_mkdtemp;
  let new_repo_dir : FilePath := (repo_stage, repo) in
  context_repo ← call_repo_path context;
  have_repo ← os_path_exists_member context_repo;
  (if (have_repo : bool) then shutil_copytree context_repo new_repo_dir
   else n ← attr_name context; create_repo new_repo_dir n);;
  (if decide (remove ≠ []) then
     let repo := mkRepo new_repo_dir in
     for_each remove (λ pkg_name, shutil_rmtree_package (root repo) pkg_name)
   else pass);;
  let repo := mkRepo new_repo_dir in
  emit (EvPutFirst (root repo));;
  mret repo.

(** A method call [o.install()]: the method runs on the object, its
    events are the caller's. *)
Definition call_install (o : PyObj) : M World unit :=
  match o with
  | PyContext c =>
      λ w, match install c with
           | (Ok _, _, ev) => (Ok (), w, ev)
           | (Raise e, _, ev) => (Raise e, w, ev)
           end
  | PyFunction _ => raise (AttributeError "function" "install")
  end.

(** [context_install(args)]: the context it reads is bound to
    [contexts]; [context] is the module-level name. *)
Definition context_install (args_context : string) : M World unit :=
  contexts ← read args_context;
  prepare_repository global_context [];;
  call_install global_context.

(** ** Vocabulary of the statements *)

(** Two requests for the same package: [Spec(x).name == Spec(query).name]. *)
Definition same_name (query x : string) : Prop :=
  Spec_name (Spec_parse x) = Spec_name (Spec_parse query).

(** The resolver is called on the spec built from [user_spec]. *)
Definition concretize_event (user_spec : string) : Event :=
  EvConcretize (Spec_format (Spec_parse user_spec)).

Definition resolves_to (user_spec : string) (spec : Spec) : Prop :=
  Spec_concretize (Spec_parse user_spec) = Ok spec.

Definition store_all (specs : list Spec) (m : gmap string Spec) : gmap string Spec :=
  foldl (λ m spec, <[Spec_dag_hash spec := spec]> m) m specs.

(** Sequences of [add], [remove] and [concretize] on one [Context]
    object.  A call that raises leaves the object as it is at that
    point, and the next call finds it so. *)
Inductive Op :=
  | OpAdd (user_spec : string)
  | OpRemove (query : string)
  | OpConcretize.

Definition run_op (op : Op) (self : Context) : Context :=
  match op with
  | OpAdd user_spec => (add user_spec self).1.2
  | OpRemove query => (remove query self).1.2
  | OpConcretize => (concretize self).1.2
  end.

Definition run_ops (ops : list Op) (self : Context) : Context :=
  foldl (λ self op, run_op op self) self ops.

(** [concretized_order] is no longer than [user_specs], and its [i]-th
    hash is the hash of the resolution of the [i]-th request. *)
Definition aligned (self : Context) : Prop :=
  (length (concretized_order self) ≤ length (user_specs self))%nat
  ∧ ∀ i h, concretized_order self !! i = Some h →
           ∃ user_spec spec,
             user_specs self !! i = Some user_spec
             ∧ resolves_to user_spec spec
             ∧ Spec_dag_hash spec = h.

(** Every hash of [concretized_order] is a key of [specs_by_hash]. *)
Definition graphs_stored (self : Context) : Prop :=
  Forall (λ h, is_Some (specs_by_hash self !! h)) (concretized_order self).

(** The stored roots, in the order of [concretized_order], and the
    nodes they contribute: their link/run traversals one after the other. *)
Definition roots_of (graphs : gmap string Spec) (hashes : list string)
    : list Spec :=
  omap (λ h, graphs !! h) hashes.

Definition contributions_of (graphs : gmap string Spec) (hashes : list string)
    : list Spec :=
  roots_of graphs hashes ≫= Spec_traverse ["link"; "run"].

Definition contributions (self : Context) : list Spec :=
  contributions_of (specs_by_hash self) (concretized_order self).

(** The first node called [n] in a sequence of nodes. *)
Fixpoint first_named (n : string) (nodes : list Spec) : option Spec :=
  match nodes with
  | [] => None
  | dep :: nodes' =>
      if decide (Spec_name dep = n) then Some dep else first_named n nodes'
  end.

Definition priority_warning (chosen dep : Spec) : Event :=
  EvWarn (Spec_format chosen +:+ " takes priority over " +:+ Spec_format dep).

(** One warning for every node whose name occurs before it, in [seen]
    or earlier in [nodes]; it names the first node of that name. *)
Fixpoint conflicts (seen nodes : list Spec) : list Event :=
  match nodes with
  | [] => []
  | dep :: nodes' =>
      match first_named (Spec_name dep) seen with
      | Some chosen => priority_warning chosen dep :: conflicts (seen ++ [dep]) nodes'
      | None => conflicts (seen ++ [dep]) nodes'
      end
  end.

(** [self.specs_by_hash[spec.dag_hash()] = spec] *)
Definition store_graph (spec : Spec) (self : Context) : Context :=
  set_specs_by_hash (<[Spec_dag_hash spec := spec]> (specs_by_hash self)) self.

(** What [upgrade_dependency_version] asks of [spack.spec] for one root. *)
Definition upgraded (dep_name : string) (spec : Spec) : Res Spec :=
  match Spec_set_versions_any dep_name (Spec_clear_concrete spec) with
  | Ok relaxed => Spec_concretize relaxed
  | Raise e => Raise e
  end.

(** The root stored under [h] contains a node called [dep_name]. *)
Definition affected (dep_name : string) (graphs : gmap string Spec)
    (h : string) : bool :=
  match graphs !! h with
  | Some spec => Spec_contains dep_name spec
  | None => false
  end.

(** The root under [h] is stored and, if it contains [dep_name], the
    resolver upgrades it to a graph that still has a [dep_name] node. *)
Definition upgradable (dep_name : string) (graphs : gmap string Spec)
    (h : string) : Prop :=
  match graphs !! h with
  | None => False
  | Some spec =>
      if Spec_contains dep_name spec then
        ∃ new_spec new_dep,
          upgraded dep_name spec = Ok new_spec
          ∧ Spec_getitem dep_name new_spec = Ok new_dep
      else True
  end.

(** A stored hash identifies its graph: no other graph has it. *)
Definition hash_identifies (graphs : gmap string Spec) : Prop :=
  ∀ h spec other,
    graphs !! h = Some spec → Spec_dag_hash other = h → other = spec.

(** The three paths of a context called [n]: [_n], [n] and [.n] below
    the directory of all contexts. *)
Definition staging_path (n : string) : string := join_path _db_dirname ("_" +:+ n).
Definition committed_path (n : string) : string := join_path _db_dirname n.
Definition rollback_path (n : string) : string := join_path _db_dirname ("." +:+ n).

Definition exists_in (w : World) (p : string) : Prop := is_Some (dirs w !! p).

(** A context name that is one path component: not empty, not [.] or
    [..], and without a [/].  The three paths of such a name are three
    entries of the directory of all contexts; the paths of another name
    are resolved by the file system to other places (those of [.] to the
    directory of all contexts and its parent, those of [a/repo] to
    places inside [_a], [a] and [.a]), which a map from directory paths
    to their contents does not follow. *)
Fixpoint has_slash (s : string) : bool :=
  match s with
  | EmptyString => false
  | String c s' => if decide (c = "/"%char) then true else has_slash s'
  end.

Definition is_component (n : string) : Prop :=
  n ≠ "" ∧ n ≠ "." ∧ n ≠ ".." ∧ has_slash n = false.

End ContextModule.

(** ** A small instance of the interface

    Specs are their own text, [name@version^dep@version^...]: the root
    node first, then the nodes it reaches.  The resolver is a table; the
    virtual package [mpi] resolves to its provider [mpich]. *)

Module Mock.

Fixpoint split_on (c : ascii) (s : string) : list string :=
  match s with
  | EmptyString => [EmptyString]
  | String a s' =>
      if decide (a = c) then EmptyString :: split_on c s'
      else match split_on c s' with
           | [] => [String a EmptyString]
           | w :: ws => String a w :: ws
           end
  end.

Fixpoint join_with (sep : string) (l : list string) : string :=
  match l with
  | [] => ""
  | [x] => x
  | x :: l' => x +:+ sep +:+ join_with sep l'
  end.

Definition nodes (s : string) : list string := split_on "^"%char s.

Definition node_name (node : string) : string :=
  default "" (head (split_on "@"%char node)).

Definition root_node (s : string) : string := default "" (head (nodes s)).

Definition resolver : list (string * string) :=
  [ ("app-a", "app-a@1.0^lib@1.0^zlib@1.2");
    ("app-b", "app-b@1.0^lib@2.0^zlib@1.2");
    ("tool-a", "tool-a@1.0^lib@1.0");
    ("tool-b", "tool-b@1.0^lib@2.0");
    ("zlib", "zlib@1.2");
    ("mpi", "mpich@3.0");
    ("mpich", "mpich@3.0");
    ("app-a@1.0^lib@:^zlib@1.2", "app-a@1.0^lib@2.0^zlib@1.2") ].

Definition mock_concretize (s : string) : Res string :=
  match list_find (λ e, e.1 = s) resolver with
  | Some (_, (_, concrete)) => Ok concrete
  | None => Raise (SpecError ("cannot concretize " +:+ s))
  end.

Definition mock_getitem (dep_name s : string) : Res string :=
  match list_find (λ node, node_name node = dep_name) (nodes s) with
  | Some (_, node) => Ok node
  | None => Raise (KeyError dep_name)
  end.

Definition mock_contains (dep_name s : string) : bool :=
  bool_decide (dep_name ∈ node_name <$> nodes s).

Definition mock_set_versions_any (dep_name s : string) : Res string :=
  if mock_contains dep_name s then
    Ok (join_with "^" ((λ node, if decide (node_name node = dep_name)
                                then dep_name +:+ "@:" else node) <$> nodes s))
  else Raise (KeyError dep_name).

#[local] Instance api : SpackAPI := {|
  var_path := "/spack/var/spack";
  Spec := string;
  SpecDict := string;
  Spec_parse := λ s, s;
  Spec_name := λ s, node_name (root_node s);
  Spec_format := root_node;
  Spec_concretize := mock_concretize;
  Spec_dag_hash := λ s, s;
  Spec_traverse := λ _ s, nodes s;
  Spec_contains := mock_contains;
  Spec_getitem := mock_getitem;
  Spec_clear_concrete := λ s, s;
  Spec_set_versions_any := mock_set_versions_any;
  Spec_to_dict := λ s, s;
  Spec_from_dict := λ s, s;
|}.

Definition empty_context : Context := Context_init "c".

(** Requests [app-a] and [app-b], resolved: both roots reach [lib], in
    two versions, and the same [zlib]. *)
Definition apps : Context :=
  run_ops [OpAdd "app-a"; OpAdd "app-b"; OpConcretize] empty_context.

(** Requests [tool-a] and [tool-b], resolved: the roots have [lib], in
    two versions, and nothing else in common. *)
Definition tools : Context :=
  run_ops [OpAdd "tool-a"; OpAdd "tool-b"; OpConcretize] empty_context.

(** Requests [zlib] and [app-a], resolved. *)
Definition zlib_and_app : Context :=
  run_ops [OpAdd "zlib"; OpAdd "app-a"; OpConcretize] empty_context.

(** Request [app-a] alone, resolved; and with [app-b] pending. *)
Definition app_a : Context := run_ops [OpAdd "app-a"; OpConcretize] empty_context.
Definition app_a_pending : Context := run_op (OpAdd "app-b") app_a.

(** Requests [mpi] and [mpich] resolve to one graph, so to one hash,
    which is twice in [concretized_order]; then [mpi] is removed. *)
Definition mpi_removed : Context :=
  run_ops [OpAdd "mpi"; OpAdd "mpich"; OpConcretize; OpRemove "mpi"]
          empty_context.

(** File systems: nothing there; [app_a] committed; and the states in
    which an interrupted [write] of [apps] over [app_a] leaves it.  The
    writes of [apps] update the file system six times: [mkdirp], the two
    files, the rename to [.c], the rename to [c], the removal of [.c]. *)
Definition nothing : World := mkWorld ∅ None.

Definition after {A} (m : M World A) (w : World) : World := (m w).1.2.

Definition committed_app_a : World := after (write app_a None) nothing.

(** The process that runs next is not the interrupted one. *)
Definition interrupted (updates : nat) (m : M World unit) (w : World) : World :=
  mkWorld (dirs (after m (mkWorld (dirs w) (Some updates)))) None.

Definition crash_after_step3 : World :=
  interrupted 4 (write apps None) committed_app_a.

Definition crash_before_step3 : World :=
  interrupted 3 (write apps None) committed_app_a.

(** The statements of [repair] below its call of [write_paths], run
    after the crash once, and twice. *)
Definition fix_up : M World unit :=
  repair_body (staging_path "c") (committed_path "c") (rollback_path "c").

Definition fixed_once : World := after fix_up crash_after_step3.
Definition fixed_twice : World := after fix_up fixed_once.

Definition half_written : World :=
  mkWorld {[ staging_path "c" := empty_dir ]} None.

End Mock.


(** ** The rest of the module: relocation and the command handlers

    What these use of Spack beyond [SpackAPI]. *)

Class SpackCommands `{SpackAPI} := {
  (* the loop of reset_os_and_compiler over spec.traverse():
     x.compiler = None; x.architecture = None;
     x.compiler_flags = FlagMap(x); x._concrete = False; x._hash = None *)
  Spec_strip : Spec → Spec;
  Spec_set_compiler : string → Spec → Res Spec; (* spec.compiler = CompilerSpec(c) *)
  parse_specs : list string → Res (list Spec);  (* spack.cmd.parse_specs(args.package) *)
  Spec_provenance : Spec → string;              (* what spack.repo.dump_provenance copies *)
  Spec_tree : Spec → string;                    (* spec.tree() *)
}.

Section Commands.
Context `{API : SpackAPI} {CMD : SpackCommands}.

(** [reset_os_and_compiler(spec, compiler=None)], the function;
    [if compiler:] is false for [None] and for the empty string. *)
Definition reset_os_and_compiler {S} (spec : Spec) (compiler : option string)
    : M S Spec :=
  let spec := Spec_strip spec in
  spec ← match compiler with
         | Some c =>
             if decide (c = "") then mret spec
             else lift_res (Spec_set_compiler c spec)
         | None => mret spec
         end;
  concretize_spec spec.

(** The body of the loop of [Context.reset_os_and_compiler]; [new_order]
    and [new_specs_by_hash] are its locals. *)
Definition reset_step (compiler : option string)
    (locals : list string * gmap string Spec) (spec_hash : string)
    : M Context (list string * gmap string Spec) :=
  let '(new_order, new_specs_by_hash) := locals in
  self ← get;
  spec ← lift_res (dict_getitem spec_hash (specs_by_hash self));
  new_spec ← reset_os_and_compiler spec compiler;
  mret (new_order ++ [Spec_dag_hash new_spec],
        <[Spec_dag_hash new_spec := new_spec]> new_specs_by_hash).

(** [Context.reset_os_and_compiler(compiler=None)], the method *)
Definition Context_reset_os_and_compiler (compiler : option string)
    : M Context unit :=
  self ← get;
  '(new_order, new_specs_by_hash) ←
    for_fold (concretized_order self) ([], ∅) (reset_step compiler);
  modify (set_concretized_order new_order);;
  modify (set_specs_by_hash new_specs_by_hash).

(** [itertools.izip_longest(l, k)], which fills with [None]. *)
Fixpoint izip_longest {A B} (l : list A) (k : list B)
    : list (option A * option B) :=
  match l with
  | [] => (λ y, (None, Some y)) <$> k
  | x :: l' =>
      match k with
      | [] => (Some x, None) :: izip_longest l' []
      | y :: k' => (Some x, Some y) :: izip_longest l' k'
      end
  end.

Definition newline : string := String "010"%char "".

(** The body of the loop of [Context.list]; the state is what has been
    written to [stream].  [None] is formatted as [None], and
    [if concretized_hash:] is false for [None] and for the empty string. *)
Definition list_step (self : Context) (include_deps : bool)
    (pair : option string * option string) : M (list string) unit :=
  let '(user_spec, concretized_hash) := pair in
  modify (λ stream, stream ++ [default "None" user_spec +:+ newline]);;
  match concretized_hash with
  | Some h =>
      if decide (h = "") then pass
      else
        concretized_spec ← lift_res (dict_getitem h (specs_by_hash self));
        if include_deps then
          modify (λ stream, stream ++ [Spec_tree concretized_spec])
        else
          modify (λ stream, stream ++ [Spec_format concretized_spec +:+ newline])
  | None => pass
  end.

(** [Context.list(stream, include_deps=False)] *)
Definition Context_list (self : Context) (include_deps : bool)
    : M (list string) unit :=
  for_each (izip_longest (user_specs self) (concretized_order self))
           (list_step self include_deps).

(** A method called on the [Context] object a handler holds: the
    object is updated in place, the events are the handler's. *)
Definition on_context {A} (m : M Context A) (context : Context)
    : M World (A * Context) :=
  λ w, match m context with
       | (Ok a, context', ev) => (Ok (a, context'), w, ev)
       | (Raise e, _, ev) => (Raise e, w, ev)
       end.

(** [os.path.exists(repo.dirname_for_package_name(name))] *)
Definition os_path_exists_package (root : FilePath) (pkg_name : string)
    : M World bool :=
  w ← get;
  mret (match dirs w !! root.1 ≫= d_repo with
        | Some tree => bool_decide (is_Some (packages tree !! pkg_name))
        | None => false
        end).

(** [spack.repo.dump_provenance(spec, dest_pkg_dir)]: the directory of
    the package is made, with whatever is missing above it (a snapshot
    made that way has no [repo.yaml], so no namespace), and the package
    definition is copied into it. *)
Definition dump_provenance (spec : Spec) (root : FilePath) (pkg_name : string)
    : M World unit :=
  syscall;;
  w ← get;
  let d := default empty_dir (dirs w !! root.1) in
  let tree := default (mkRepoTree "" ∅) (d_repo d) in
  modify (set_dirs
    <[root.1 := mkDirectory (d_full_specs d) (d_context d)
        (Some (mkRepoTree (namespace tree)
                 (<[pkg_name := Spec_provenance spec]> (packages tree))))]>).

(** [dump_to_context_repo] *)
Definition dump_to_context_repo (spec : Spec) (repo : Repo) : M World unit :=
  have_pkg ← os_path_exists_package (root repo) (Spec_name spec);
  if negb have_pkg then dump_provenance spec (root repo) (Spec_name spec)
  else pass.

(** [context_create] *)
Definition context_create (args_context : string) : M World unit :=
  let context := Context_init args_context in
  there ← os_path_exists (path context);
  if (there : bool) then tty_die ("Context already exists: " +:+ args_context)
  else write context None.

(** [context_add] *)
Definition context_add (args_context : string) (args_package : list string)
    : M World unit :=
  context ← read args_context;
  specs ← lift_res (parse_specs args_package);
  context ← for_fold specs context
    (λ context spec,
       r ← on_context (add (Spec_format spec)) context; mret r.2);
  write context None.

(** [context_remove] *)
Definition context_remove (args_context : string) (args_package : list string)
    : M World unit :=
  context ← read args_context;
  specs ← lift_res (parse_specs args_package);
  context ← for_fold specs context
    (λ context spec,
       r ← on_context (remove (Spec_format spec)) context; mret r.2);
  write context None.

(** [context_concretize]; [spec.traverse()] is the traversal over all
    dependency types. *)
Definition context_concretize (args_context : string) : M World unit :=
  context ← read args_context;
  repo ← prepare_repository (PyContext context) [];
  r ← on_context concretize context;
  let new_specs := r.1 in
  let context := r.2 in
  for_each new_specs
    (λ spec, for_each (Spec_traverse [] spec)
               (λ dep, dump_to_context_repo dep repo));;
  write context (Some repo).

(** [context_relocate] *)
Definition context_relocate (args_context : string) (args_compiler : option string)
    : M World unit :=
  context ← read args_context;
  prepare_repository (PyContext context) [];;
  r ← on_context (Context_reset_os_and_compiler args_compiler) context;
  write r.2 None.

(** [context_upgrade_dependency]; [new_dep] is [None] or a [Spec]. *)
Definition context_upgrade_dependency (args_context args_dep_name : string)
    (args_dry_run : bool) : M World unit :=
  context ← read args_context;
  repo ← prepare_repository (PyContext context) [args_dep_name];
  r ← on_context (upgrade_dependency args_dep_name args_dry_run) context;
  match negb args_dry_run, r.1 with
  | true, Some new_dep =>
      dump_to_context_repo new_dep repo;;
      write r.2 (Some repo)
  | _, _ => pass
  end.

(** ** Vocabulary of the further statements *)

(** An event that is a [tty.msg]. *)
Definition is_msg (ev : Event) : Prop := ∃ msg, ev = EvMsg msg.

(** No graph is deleted from [self] to [self']. *)
Definition keys_kept (self self' : Context) : Prop :=
  ∀ h, is_Some (specs_by_hash self !! h) → is_Some (specs_by_hash self' !! h).

(** The two files of [context] are in directory [d]. *)
Definition holds (context : Context) (d : Directory) : Prop :=
  d_full_specs d = Some (Spec_to_dict <$> specs_by_hash context)
  ∧ d_context d = Some (to_dict context).



(** Every path but the three of the context called [n] is in [ds'] what
    it is in [ds]. *)
Definition same_elsewhere (n : string) (ds ds' : gmap string Directory) : Prop :=
  ∀ p, p ≠ staging_path n → p ≠ committed_path n → p ≠ rollback_path n →
       ds' !! p = ds !! p.

(** The next process, after this one has ended or was interrupted. *)
Definition restarted (w : World) : World := mkWorld (dirs w) None.

(** A property of the file system a program ends in. *)
Definition ends_in {A} (Q : gmap string Directory → Prop)
    (out : Res A * World * list Event) : Prop :=
  Q (dirs out.1.2).

(** What [s] has at the three paths of the context called [n], the rest
    being as in [ds]. *)
Definition at_paths (n : string) (ds s : gmap string Directory)
    (a b c : option Directory) : Prop :=
  s !! staging_path n = a
  ∧ s !! committed_path n = b
  ∧ s !! rollback_path n = c
  ∧ same_elsewhere n ds s.

(** Where a [write] of [context] started in [ds] can end. *)
Definition write_outcome (context : Context) (ds s : gmap string Directory)
    : Prop :=
  ∃ a b c,
    at_paths (name context) ds s a b c
    ∧ (s = ds
       ∨ is_Some a
       ∨ is_Some c
       ∨ (a = None ∧ c = None ∧ ∃ d, b = Some d ∧ holds context d)).

(** The packages of a snapshot after [dump_to_context_repo] of [deps]
    one after the other, and after the removal of the packages [remove]. *)
Definition dump_all (deps : list Spec) (pk : gmap string string)
    : gmap string string :=
  foldl (λ pk dep,
           match pk !! Spec_name dep with
           | Some _ => pk
           | None => <[Spec_name dep := Spec_provenance dep]> pk
           end) pk deps.

Definition remove_all (remove : list string) (pk : gmap string string)
    : gmap string string :=
  foldl (λ pk k, delete k pk) pk remove.

(** The snapshot [prepare_repository] starts from: the committed one of
    [context], or a new one named after it. *)
Definition snapshot_of (context : Context) (ds : gmap string Directory)
    : RepoTree :=
  default (mkRepoTree (name context) ∅) (ds !! path context ≫= d_repo).

(** The temporary directory, holding the snapshot [tree]. *)
Definition temp_dir (tree : RepoTree) : Directory :=
  mkDirectory None None (Some tree).

(** The committed directory of [context] with the snapshot [tree]. *)
Definition committed_dir (context : Context) (tree : option RepoTree)
    : Directory :=
  mkDirectory (Some (Spec_to_dict <$> specs_by_hash context))
              (Some (to_dict context)) tree.

(** What [Context.list] writes for a resolved request, and the lines
    of the resolved requests one after the other. *)
Definition listed (include_deps : bool) (user_spec : string) (spec : Spec)
    : list string :=
  [user_spec +:+ newline;
   if include_deps then Spec_tree spec else Spec_format spec +:+ newline].

Definition listing (include_deps : bool) (user_specs : list string)
    (roots : list Spec) : list string :=
  concat (zip_with (listed include_deps) user_specs roots).

(** A method that leaves the name of the object as it is. *)
Definition keeps_name {A} (m : M Context A) : Prop :=
  ∀ self, name (m self).1.2 = name self.

(** The three paths of the context called [n]. *)
Definition own_paths (n : string) (q : string) : Prop :=
  q = staging_path n ∨ q = committed_path n ∨ q = rollback_path n.

(** A program that changes no directory outside [P]. *)
Definition touches_only {A} (P : string → Prop) (m : M World A) : Prop :=
  ∀ w q, ¬ P q → dirs (m w).1.2 !! q = dirs w !! q.

(** A program that returns [a] when it returns. *)
Definition returns {S A} (a : A) (m : M S A) : Prop :=
  ∀ s r s1 ev, m s = (r, s1, ev) → ∀ a', r = Ok a' → a' = a.

(** The path [q] is [a] or is below it. *)
Definition under (a q : string) : Prop :=
  q = a ∨ String.prefix (a +:+ "/") q = true.

(** The path [q] is one of the three paths of the context called [n],
    or below one of them. *)
Definition own_tree (n : string) (q : string) : Prop :=
  under (staging_path n) q ∨ under (committed_path n) q
  ∨ under (rollback_path n) q.

(** A program that changes no directory that exists when it starts,
    save those at and below the three paths of the context called [n]. *)
Definition isolated {A} (n : string) (m : M World A) : Prop :=
  ∀ w q, is_Some (dirs w !! q) → ¬ own_tree n q →
         dirs (m w).1.2 !! q = dirs w !! q.

(** The package names of the requests, in order. *)
Definition request_names (self : Context) : list string :=
  (λ x, Spec_name (Spec_parse x)) <$> user_specs self.

End Commands.

(** ** The small instance, for the handlers

    Stripping a resolved spec leaves the request for its root; the
    command line is parsed into one spec per word; the definition of a
    package is its node. *)

Module MockCommands.

#[local] Existing Instance Mock.api.

#[local] Instance commands : SpackCommands := {|
  Spec_strip := λ s : Spec, Mock.node_name (Mock.root_node s);
  Spec_set_compiler := λ (c : string) (s : Spec), Ok s;
  parse_specs := λ l : list string, Ok (l : list Spec);
  Spec_provenance := λ s : Spec, "package.py of " +:+ (s : string);
  Spec_tree := λ s : Spec, Mock.join_with (String "010"%char "") (Mock.nodes s);
|}.

(** The directories of [Mock.committed_app_a]: the context [c] with the
    request [app-a] resolved, committed without a snapshot. *)
Definition app_a_dirs : gmap string Directory := dirs Mock.committed_app_a.

(** The same after [context_concretize] has run on it once more: the
    committed directory has the snapshot of the graph of [app-a]. *)
Definition with_snapshot : gmap string Directory :=
  <[committed_path "c" :=
      committed_dir Mock.app_a
        (Some (mkRepoTree "c"
                 (dump_all (Mock.nodes "app-a@1.0^lib@1.0^zlib@1.2") ∅)))]>
    app_a_dirs.

(** Three requests, none resolved; the resolver has nothing for the
    second. *)
Definition three_requests : Context :=
  run_ops [OpAdd "app-a"; OpAdd "nope"; OpAdd "app-b"] Mock.empty_context.


End MockCommands.


(** * Properties *)

Ltac unfold_m :=
  unfold mbind, M_bind, mret, M_ret, bind, ret, get, put, modify, raise,
    emit, lift_res, pass, tty_die, tty_warn, tty_msg, tty_info in *.

Section Properties.
Context `{API : SpackAPI}.

(** ** Loops *)

Lemma bind_eq {S A B} (m : M S A) (f : A → M S B) (s : S) :
  (m ≫= f) s =
    match m s with
    | (Ok a, s1, ev1) =>
        match f a s1 with (r, s2, ev2) => (r, s2, ev1 ++ ev2) end
    | (Raise e, s1, ev1) => (Raise e, s1, ev1)
    end.
Proof. reflexivity. Qed.

Lemma for_fold_cons {S A B} (x : A) (l : list A) (acc : B)
    (body : B → A → M S B) (s : S) :
  for_fold (x :: l) acc body s =
    match body acc x s with
    | (Ok acc', s1, ev1) =>
        match for_fold l acc' body s1 with (r, s2, ev2) => (r, s2, ev1 ++ ev2) end
    | (Raise e, s1, ev1) => (Raise e, s1, ev1)
    end.
Proof. reflexivity. Qed.

Lemma for_fold_nil {S A B} (acc : B) (body : B → A → M S B) (s : S) :
  for_fold [] acc body s = (Ok acc, s, []).
Proof. reflexivity. Qed.

Lemma for_each_cons {S A} (x : A) (l : list A) (body : A → M S unit) (s : S) :
  for_each (x :: l) body s =
    match body x s with
    | (Ok _, s1, ev1) =>
        match for_each l body s1 with (r, s2, ev2) => (r, s2, ev1 ++ ev2) end
    | (Raise e, s1, ev1) => (Raise e, s1, ev1)
    end.
Proof. reflexivity. Qed.

(** ** Requests: [add] and [remove] *)

Lemma existing_nonempty (query : string) (l : list string) :
  (list_to_set (filter (λ x, Spec_name (Spec_parse x) = Spec_name (Spec_parse query)) l)
     : gset string) ≠ ∅
  ↔ Exists (same_name query) l.
Proof.
  rewrite Exists_exists. split.
  - intros Hne. apply set_choose_L in Hne as [x Hx].
    rewrite elem_of_list_to_set, list_elem_of_filter in Hx.
    exists x. by destruct Hx.
  - intros (x & Hx & Hn) Hempty.
    assert (x ∈ (∅ : gset string)) as Hin; [|set_solver].
    rewrite <- Hempty, elem_of_list_to_set, list_elem_of_filter. done.
Qed.

(** C8. [add(request)] dies with the duplicate-package message, and
    leaves the context (so also its request list) as it was, whenever a
    request of the same package name is already present; otherwise it
    appends the request at the end of [user_specs] and changes nothing
    else. *)
Theorem add_duplicate_or_append (user_spec : string) (self : Context) :
  (Exists (same_name user_spec) (user_specs self) →
     add user_spec self =
       (Raise (Die ("Package " +:+ Spec_name (Spec_parse user_spec)
                    +:+ " was already added to " +:+ name self)),
        self, []))
  ∧ (¬ Exists (same_name user_spec) (user_specs self) →
     add user_spec self =
       (Ok (), set_user_specs (user_specs self ++ [user_spec]) self, [])).
Proof.
  unfold add. unfold_m. split; intros H.
  - rewrite decide_True; [done|]. by apply existing_nonempty.
  - rewrite decide_False; [done|]. intros Hne. by apply H, existing_nonempty.
Qed.

(** What the search loop of [remove] returns. *)
Lemma match_loop_none (query_name : string) (l : list string) (i : Z) :
  Forall (λ x, Spec_name (Spec_parse x) ≠ query_name) l →
  match_loop query_name i l = -1.
Proof.
  intros H. revert i. induction H as [|x l Hx _ IH]; intros i; simpl; [done|].
  rewrite decide_False by done. apply IH.
Qed.

Lemma match_loop_found (query_name : string) (l : list string) (i : Z) :
  0 ≤ i →
  Exists (λ x, Spec_name (Spec_parse x) = query_name) l →
  ∃ k x, match_loop query_name i l = i + Z.of_nat k
         ∧ l !! k = Some x
         ∧ Spec_name (Spec_parse x) = query_name
         ∧ Forall (λ y, Spec_name (Spec_parse y) ≠ query_name) (take k l).
Proof.
  intros Hi H. revert i Hi.
  induction l as [|y l IH]; intros i Hi; [by apply Exists_nil in H|].
  simpl. destruct (decide (Spec_name (Spec_parse y) = query_name)) as [Hy|Hy].
  - exists 0%nat, y. repeat split; [lia|done|constructor].
  - apply Exists_cons in H as [H|H]; [done|].
    destruct (IH H (i + 1)) as (k & x & Hk & Hl & Hx & Hpre); [lia|].
    exists (S k), x. repeat split; [lia|done|done|].
    simpl. by constructor.
Qed.

(** C9. [remove(query)] of a package name that no request has dies
    with the not-found message and leaves the whole context (requests,
    resolutions, graphs) as it was. *)
Theorem remove_not_found (query : string) (self : Context) :
  Forall (λ x, ¬ same_name query x) (user_specs self) →
  remove query self =
    (Raise (Die ("Not found: " +:+ Spec_format (Spec_parse query))), self, []).
Proof.
  intros H. unfold remove. unfold_m.
  rewrite (match_loop_none _ _ 0) by done. done.
Qed.

(** ** Incremental resolution: [concretize] *)

Lemma concretize_step_eq (acc : list Spec) (r : string) (self : Context) :
  concretize_step acc r self =
    match Spec_concretize (Spec_parse r) with
    | Ok spec =>
        (Ok (acc ++ [spec]),
         set_concretized_order (concretized_order self ++ [Spec_dag_hash spec])
           (set_specs_by_hash (<[Spec_dag_hash spec := spec]> (specs_by_hash self))
                              self),
         [concretize_event r])
    | Raise e => (Raise e, self, [concretize_event r])
    end.
Proof.
  unfold concretize_step, concretize_spec. unfold_m. simpl.
  by destruct (Spec_concretize (Spec_parse r)).
Qed.

Lemma concretize_loop (l : list string) :
  ∀ acc self new_specs self' evs,
    for_fold l acc concretize_step self = (Ok new_specs, self', evs) →
    ∃ specs,
      Forall2 resolves_to l specs
      ∧ new_specs = acc ++ specs
      ∧ self' = set_concretized_order
                  (concretized_order self ++ (Spec_dag_hash <$> specs))
                  (set_specs_by_hash (store_all specs (specs_by_hash self)) self)
      ∧ evs = concretize_event <$> l.
Proof.
  induction l as [|r l IH]; intros acc self new_specs self' evs.
  - rewrite for_fold_nil. intros [= <- <- <-]. exists []. simpl.
    rewrite !app_nil_r. by destruct self.
  - rewrite for_fold_cons, concretize_step_eq.
    destruct (Spec_concretize (Spec_parse r)) as [spec|e] eqn:Hr; [|done].
    destruct (for_fold l _ _ _) as [[res s2] ev2] eqn:Hrest.
    intros [= -> -> <-].
    apply IH in Hrest as (specs & Hall & -> & -> & ->).
    exists (spec :: specs). simpl. repeat split.
    + by constructor.
    + by rewrite <- app_assoc.
    + unfold set_concretized_order, set_specs_by_hash. simpl.
      by rewrite <- app_assoc.
Qed.

(** C3. A successful [concretize()] calls the resolver on the requests
    beyond [len(concretized_order)] and on no other: the hashes already
    there stay in place, in front of the new ones.  A second call right
    after it resolves nothing, returns no new spec and leaves the context
    as it is. *)
Theorem concretize_suffix_then_idle (self self' : Context)
    (new_specs : list Spec) (evs : list Event) :
  concretize self = (Ok new_specs, self', evs) →
  let pending := drop (length (concretized_order self)) (user_specs self) in
  evs = concretize_event <$> pending
  ∧ Forall2 resolves_to pending new_specs
  ∧ concretized_order self' =
      concretized_order self ++ (Spec_dag_hash <$> new_specs)
  ∧ user_specs self' = user_specs self
  ∧ concretize self' = (Ok [], self', []).
Proof.
  intros Hrun pending. unfold concretize in Hrun. unfold_m.
  destruct (for_fold _ _ _ _) as [[res s1] ev1] eqn:Hloop.
  simpl in Hrun. injection Hrun as -> -> <-.
  apply concretize_loop in Hloop as (specs & Hall & -> & -> & ->).
  simpl. repeat split; [done..|].
  unfold concretize. unfold_m. simpl.
  rewrite drop_ge; [done|].
  rewrite length_app, length_fmap, <- (Forall2_length _ _ _ Hall), length_drop.
  lia.
Qed.

(** ** The invariants of a context under [add], [remove], [concretize] *)

(** What a call of [remove] leaves behind: nothing changed, or the
    request at some index [k] deleted and, when [k] is the index of a
    resolution, that hash deleted too, with or without its graph. *)
Lemma remove_outcome (query : string) (self : Context) :
  let self' := (remove query self).1.2 in
  self' = self
  ∨ ∃ k,
      (k < length (user_specs self))%nat
      ∧ user_specs self' = delete k (user_specs self)
      ∧ ((length (concretized_order self) ≤ k)%nat
         ∧ concretized_order self' = concretized_order self
         ∧ specs_by_hash self' = specs_by_hash self
         ∨ ∃ h,
             concretized_order self !! k = Some h
             ∧ concretized_order self' = delete k (concretized_order self)
             ∧ (specs_by_hash self' = specs_by_hash self
                ∨ specs_by_hash self' = delete h (specs_by_hash self))).
Proof.
  destruct (decide (Exists (λ x, Spec_name (Spec_parse x)
                                 = Spec_name (Spec_parse query))
                           (user_specs self))) as [Hex|Hnone].
  - destruct (match_loop_found _ _ 0 ltac:(done) Hex)
      as (k & x & Hk & Hx & _ & _).
    pose proof (lookup_lt_Some _ _ _ Hx) as Hlt.
    right. exists k. split; [done|].
    unfold remove, list_del, dict_del. unfold_m. simpl. rewrite Hk.
    rewrite decide_False by lia.
    replace (Z.to_nat (0 + Z.of_nat k)) with k by lia.
    destruct (decide (k < length (user_specs self))%nat); [|lia]. simpl.
    destruct (decide (0 + Z.of_nat k < Z.of_nat (length (concretized_order self))))
      as [Hres|Hres]; simpl.
    + destruct (concretized_order self !! k) as [h|] eqn:Hh; simpl.
      2:{ apply lookup_ge_None in Hh. lia. }
      destruct (decide (k < length (concretized_order self))%nat); [|lia].
      simpl.
      destruct (specs_by_hash self !! h); simpl;
        (split; [done|]; right; exists h; split; [done|]; eauto).
    + split; [done|]. left. split; [lia|done].
  - left. apply (not_Exists_Forall _) in Hnone.
    unfold remove. unfold_m. simpl.
    rewrite (match_loop_none _ _ 0); [done|].
    eapply Forall_impl; [exact Hnone|]. done.
Qed.

(** What a call of [concretize] leaves behind, also when the resolver
    fails on the way: the first few pending requests resolved. *)
Lemma concretize_loop_outcome (l : list string) :
  ∀ acc self r self' evs,
    for_fold l acc concretize_step self = (r, self', evs) →
    ∃ specs,
      (length specs ≤ length l)%nat
      ∧ Forall2 resolves_to (take (length specs) l) specs
      ∧ self' = set_concretized_order
                  (concretized_order self ++ (Spec_dag_hash <$> specs))
                  (set_specs_by_hash (store_all specs (specs_by_hash self)) self).
Proof.
  induction l as [|x l IH]; intros acc self r self' evs.
  - rewrite for_fold_nil. intros [= <- <- <-]. exists []. simpl.
    rewrite app_nil_r. split_and!; [done|constructor|by destruct self].
  - rewrite for_fold_cons, concretize_step_eq.
    destruct (Spec_concretize (Spec_parse x)) as [spec|e] eqn:Hx.
    + destruct (for_fold l _ _ _) as [[res s2] ev2] eqn:Hrest.
      intros [= <- <- <-].
      apply IH in Hrest as (specs & Hlen & Hall & ->).
      exists (spec :: specs). simpl. split_and!; [lia|by constructor|].
      unfold set_concretized_order, set_specs_by_hash. simpl.
      by rewrite <- app_assoc.
    + intros [= <- <- <-]. exists []. simpl.
      rewrite app_nil_r. split_and!; [lia|constructor|by destruct self].
Qed.

Lemma concretize_outcome (self : Context) :
  let pending := drop (length (concretized_order self)) (user_specs self) in
  ∃ specs,
    (length specs ≤ length pending)%nat
    ∧ Forall2 resolves_to (take (length specs) pending) specs
    ∧ user_specs (concretize self).1.2 = user_specs self
    ∧ concretized_order (concretize self).1.2 =
        concretized_order self ++ (Spec_dag_hash <$> specs)
    ∧ specs_by_hash (concretize self).1.2 = store_all specs (specs_by_hash self).
Proof.
  intros pending.
  assert (concretize self = for_fold pending [] concretize_step self) as ->.
  { unfold concretize. rewrite bind_eq. unfold get at 1.
    by destruct (for_fold _ _ _ _) as [[r s1] ev]. }
  destruct (for_fold _ _ _ _) as [[r s1] ev] eqn:Hloop. simpl.
  apply concretize_loop_outcome in Hloop as (specs & Hlen & Hall & ->).
  exists specs. by split_and!.
Qed.

Lemma add_outcome (user_spec : string) (self : Context) :
  (add user_spec self).1.2 = self
  ∨ (add user_spec self).1.2 = set_user_specs (user_specs self ++ [user_spec]) self.
Proof. unfold add. unfold_m. case_decide; simpl; eauto. Qed.

Lemma aligned_step (op : Op) (self : Context) :
  aligned self → aligned (run_op op self).
Proof.
  intros [Hlen Hres]. destruct op as [user_spec|query|]; simpl.
  - destruct (add_outcome user_spec self) as [->| ->]; [done|].
    unfold aligned. simpl. split.
    + rewrite length_app. lia.
    + intros i h Hi. destruct (Hres i h Hi) as (r & spec & Hr & ? & ?).
      exists r, spec. split_and!; [|done..]. by apply lookup_app_l_Some.
  - destruct (remove_outcome query self)
      as [->|(k & Hk & Hus & [(Hge & Hco & _)|(h & Hh & Hco & _)])];
      [done|..]; split; rewrite Hus, Hco.
    + rewrite length_delete by by apply lookup_lt_is_Some. lia.
    + intros i h Hi. pose proof (lookup_lt_Some _ _ _ Hi).
      rewrite list_lookup_delete_lt by lia. by apply Hres.
    + pose proof (lookup_lt_Some _ _ _ Hh).
      rewrite !length_delete by by apply lookup_lt_is_Some. lia.
    + intros i h' Hi. rewrite list_lookup_delete in Hi |- *. by apply Hres.
  - destruct (concretize_outcome self)
      as (specs & Hn & Hall & Hus & Hco & _).
    split; rewrite Hus, Hco.
    + rewrite length_app, length_fmap. rewrite length_drop in Hn. lia.
    + intros i h Hi. apply lookup_app_Some in Hi as [Hi|[Hge Hi]];
        [by apply Hres|].
      rewrite list_lookup_fmap in Hi.
      destruct (specs !! (i - length (concretized_order self))%nat)
        as [spec|] eqn:Hspec; [|done].
      injection Hi as <-.
      destruct (Forall2_lookup_r _ _ _ _ _ Hall Hspec) as (r & Hr & Hrs).
      apply lookup_take_Some in Hr as [Hr _]. rewrite lookup_drop in Hr.
      exists r, spec. split_and!; [|done..].
      rewrite <- Hr. f_equal. lia.
Qed.

(** X2. After every sequence of [add], [remove] and [concretize] on a new
    context, [concretized_order] is no longer than [user_specs] and its
    [i]-th hash is the hash of the resolution of the [i]-th request. *)
Lemma aligned_run_ops (ops : list Op) (context_name : string) :
  aligned (run_ops ops (Context_init context_name)).
Proof.
  assert (∀ self, aligned self → aligned (run_ops ops self)) as Hall.
  { induction ops as [|op ops IH]; intros self Hself; [done|].
    simpl. by apply IH, aligned_step. }
  apply Hall. split; [done|]. intros i h Hi. simpl in Hi.
  by rewrite lookup_nil in Hi.
Qed.

Lemma store_all_is_Some (specs : list Spec) (m : gmap string Spec) (h : string) :
  is_Some (m !! h) → is_Some (store_all specs m !! h).
Proof.
  revert m. induction specs as [|spec specs IH]; intros m Hm; [done|].
  simpl. apply IH. destruct (decide (Spec_dag_hash spec = h)) as [<-|Hne].
  - rewrite lookup_insert_eq. eauto.
  - by rewrite lookup_insert_ne.
Qed.

Lemma store_all_stored (specs : list Spec) (m : gmap string Spec) (spec : Spec) :
  spec ∈ specs → is_Some (store_all specs m !! Spec_dag_hash spec).
Proof.
  revert m. induction specs as [|x specs IH]; intros m Hin.
  - by apply elem_of_nil in Hin.
  - simpl. apply elem_of_cons in Hin as [->|Hin]; [|by apply IH].
    apply store_all_is_Some. rewrite lookup_insert_eq. eauto.
Qed.

(** X3. One call of [add], [remove] or [concretize] keeps every hash of
    [concretized_order] a key of [specs_by_hash], as long as no hash
    occurs twice in [concretized_order]. *)
Lemma graphs_stored_step (op : Op) (self : Context) :
  NoDup (concretized_order self) →
  graphs_stored self → graphs_stored (run_op op self).
Proof.
  unfold graphs_stored. intros Hnd Hstored.
  destruct op as [user_spec|query|]; simpl.
  - by destruct (add_outcome user_spec self) as [->| ->].
  - destruct (remove_outcome query self)
      as [->|(k & _ & _ & [(_ & -> & ->)|(h & Hh & -> & Hsbh)])]; [done..|].
    rewrite Forall_forall in Hstored |- *. intros h' Hin.
    pose proof (list_elem_of_delete_inv _ _ _ Hin) as Hin'.
    destruct Hsbh as [->| ->]; [by apply Hstored|].
    rewrite lookup_delete_ne; [by apply Hstored|].
    intros <-. rewrite <- (take_drop_middle _ _ _ Hh) in Hnd.
    rewrite delete_take_drop in Hin.
    apply NoDup_app in Hnd as (_ & Hdisj & Htail).
    apply NoDup_cons in Htail as [Hnot _].
    apply elem_of_app in Hin as [Hin|Hin]; [|done].
    apply (Hdisj h Hin), list_elem_of_here.
  - destruct (concretize_outcome self) as (specs & _ & _ & _ & -> & ->).
    apply Forall_app. split.
    + eapply Forall_impl; [exact Hstored|]. intros h. apply store_all_is_Some.
    + apply Forall_fmap, Forall_forall. intros spec Hin.
      by apply store_all_stored.
Qed.

(** ** Paths *)

Lemma string_length_app (a b : string) :
  String.length (a +:+ b) = (String.length a + String.length b)%nat.
Proof. induction a as [|c a IH]; simpl; [done|]. by rewrite IH. Qed.

Lemma join_path_longer (a : string) (c : ascii) (n : string) :
  c ≠ "/"%char → (String.length n < String.length (join_path a (String c n)))%nat.
Proof.
  intros Hc. unfold join_path.
  assert (starts_with_slash (String c n) = false) as ->.
  { simpl. destruct c as [[] [] [] [] [] [] [] []]; try done. }
  repeat case_match; rewrite ?string_length_app; simpl; lia.
Qed.

Lemma join_path_inj_rel (a b1 b2 : string) :
  starts_with_slash b1 = false → starts_with_slash b2 = false →
  join_path a b1 = join_path a b2 → b1 = b2.
Proof.
  intros H1 H2. unfold join_path. rewrite H1, H2.
  repeat case_match; try done.
  - by intros ?%(inj (String.append a)).
  - by intros ?%(inj (String.append a))%(inj (String.append "/")).
Qed.

Lemma staging_ne_rollback (n : string) : staging_path n ≠ rollback_path n.
Proof.
  unfold staging_path, rollback_path. intros H.
  by apply join_path_inj_rel in H.
Qed.

Lemma staging_ne_committed (n : string) : staging_path n ≠ committed_path n.
Proof.
  unfold staging_path, committed_path. intros H.
  destruct (starts_with_slash n) eqn:Hn.
  - pose proof (join_path_longer _db_dirname "_" n) as Hlen.
    change (String "_" n) with ("_" +:+ n) in Hlen. rewrite H in Hlen. unfold join_path in Hlen at 1. rewrite Hn in Hlen.
    specialize (Hlen ltac:(done)). cbv iota in Hlen.
    by apply Nat.lt_irrefl in Hlen.
  - apply join_path_inj_rel in H; [|done..].
    apply (f_equal String.length) in H.
    rewrite string_length_app in H. simpl in H. lia.
Qed.

Lemma rollback_ne_committed (n : string) : rollback_path n ≠ committed_path n.
Proof.
  unfold rollback_path, committed_path. intros H.
  destruct (starts_with_slash n) eqn:Hn.
  - pose proof (join_path_longer _db_dirname "." n) as Hlen.
    change (String "." n) with ("." +:+ n) in Hlen. rewrite H in Hlen. unfold join_path in Hlen at 1. rewrite Hn in Hlen.
    specialize (Hlen ltac:(done)). cbv iota in Hlen.
    by apply Nat.lt_irrefl in Hlen.
  - apply join_path_inj_rel in H; [|done..].
    apply (f_equal String.length) in H.
    rewrite string_length_app in H. simpl in H. lia.
Qed.

Lemma write_paths_context {S} (c : Context) (s : S) :
  write_paths (PyContext c) s =
    (Ok (staging_path (name c), committed_path (name c), rollback_path (name c)),
     s, []).
Proof. reflexivity. Qed.

Lemma write_paths_function {S} (f : string) (s : S) :
  write_paths (PyFunction f) s = (Raise (AttributeError "function" "name"), s, []).
Proof. reflexivity. Qed.

(** ** Persistence: what [read] and [write] refuse *)

Lemma os_path_exists_eq (p : string) (w : World) :
  os_path_exists p w = (Ok (bool_decide (exists_in w p)), w, []).
Proof. reflexivity. Qed.

Lemma guard_partial (n : string) (w : World) :
  exists_in w (staging_path n) ∨ exists_in w (rollback_path n) →
  bool_decide (exists_in w (staging_path n))
  || bool_decide (exists_in w (rollback_path n)) = true.
Proof.
  intros [H|H]; rewrite (bool_decide_eq_true_2 _ H); [done|apply orb_true_r].
Qed.

Lemma guard_clean (n : string) (w : World) :
  dirs w !! staging_path n = None → dirs w !! rollback_path n = None →
  bool_decide (exists_in w (staging_path n))
  || bool_decide (exists_in w (rollback_path n)) = false.
Proof.
  intros H1 H2. unfold exists_in. rewrite H1, H2.
  rewrite !bool_decide_eq_false_2; [done|by intros [??]..].
Qed.

Lemma write_partial (context : Context) (new_repo : option Repo) (w : World) :
  exists_in w (staging_path (name context))
  ∨ exists_in w (rollback_path (name context)) →
  write context new_repo w = (Raise (Die partial_write_msg), w, []).
Proof.
  intros H. unfold write. unfold mbind at 1, M_bind at 1, bind at 1.
  rewrite write_paths_context.
  unfold mbind at 1, M_bind at 1, bind at 1. rewrite os_path_exists_eq.
  unfold mbind at 1, M_bind at 1, bind at 1. rewrite os_path_exists_eq.
  by rewrite guard_partial.
Qed.

Lemma read_partial (context_name : string) (w : World) :
  exists_in w (staging_path context_name)
  ∨ exists_in w (rollback_path context_name) →
  read context_name w = (Raise (Die partial_write_msg), w, []).
Proof.
  intros H. unfold read. unfold mbind at 1, M_bind at 1, bind at 1.
  rewrite write_paths_context.
  unfold mbind at 1, M_bind at 1, bind at 1. rewrite os_path_exists_eq.
  unfold mbind at 1, M_bind at 1, bind at 1. rewrite os_path_exists_eq.
  simpl name. by rewrite guard_partial.
Qed.

(** [read] when no write was left half-way: it opens [context.yaml],
    then [full_specs.json], below the committed directory. *)
Lemma read_clean (context_name : string) (w : World) :
  dirs w !! staging_path context_name = None →
  dirs w !! rollback_path context_name = None →
  read context_name w =
    match dirs w !! committed_path context_name ≫= d_context with
    | None => (Raise (IOError (committed_path context_name, context_yaml)), w, [])
    | Some context_dict =>
        match dirs w !! committed_path context_name ≫= d_full_specs with
        | None =>
            (Raise (IOError (committed_path context_name, full_specs_json)), w, [])
        | Some install_dict =>
            (Ok (set_specs_by_hash (Spec_from_dict <$> install_dict)
                                   (from_dict context_name context_dict)), w, [])
        end
    end.
Proof.
  intros H1 H2. unfold read. unfold mbind at 1, M_bind at 1, bind at 1.
  rewrite write_paths_context.
  unfold mbind at 1, M_bind at 1, bind at 1. rewrite os_path_exists_eq.
  unfold mbind at 1, M_bind at 1, bind at 1. rewrite os_path_exists_eq.
  simpl name. rewrite guard_clean by done.
  unfold read_yaml, read_json. unfold_m. simpl.
  destruct (dirs w !! committed_path context_name) as [d|] eqn:Hd;
    simpl; rewrite ?Hd; simpl; [|done].
  destruct (d_context d); simpl; rewrite ?Hd; simpl; [|done].
  by destruct (d_full_specs d).
Qed.

(** C7. Whenever the staging path [_N] or the rollback path [.N]
    exists, [write] and [read] both die with the partial-write message
    and leave the file system as it is; and when neither exists and the
    committed directory [N] is absent, [read] fails on opening
    [N/context.yaml], the missing-context failure. *)
Theorem partial_write_state_and_missing_context
    (context : Context) (new_repo : option Repo) (context_name : string)
    (w : World) :
  (exists_in w (staging_path (name context))
   ∨ exists_in w (rollback_path (name context)) →
   write context new_repo w = (Raise (Die partial_write_msg), w, []))
  ∧ (exists_in w (staging_path context_name)
     ∨ exists_in w (rollback_path context_name) →
     read context_name w = (Raise (Die partial_write_msg), w, []))
  ∧ (dirs w !! staging_path context_name = None →
     dirs w !! rollback_path context_name = None →
     dirs w !! committed_path context_name = None →
     read context_name w =
       (Raise (IOError (committed_path context_name, context_yaml)), w, [])).
Proof.
  split; [apply write_partial|]. split; [apply read_partial|].
  intros H1 H2 H3. rewrite read_clean by done. by rewrite H3.
Qed.

(** ** The handler of [spack context install] *)

Lemma read_no_events (context_name : string) (w : World) :
  ∃ r, read context_name w = (r, w, []).
Proof.
  destruct (decide (exists_in w (staging_path context_name)
                    ∨ exists_in w (rollback_path context_name))) as [H|H].
  - rewrite read_partial by done. eauto.
  - rewrite read_clean.
    + repeat case_match; eauto.
    + apply eq_None_not_Some. intros ?. apply H. by left.
    + apply eq_None_not_Some. intros ?. apply H. by right.
Qed.

(** C10. For every context name and every state of the file system,
    [context_install] raises: either [read] fails, or the process is
    interrupted, or the call [prepare_repository(context)] fails on
    [context.repo_path], because [context] is the module's function and
    not the context just read.  Nothing is emitted, so the installer is
    called on no spec. *)
Theorem context_install_never_installs (args_context : string) (w : World) :
  ∃ e w' evs,
    context_install args_context w = (Raise e, w', evs)
    ∧ ∀ spec, EvInstall spec ∉ evs.
Proof.
  assert (∃ e w', context_install args_context w = (Raise e, w', []))
    as (e & w' & Heq).
  { unfold context_install. unfold mbind at 1, M_bind at 1, bind at 1.
    destruct (read_no_events args_context w) as [r ->].
    destruct r as [contexts|e]; [|eauto].
    unfold prepare_repository, tempfile_mkdtemp, syscall, call_repo_path,
      global_context.
    unfold_m. simpl. destruct (budget w) as [[|k]|]; simpl; eauto. }
  exists e, w', []. split; [done|]. intros spec. apply not_elem_of_nil.
Qed.

(** X29. When [read] succeeds and the process is not interrupted, the error
    is the missing attribute, raised after the temporary directory of
    [prepare_repository] has been made. *)
Lemma context_install_attribute_error (args_context : string)
    (ds : gmap string Directory) (contexts : Context) :
  read args_context (mkWorld ds None) = (Ok contexts, mkWorld ds None, []) →
  context_install args_context (mkWorld ds None) =
    (Raise (AttributeError "function" "repo_path"),
     mkWorld (<[fresh (dom ds) := empty_dir]> ds) None, []).
Proof.
  intros Hread. unfold context_install. rewrite bind_eq, Hread.
  reflexivity.
Qed.

(** X7. [Context.install] itself, on a context whose roots are stored, hands
    every root to the installer, in the order of [concretized_order]. *)
Lemma install_events (self : Context) :
  graphs_stored self →
  install self =
    (Ok (), self,
     (λ spec, EvInstall (Spec_format spec))
       <$> roots_of (specs_by_hash self) (concretized_order self)).
Proof.
  unfold graphs_stored, install. rewrite bind_eq. unfold get at 1.
  generalize (concretized_order self) as hashes.
  intros hashes Hall. induction Hall as [|h hashes [spec Hh] _ IH].
  - reflexivity.
  - rewrite for_each_cons. unfold roots_of. simpl omap. rewrite Hh.
    unfold dict_getitem. rewrite bind_eq. unfold lift_res at 1. rewrite Hh.
    unfold emit at 1.
    destruct (for_each hashes _ self) as [[r s2] ev2] eqn:Hrest.
    simpl in IH. injection IH as -> -> ->. reflexivity.
Qed.

(** ** [repair] *)

(** [repair] raises on its second statement, whatever the context name
    and the state of the three paths, and changes nothing. *)
Lemma repair_raises (context_name : string) (w : World) :
  repair context_name w = (Raise (AttributeError "function" "name"), w, []).
Proof.
  unfold repair, global_context. by rewrite bind_eq, write_paths_function.
Qed.

(** ** Persistence: a write followed by a read *)

(** The primitives in a process that is not interrupted. *)
Lemma fs_mkdirp_eq (p : string) (ds : gmap string Directory) :
  fs_mkdirp p (mkWorld ds None) =
    (Ok (), mkWorld (match ds !! p with
                     | Some _ => ds
                     | None => <[p := empty_dir]> ds
                     end) None, []).
Proof.
  unfold fs_mkdirp, syscall. unfold_m. simpl. by destruct (ds !! p).
Qed.

Lemma write_json_eq (p : FilePath) (data : gmap string SpecDict)
    (ds : gmap string Directory) (d : Directory) :
  ds !! p.1 = Some d →
  write_json p data (mkWorld ds None) =
    (Ok (), mkWorld (<[p.1 := mkDirectory (Some data) (d_context d) (d_repo d)]> ds)
                    None, []).
Proof.
  intros H. unfold write_json, syscall. unfold_m. simpl. by rewrite H.
Qed.

Lemma write_yaml_eq (p : FilePath) (data : ContextYaml)
    (ds : gmap string Directory) (d : Directory) :
  ds !! p.1 = Some d →
  write_yaml p data (mkWorld ds None) =
    (Ok (), mkWorld (<[p.1 := mkDirectory (d_full_specs d) (Some data) (d_repo d)]> ds)
                    None, []).
Proof.
  intros H. unfold write_yaml, syscall. unfold_m. simpl. by rewrite H.
Qed.

Lemma shutil_copytree_eq (src dst : FilePath) (ds : gmap string Directory)
    (tree : RepoTree) (d : Directory) :
  ds !! src.1 ≫= d_repo = Some tree →
  ds !! dst.1 = Some d → d_repo d = None →
  shutil_copytree src dst (mkWorld ds None) =
    (Ok (), mkWorld (<[dst.1 := mkDirectory (d_full_specs d) (d_context d)
                                            (Some tree)]> ds) None, []).
Proof.
  intros Hs Hd Hr. unfold shutil_copytree, syscall. unfold_m. simpl.
  by rewrite Hs, Hd, Hr.
Qed.

Lemma shutil_move_eq (src dst : string) (ds : gmap string Directory)
    (d : Directory) :
  ds !! src = Some d → ds !! dst = None →
  shutil_move src dst (mkWorld ds None) =
    (Ok (), mkWorld (<[dst := d]> (delete src ds)) None, []).
Proof.
  intros Hs Hd. unfold shutil_move, syscall. unfold_m. simpl.
  by rewrite Hs, Hd.
Qed.

Lemma shutil_rmtree_eq (p : string) (ds : gmap string Directory) (d : Directory) :
  ds !! p = Some d →
  shutil_rmtree p (mkWorld ds None) = (Ok (), mkWorld (delete p ds) None, []).
Proof.
  intros H. unfold shutil_rmtree, syscall. unfold_m. simpl. by rewrite H.
Qed.

Lemma bind_ok {S A B} (m : M S A) (f : A → M S B) (s s1 s2 : S) (a : A)
    (r : Res B) :
  m s = (Ok a, s1, []) → f a s1 = (r, s2, []) → (m ≫= f) s = (r, s2, []).
Proof. intros H1 H2. by rewrite bind_eq, H1, H2. Qed.

Lemma exists_true (ds : gmap string Directory) (b : option nat) (p : string)
    (d : Directory) :
  ds !! p = Some d → bool_decide (exists_in (mkWorld ds b) p) = true.
Proof. intros H. apply bool_decide_eq_true_2. unfold exists_in. simpl. eauto. Qed.

Lemma exists_false (ds : gmap string Directory) (b : option nat) (p : string) :
  ds !! p = None → bool_decide (exists_in (mkWorld ds b) p) = false.
Proof.
  intros H. apply bool_decide_eq_false_2. unfold exists_in. simpl.
  rewrite H. by intros [??].
Qed.

Lemma os_path_exists_member_some (ds : gmap string Directory) (b : option nat)
    (p : FilePath) (d : Directory) :
  ds !! p.1 = Some d →
  os_path_exists_member p (mkWorld ds b) = (Ok (has_member p.2 d), mkWorld ds b, []).
Proof. intros H. unfold os_path_exists_member. unfold_m. simpl. by rewrite H. Qed.

Lemma os_path_exists_member_none (ds : gmap string Directory) (b : option nat)
    (p : FilePath) :
  ds !! p.1 = None →
  os_path_exists_member p (mkWorld ds b) = (Ok false, mkWorld ds b, []).
Proof. intros H. unfold os_path_exists_member. unfold_m. simpl. by rewrite H. Qed.

Ltac solve_lookup :=
  simpl;
  repeat first
    [ rewrite lookup_insert_eq
    | rewrite lookup_insert_ne by done
    | rewrite lookup_delete_eq
    | rewrite lookup_delete_ne by done ];
  first [ eassumption | reflexivity ].

(** Steps 1 and 2 of the protocol up to the two files. *)
Ltac write_files Hst :=
  unfold write; eapply bind_ok; [apply write_paths_context|];
  eapply bind_ok; [apply os_path_exists_eq|];
  eapply bind_ok; [apply os_path_exists_eq|];
  rewrite guard_clean by done;
  eapply bind_ok; [apply fs_mkdirp_eq|]; rewrite Hst;
  eapply bind_ok; [eapply write_json_eq; solve_lookup|];
  eapply bind_ok; [eapply write_yaml_eq; solve_lookup|];
  simpl; rewrite !insert_insert_eq.

(** Steps 3 to 5 when a committed directory exists, and when none does. *)
Ltac commit_over_old :=
  eapply bind_ok; [apply os_path_exists_eq|];
  erewrite exists_true by solve_lookup;
  eapply bind_ok; [eapply shutil_move_eq; solve_lookup|];
  eapply bind_ok; [eapply shutil_move_eq; solve_lookup|];
  eapply bind_ok; [apply os_path_exists_eq|];
  erewrite exists_true by solve_lookup;
  eapply shutil_rmtree_eq; solve_lookup.

Ltac commit_fresh :=
  eapply bind_ok; [apply os_path_exists_eq|];
  rewrite exists_false by solve_lookup;
  eapply bind_ok; [reflexivity|];
  eapply bind_ok; [eapply shutil_move_eq; solve_lookup|];
  eapply bind_ok; [apply os_path_exists_eq|];
  rewrite exists_false by solve_lookup;
  reflexivity.

Lemma write_commits (context : Context) (new_repo : option Repo)
    (ds : gmap string Directory) :
  ds !! staging_path (name context) = None →
  ds !! rollback_path (name context) = None →
  (∀ r, new_repo = Some r → is_Some (ds !! (root r).1 ≫= d_repo)) →
  ∃ ds' tree,
    write context new_repo (mkWorld ds None) = (Ok (), mkWorld ds' None, [])
    ∧ ds' !! staging_path (name context) = None
    ∧ ds' !! rollback_path (name context) = None
    ∧ ds' !! committed_path (name context) =
        Some (mkDirectory (Some (Spec_to_dict <$> specs_by_hash context))
                          (Some (to_dict context)) tree).
Proof.
  intros Hst Hrb Hrepo.
  pose proof (staging_ne_rollback (name context)) as Hne1.
  pose proof (staging_ne_committed (name context)) as Hne2.
  pose proof (rollback_ne_committed (name context)) as Hne3.
  destruct new_repo as [r|].
  - destruct (Hrepo r eq_refl) as [tree Htree].
    assert ((root r).1 ≠ staging_path (name context)) as Hsrc.
    { intros Heq. rewrite Heq, Hst in Htree. done. }
    destruct (ds !! committed_path (name context)) as [old|] eqn:Hcm.
    + do 2 eexists. split.
      { write_files Hst.
        eapply bind_ok; [eapply shutil_copytree_eq; solve_lookup|].
        simpl; rewrite !insert_insert_eq.
        commit_over_old. }
      repeat split; solve_lookup.
    + do 2 eexists. split.
      { write_files Hst.
        eapply bind_ok; [eapply shutil_copytree_eq; solve_lookup|].
        simpl; rewrite !insert_insert_eq.
        commit_fresh. }
      repeat split; solve_lookup.
  - change (repo_path context) with (committed_path (name context), repo) in *.
    destruct (ds !! committed_path (name context)) as [old|] eqn:Hcm.
    + destruct (d_repo old) as [tree|] eqn:Hold.
      * do 2 eexists. split.
        { write_files Hst.
          eapply bind_ok.
          { eapply bind_ok; [eapply os_path_exists_member_some; solve_lookup|].
            simpl. rewrite Hold. simpl.
            eapply shutil_copytree_eq; [|solve_lookup..].
            simpl. rewrite lookup_insert_ne by done.
            change (path context) with (committed_path (name context)).
            rewrite Hcm. apply Hold. }
          simpl; rewrite !insert_insert_eq.
          commit_over_old. }
        repeat split; solve_lookup.
      * do 2 eexists. split.
        { write_files Hst.
          eapply bind_ok.
          { eapply bind_ok; [eapply os_path_exists_member_some; solve_lookup|].
            simpl. rewrite Hold. reflexivity. }
          commit_over_old. }
        repeat split; solve_lookup.
    + do 2 eexists. split.
      { write_files Hst.
        eapply bind_ok.
        { eapply bind_ok; [eapply os_path_exists_member_none; solve_lookup|].
          reflexivity. }
        commit_fresh. }
      repeat split; solve_lookup.
Qed.

(** The same with the snapshot that is committed: the copy of the given
    one, else the one the committed directory had. *)
Lemma write_commits_snapshot (context : Context) (new_repo : option Repo)
    (ds : gmap string Directory) :
  ds !! staging_path (name context) = None →
  ds !! rollback_path (name context) = None →
  (∀ r, new_repo = Some r → is_Some (ds !! (root r).1 ≫= d_repo)) →
  ∃ ds',
    write context new_repo (mkWorld ds None) = (Ok (), mkWorld ds' None, [])
    ∧ ds' !! staging_path (name context) = None
    ∧ ds' !! rollback_path (name context) = None
    ∧ ds' !! committed_path (name context) =
        Some (mkDirectory (Some (Spec_to_dict <$> specs_by_hash context))
                          (Some (to_dict context))
                          (match new_repo with
                           | Some r => ds !! (root r).1 ≫= d_repo
                           | None => ds !! committed_path (name context) ≫= d_repo
                           end)).
Proof.
  intros Hst Hrb Hrepo.
  pose proof (staging_ne_rollback (name context)) as Hne1.
  pose proof (staging_ne_committed (name context)) as Hne2.
  pose proof (rollback_ne_committed (name context)) as Hne3.
  destruct new_repo as [r|].
  - destruct (Hrepo r eq_refl) as [tree Htree]. rewrite Htree.
    assert ((root r).1 ≠ staging_path (name context)) as Hsrc.
    { intros Heq. rewrite Heq, Hst in Htree. done. }
    destruct (ds !! committed_path (name context)) as [old|] eqn:Hcm.
    + eexists. split.
      { write_files Hst.
        eapply bind_ok; [eapply shutil_copytree_eq; solve_lookup|].
        simpl; rewrite !insert_insert_eq.
        commit_over_old. }
      repeat split; solve_lookup.
    + eexists. split.
      { write_files Hst.
        eapply bind_ok; [eapply shutil_copytree_eq; solve_lookup|].
        simpl; rewrite !insert_insert_eq.
        commit_fresh. }
      repeat split; solve_lookup.
  - change (repo_path context) with (committed_path (name context), repo) in *.
    destruct (ds !! committed_path (name context)) as [old|] eqn:Hcm.
    + change (Some old ≫= d_repo) with (d_repo old).
      destruct (d_repo old) as [tree|] eqn:Hold.
      * eexists. split.
        { write_files Hst.
          eapply bind_ok.
          { eapply bind_ok; [eapply os_path_exists_member_some; solve_lookup|].
            simpl. rewrite Hold. simpl.
            eapply shutil_copytree_eq; [|solve_lookup..].
            simpl. rewrite lookup_insert_ne by done.
            change (path context) with (committed_path (name context)).
            rewrite Hcm. apply Hold. }
          simpl; rewrite !insert_insert_eq.
          commit_over_old. }
        repeat split; solve_lookup.
      * eexists. split.
        { write_files Hst.
          eapply bind_ok.
          { eapply bind_ok; [eapply os_path_exists_member_some; solve_lookup|].
            simpl. rewrite Hold. reflexivity. }
          commit_over_old. }
        repeat split; solve_lookup.
    + eexists. split.
      { write_files Hst.
        eapply bind_ok.
        { eapply bind_ok; [eapply os_path_exists_member_none; solve_lookup|].
          reflexivity. }
        commit_fresh. }
      repeat split; solve_lookup.
Qed.

(** C5. A [write] of a context whose name is one path component, that
    starts from a clean state (no staging and no rollback directory, the
    process not interrupted, the given repository snapshot present)
    succeeds, and the [read] that follows returns a context equal to the
    one written in every field: name, requests, resolutions, graphs with
    their hashes, and both pin tables.  The serializers of [spack.spec]
    are asked to restore what they wrote. *)
Theorem write_read_round_trip (context : Context) (new_repo : option Repo)
    (w : World) :
  is_component (name context) →
  budget w = None →
  dirs w !! staging_path (name context) = None →
  dirs w !! rollback_path (name context) = None →
  (∀ r, new_repo = Some r → is_Some (dirs w !! (root r).1 ≫= d_repo)) →
  (∀ h spec, specs_by_hash context !! h = Some spec →
             Spec_from_dict (Spec_to_dict spec) = spec) →
  ∃ w',
    write context new_repo w = (Ok (), w', [])
    ∧ read (name context) w' = (Ok context, w', []).
Proof.
  destruct w as [ds b]. simpl. intros _ -> Hst Hrb Hrepo Hser.
  destruct (write_commits context new_repo ds Hst Hrb Hrepo)
    as (ds' & tree & Hw & Hst' & Hrb' & Hcm').
  exists (mkWorld ds' None). split; [done|].
  rewrite read_clean by done. simpl. rewrite Hcm'. simpl.
  assert (Spec_from_dict <$> (Spec_to_dict <$> specs_by_hash context)
          = specs_by_hash context) as ->.
  { apply map_eq. intros h. rewrite !lookup_fmap.
    destruct (specs_by_hash context !! h) as [spec|] eqn:Hh; simpl; [|done].
    f_equal. by apply (Hser h). }
  by destruct context.
Qed.

(** ** Targeted upgrade: [upgrade_dependency] *)

Lemma upgrade_step_unaffected (dep_name h : string) (spec : Spec)
    (new_order : list string) (new_deps : list Spec) (self : Context) :
  specs_by_hash self !! h = Some spec →
  Spec_contains dep_name spec = false →
  upgrade_step dep_name false (new_order, new_deps) h self =
    (Ok (new_order ++ [h], new_deps), self, []).
Proof.
  intros Hh Hc. unfold upgrade_step, dict_getitem. unfold_m. simpl.
  rewrite Hh. simpl. by rewrite Hc.
Qed.

Lemma upgrade_step_affected (dep_name h : string) (spec new_spec new_dep : Spec)
    (new_order : list string) (new_deps : list Spec) (self : Context) :
  specs_by_hash self !! h = Some spec →
  Spec_contains dep_name spec = true →
  upgraded dep_name spec = Ok new_spec →
  Spec_getitem dep_name new_spec = Ok new_dep →
  ∃ evs,
    upgrade_step dep_name false (new_order, new_deps) h self =
      (Ok (new_order ++ [Spec_dag_hash new_spec], new_deps ++ [new_dep]),
       store_graph new_spec self, evs).
Proof.
  intros Hh Hc Hup Hdep.
  unfold upgrade_step, dict_getitem, upgrade_dependency_version, concretize_spec.
  unfold upgraded in Hup. unfold_m. simpl. rewrite Hh. simpl. rewrite Hc.
  destruct (Spec_set_versions_any dep_name (Spec_clear_concrete spec))
    as [relaxed|]; [|done].
  simpl. rewrite Hup. simpl. rewrite Hdep. simpl. eauto.
Qed.

Lemma upgrade_loop (dep_name : string) (graphs : gmap string Spec)
    (l : list string) :
  hash_identifies graphs →
  Forall (upgradable dep_name graphs) l →
  ∀ new_order new_deps self,
    (∀ h spec, graphs !! h = Some spec → specs_by_hash self !! h = Some spec) →
    ∃ order2 deps2 self' evs,
      for_fold l (new_order, new_deps) (upgrade_step dep_name false) self =
        (Ok (new_order ++ order2, new_deps ++ deps2), self', evs)
      ∧ length order2 = length l
      ∧ (∀ i h spec,
           l !! i = Some h → graphs !! h = Some spec →
           Spec_contains dep_name spec = false → order2 !! i = Some h)
      ∧ match list_find (λ h, affected dep_name graphs h) l with
        | None => deps2 = []
        | Some (_, h) =>
            ∃ spec new_spec new_dep,
              graphs !! h = Some spec
              ∧ upgraded dep_name spec = Ok new_spec
              ∧ Spec_getitem dep_name new_spec = Ok new_dep
              ∧ head deps2 = Some new_dep
        end
      ∧ concretized_order self' = concretized_order self.
Proof.
  intros Hkey Hall. induction Hall as [|h l Hh _ IH]; intros no nd self Hinv.
  - exists [], [], self, []. rewrite for_fold_nil, !app_nil_r.
    split_and!; done.
  - unfold upgradable in Hh.
    destruct (graphs !! h) as [spec|] eqn:Hg; [|done].
    pose proof (Hinv _ _ Hg) as Hself.
    destruct (Spec_contains dep_name spec) eqn:Hc.
    + destruct Hh as (new_spec & new_dep & Hup & Hdep).
      destruct (upgrade_step_affected dep_name h spec new_spec new_dep no nd
                  self Hself Hc Hup Hdep) as [evs1 Hstep].
      destruct (IH (no ++ [Spec_dag_hash new_spec]) (nd ++ [new_dep])
                   (store_graph new_spec self))
        as (order2 & deps2 & self' & evs & Hrun & Hlen & Hkeep & Hfirst & Hco).
      { intros h' spec' Hg'. simpl.
        destruct (decide (Spec_dag_hash new_spec = h')) as [Heq|Hne].
        - pose proof (Hkey _ _ _ Hg' Heq) as Hsame. subst h' new_spec.
          apply lookup_insert_eq.
        - rewrite lookup_insert_ne by done. by apply Hinv. }
      exists (Spec_dag_hash new_spec :: order2), (new_dep :: deps2), self',
             (evs1 ++ evs).
      rewrite for_fold_cons, Hstep, Hrun, <- !app_assoc. simpl.
      split_and!; [done|by rewrite Hlen| | |done].
      * intros [|i] h' spec' Hi Hg' Hc'; simpl in *; [|by eapply Hkeep].
        injection Hi as <-. rewrite Hg in Hg'. injection Hg' as <-. congruence.
      * rewrite decide_True; [|by unfold affected; rewrite Hg, Hc].
        by exists spec, new_spec, new_dep.
    + destruct (IH (no ++ [h]) nd self Hinv)
        as (order2 & deps2 & self' & evs & Hrun & Hlen & Hkeep & Hfirst & Hco).
      exists (h :: order2), deps2, self', evs.
      rewrite for_fold_cons, (upgrade_step_unaffected _ _ spec) by done.
      rewrite Hrun, <- !app_assoc. simpl.
      split_and!; [done|by rewrite Hlen| | |done].
      * intros [|i] h' spec' Hi Hg' Hc'; simpl in *; [|by eapply Hkeep].
        by injection Hi as <-.
      * rewrite decide_False; [|unfold affected; rewrite Hg, Hc; by intros []].
        destruct (list_find _ l) as [[k h']|]; simpl; done.
Qed.

(** C6. [upgrade_dependency(dep_name)] without [dry_run], on a context
    whose roots are all stored and can be upgraded by the resolver:
    the new [concretized_order] has the length of the old one, every
    root without a [dep_name] node keeps its hash at its position, and
    the call returns the [dep_name] node of the upgrade of the first
    root that contains one, or [None] when no root does. *)
Theorem upgrade_dependency_roots (dep_name : string) (self : Context) :
  hash_identifies (specs_by_hash self) →
  Forall (upgradable dep_name (specs_by_hash self)) (concretized_order self) →
  ∃ result self' evs,
    upgrade_dependency dep_name false self = (Ok result, self', evs)
    ∧ length (concretized_order self') = length (concretized_order self)
    ∧ (∀ i h spec,
         concretized_order self !! i = Some h →
         specs_by_hash self !! h = Some spec →
         Spec_contains dep_name spec = false →
         concretized_order self' !! i = Some h)
    ∧ match list_find (λ h, affected dep_name (specs_by_hash self) h)
                      (concretized_order self) with
      | None => result = None
      | Some (_, h) =>
          ∃ spec new_spec new_dep,
            specs_by_hash self !! h = Some spec
            ∧ upgraded dep_name spec = Ok new_spec
            ∧ Spec_getitem dep_name new_spec = Ok new_dep
            ∧ result = Some new_dep
      end.
Proof.
  intros Hkey Hall.
  destruct (upgrade_loop dep_name (specs_by_hash self) (concretized_order self)
              Hkey Hall [] [] self)
    as (order2 & deps2 & self' & evs & Hrun & Hlen & Hkeep & Hfirst & Hco);
    [done|].
  exists (head deps2), (set_concretized_order order2 self'), evs.
  split.
  { unfold upgrade_dependency. rewrite bind_eq. unfold get at 1.
    rewrite bind_eq, Hrun. unfold_m. simpl. by rewrite app_nil_r. }
  simpl. split_and!; [done..|].
  destruct (list_find _ _) as [[k h]|]; [|by rewrite Hfirst].
  destruct Hfirst as (spec & new_spec & new_dep & ? & ? & ? & ?).
  by exists spec, new_spec, new_dep.
Qed.

(** ** The environment of a context: [_get_environment_specs] *)

Lemma first_named_app (n : string) (xs ys : list Spec) :
  first_named n (xs ++ ys) =
    match first_named n xs with
    | Some dep => Some dep
    | None => first_named n ys
    end.
Proof.
  induction xs as [|x xs IH]; simpl; [done|]. by case_decide.
Qed.

Lemma first_named_None (n : string) (xs : list Spec) :
  first_named n xs = None ↔ n ∉ Spec_name <$> xs.
Proof.
  induction xs as [|x xs IH]; simpl.
  - split; [intros _; apply not_elem_of_nil|done].
  - rewrite not_elem_of_cons. case_decide as Hx.
    + split; [done|]. intros [? _]. congruence.
    + rewrite IH. split; [intros ?; split; [congruence|done]|by intros [_ ?]].
Qed.

Lemma first_named_unique (dep : Spec) (xs : list Spec) :
  NoDup (Spec_name <$> xs) → dep ∈ xs →
  first_named (Spec_name dep) xs = Some dep.
Proof.
  induction xs as [|x xs IH]; simpl; intros Hnd Hin.
  - by apply elem_of_nil in Hin.
  - apply NoDup_cons in Hnd as [Hx Hnd].
    apply elem_of_cons in Hin as [->|Hin]; [by rewrite decide_True|].
    rewrite decide_False; [by apply IH|].
    intros Heq. apply Hx. rewrite Heq. by apply list_elem_of_fmap_2.
Qed.

Lemma conflicts_app (seen xs ys : list Spec) :
  conflicts seen (xs ++ ys) = conflicts seen xs ++ conflicts (seen ++ xs) ys.
Proof.
  revert seen. induction xs as [|x xs IH]; intros seen; simpl.
  - by rewrite app_nil_r.
  - rewrite IH, <- app_assoc. simpl. by destruct (first_named _ seen).
Qed.

Lemma conflicts_fresh (seen xs : list Spec) :
  NoDup (Spec_name <$> xs) →
  (∀ x, x ∈ xs → first_named (Spec_name x) seen = None) →
  conflicts seen xs = [].
Proof.
  revert seen. induction xs as [|x xs IH]; intros seen Hnd Hfresh; simpl; [done|].
  apply NoDup_cons in Hnd as [Hx Hnd].
  rewrite (Hfresh x) by apply list_elem_of_here.
  apply IH; [done|]. intros y Hy.
  rewrite first_named_app, (Hfresh y) by by apply list_elem_of_further.
  simpl. rewrite decide_False; [done|].
  intros Heq. apply Hx. rewrite Heq. by apply list_elem_of_fmap_2.
Qed.

Lemma environment_step_eq {S} (package_to_spec : gmap string Spec) (dep : Spec)
    (s : S) :
  environment_step package_to_spec dep s =
    match package_to_spec !! Spec_name dep with
    | Some chosen => (Ok package_to_spec, s, [priority_warning chosen dep])
    | None => (Ok (<[Spec_name dep := dep]> package_to_spec), s, [])
    end.
Proof. unfold environment_step. by destruct (_ !! _). Qed.

Lemma environment_loop {S} (nodes : list Spec) :
  ∀ (seen : list Spec) (package_to_spec : gmap string Spec) (s : S),
    (∀ n, package_to_spec !! n = first_named n seen) →
    ∃ m, for_fold nodes package_to_spec environment_step s =
           (Ok m, s, conflicts seen nodes)
         ∧ ∀ n, m !! n = first_named n (seen ++ nodes).
Proof.
  induction nodes as [|dep nodes IH]; intros seen p2s s Hinv.
  - exists p2s. rewrite for_fold_nil, app_nil_r. done.
  - rewrite for_fold_cons, environment_step_eq, Hinv. simpl.
    destruct (first_named (Spec_name dep) seen) as [chosen|] eqn:Hseen.
    + destruct (IH (seen ++ [dep]) p2s s) as (m & -> & Hm).
      { intros n. rewrite first_named_app, Hinv.
        destruct (first_named n seen) eqn:Hn; [done|]. simpl.
        case_decide; congruence. }
      exists m. split; [done|]. intros n. by rewrite Hm, <- app_assoc.
    + destruct (IH (seen ++ [dep]) (<[Spec_name dep := dep]> p2s) s)
        as (m & -> & Hm).
      { intros n. rewrite first_named_app. simpl.
        destruct (decide (Spec_name dep = n)) as [<-|Hne].
        - by rewrite lookup_insert_eq, Hseen.
        - rewrite lookup_insert_ne, Hinv by done.
          by destruct (first_named n seen). }
      exists m. split; [done|]. intros n. by rewrite Hm, <- app_assoc.
Qed.

Lemma contributions_of_cons (graphs : gmap string Spec) (h : string)
    (hashes : list string) (spec : Spec) :
  graphs !! h = Some spec →
  contributions_of graphs (h :: hashes) =
    Spec_traverse ["link"; "run"] spec ++ contributions_of graphs hashes.
Proof. intros H. unfold contributions_of, roots_of. simpl. by rewrite H. Qed.

Lemma environment_roots (self : Context) (hashes : list string) :
  Forall (λ h, is_Some (specs_by_hash self !! h)) hashes →
  ∀ (seen : list Spec) (package_to_spec : gmap string Spec) (s : Context),
    (∀ n, package_to_spec !! n = first_named n seen) →
    ∃ m, for_fold hashes package_to_spec (environment_root self) s =
           (Ok m, s, conflicts seen (contributions_of (specs_by_hash self) hashes))
         ∧ ∀ n, m !! n =
                first_named n (seen ++ contributions_of (specs_by_hash self) hashes).
Proof.
  intros Hall. induction Hall as [|h hashes [spec Hh] _ IH]; intros seen p2s s Hinv.
  - exists p2s. rewrite for_fold_nil. unfold contributions_of. simpl.
    by rewrite app_nil_r.
  - rewrite (contributions_of_cons _ _ _ spec) by done.
    destruct (environment_loop (Spec_traverse ["link"; "run"] spec) seen p2s s Hinv)
      as (m1 & Hinner & Hm1).
    destruct (IH (seen ++ Spec_traverse ["link"; "run"] spec) m1 s Hm1)
      as (m & Hrest & Hm).
    exists m. split.
    + rewrite for_fold_cons. unfold environment_root at 1, dict_getitem.
      rewrite bind_eq. unfold lift_res at 1. rewrite Hh, Hinner, Hrest. simpl.
      by rewrite conflicts_app.
    + intros n. by rewrite Hm, <- app_assoc.
Qed.

(** C4, as the code has it.  When every hash of [concretized_order] is
    stored, the dict built by [_get_environment_specs], whose values it
    returns, maps each package name to the first node of that name among
    the link/run traversals of the roots, taken in [concretized_order]:
    the earliest root wins.  A
    warning is emitted for every later node whose name is already taken,
    the same resolution or another one, and it names the node kept and
    the node dropped.  So for two roots whose traversals have one package
    name in common and no other, exactly one warning is emitted. *)
Theorem environment_first_writer_wins (self : Context) :
  graphs_stored self →
  ∃ m,
    package_to_spec self = (Ok m, self, conflicts [] (contributions self))
    ∧ _get_environment_specs self =
        (Ok (map_to_list m).*2, self, conflicts [] (contributions self))
    ∧ (∀ n, m !! n = first_named n (contributions self))
    ∧ (∀ h1 h2 root1 root2 n dep1 dep2,
         concretized_order self = [h1; h2] →
         specs_by_hash self !! h1 = Some root1 →
         specs_by_hash self !! h2 = Some root2 →
         let nodes1 := Spec_traverse ["link"; "run"] root1 in
         let nodes2 := Spec_traverse ["link"; "run"] root2 in
         NoDup (Spec_name <$> nodes1) → NoDup (Spec_name <$> nodes2) →
         dep1 ∈ nodes1 → dep2 ∈ nodes2 →
         Spec_name dep1 = n → Spec_name dep2 = n →
         (∀ x y, x ∈ nodes1 → y ∈ nodes2 →
                 Spec_name x = Spec_name y → Spec_name x = n) →
         m !! n = Some dep1
         ∧ conflicts [] (contributions self) = [priority_warning dep1 dep2]).
Proof.
  intros Hall.
  destruct (environment_roots self (concretized_order self) Hall [] ∅ self)
    as (m & Hrun & Hm); [done|].
  assert (package_to_spec self
          = (Ok m, self, conflicts [] (contributions self))) as Hdict.
  { unfold package_to_spec. rewrite bind_eq. unfold get at 1. by rewrite Hrun. }
  exists m. split_and!.
  - done.
  - unfold _get_environment_specs. rewrite bind_eq, Hdict. simpl.
    by rewrite app_nil_r.
  - done.
  - intros h1 h2 root1 root2 n dep1 dep2 Hco H1 H2 nodes1 nodes2
      Hnd1 Hnd2 Hin1 Hin2 Hn1 Hn2 Hcommon.
    assert (contributions self = nodes1 ++ nodes2) as Hc.
    { unfold contributions. rewrite Hco.
      rewrite (contributions_of_cons _ _ _ root1), (contributions_of_cons _ _ _ root2)
        by done.
      unfold contributions_of. simpl. by rewrite app_nil_r. }
    assert (first_named n nodes1 = Some dep1) as Hfirst.
    { rewrite <- Hn1. by apply first_named_unique. }
    split.
    { rewrite Hm. fold (contributions self). rewrite Hc. simpl.
      by rewrite first_named_app, Hfirst. }
    rewrite Hc, conflicts_app. simpl.
    rewrite (conflicts_fresh [] nodes1) by done. simpl.
    apply list_elem_of_split in Hin2 as (before & after & Hsplit).
    rewrite Hsplit in Hnd2. rewrite fmap_app, fmap_cons in Hnd2.
    apply NoDup_app in Hnd2 as (Hnd_b & Hdisj & Hnd_a).
    apply NoDup_cons in Hnd_a as [Hdep2 Hnd_a].
    assert (∀ y, y ∈ nodes2 → Spec_name y ≠ n →
                 first_named (Spec_name y) nodes1 = None) as Hnew.
    { intros y Hy Hne. apply first_named_None. intros Hin.
      apply list_elem_of_fmap in Hin as (x & Heq & Hx).
      apply Hne. rewrite Heq. by apply (Hcommon x y). }
    rewrite Hsplit, conflicts_app. simpl.
    rewrite (conflicts_fresh nodes1 before); [|done|]; simpl.
    + rewrite first_named_app, Hn2, Hfirst.
      rewrite conflicts_fresh; [done|done|].
      intros y Hy. rewrite !first_named_app. simpl.
      assert (Spec_name y ≠ n) as Hne.
      { intros Heq. apply Hdep2. rewrite Hn2, <- Heq.
        by apply list_elem_of_fmap_2. }
      rewrite Hnew; [|rewrite Hsplit; set_solver|done].
      rewrite decide_False by congruence.
      destruct (first_named (Spec_name y) before) eqn:Hb; [|done].
      exfalso. assert (first_named (Spec_name y) before ≠ None) as Hb' by congruence.
      rewrite first_named_None in Hb'. apply dec_stable in Hb'.
      apply (Hdisj (Spec_name y)); [done|].
      apply list_elem_of_further. by apply list_elem_of_fmap_2.
    + intros y Hy. apply Hnew; [rewrite Hsplit; set_solver|].
      intros Heq. apply (Hdisj n); [|rewrite Hn2; apply list_elem_of_here].
      rewrite <- Heq. by apply list_elem_of_fmap_2.
Qed.

End Properties.

(** * Further properties of the module *)

Section Coverage.
Context `{API : SpackAPI} {CMD : SpackCommands}.

(** ** Requests *)

Lemma add_outcome_new (user_spec : string) (self : Context) :
  (add user_spec self).1.2 = self
  ∨ (¬ Exists (same_name user_spec) (user_specs self)
     ∧ (add user_spec self).1.2
       = set_user_specs (user_specs self ++ [user_spec]) self).
Proof.
  unfold add. unfold_m. case_decide as Hex; simpl; [by left|right].
  split; [|done]. intros H. apply existing_nonempty in H. by apply H.
Qed.

Lemma unique_names_step (op : Op) (self : Context) :
  NoDup (request_names self) → NoDup (request_names (run_op op self)).
Proof.
  unfold request_names. intros Hnd. destruct op as [user_spec|query|]; simpl.
  - destruct (add_outcome_new user_spec self) as [->|[Hnew ->]]; [done|].
    simpl. rewrite fmap_app. apply NoDup_app. split_and!; [done| |].
    + intros n Hn [->|[]%elem_of_nil]%elem_of_cons.
      apply Hnew, Exists_exists.
      apply list_elem_of_fmap in Hn as (x & Hx & Hin). by exists x.
    + apply NoDup_singleton.
  - destruct (remove_outcome query self) as [->|(k & _ & -> & _)]; [done|].
    rewrite list_fmap_delete. eapply sublist_NoDup; [done|apply sublist_delete].
  - by destruct (concretize_outcome self) as (specs & _ & _ & -> & _).
Qed.

(** X1. The requests of a context name pairwise different packages, after
    every sequence of [add], [remove] and [concretize] on a new context. *)
Theorem unique_names_run_ops (ops : list Op) (context_name : string) :
  NoDup (request_names (run_ops ops (Context_init context_name))).
Proof.
  assert (∀ self, NoDup (request_names self) →
                  NoDup (request_names (run_ops ops self))) as Hall.
  { induction ops as [|op ops IH]; intros self Hself; [done|].
    simpl. by apply IH, unique_names_step. }
  apply Hall. constructor.
Qed.

(** The search loop of [remove] stops at the first request of that name. *)
Lemma match_loop_first (query_name x : string) (before after : list string)
    (i : Z) :
  Forall (λ y, Spec_name (Spec_parse y) ≠ query_name) before →
  Spec_name (Spec_parse x) = query_name →
  match_loop query_name i (before ++ x :: after) = i + Z.of_nat (length before).
Proof.
  intros Hb Hx. revert i. induction Hb as [|y before Hy _ IH]; intros i; simpl.
  - rewrite decide_True by done. lia.
  - rewrite decide_False by done. rewrite IH. lia.
Qed.

Lemma remove_found (query x : string) (before after : list string)
    (self : Context) :
  user_specs self = before ++ x :: after →
  Forall (λ y, ¬ same_name query y) before →
  same_name query x →
  let k := length before in
  let removed := set_user_specs (before ++ after) self in
  remove query self =
    match concretized_order self !! k with
    | None => (Ok (), removed, [])
    | Some h =>
        let unresolved :=
          set_concretized_order (delete k (concretized_order self)) removed in
        match specs_by_hash self !! h with
        | Some _ =>
            (Ok (), set_specs_by_hash (delete h (specs_by_hash self)) unresolved, [])
        | None => (Raise (KeyError h), unresolved, [])
        end
    end.
Proof.
  intros Hus Hb Hx k removed. subst k removed.
  unfold remove, list_del, dict_del. unfold_m. simpl.
  rewrite Hus, (match_loop_first _ x) by done.
  rewrite decide_False by lia.
  replace (Z.to_nat (0 + Z.of_nat (length before))) with (length before) by lia.
  destruct (decide (length before < length (before ++ x :: after))%nat) as [_|Hk].
  2:{ rewrite length_app in Hk. simpl in Hk. lia. }
  simpl. rewrite delete_middle.
  destruct (concretized_order self !! length before) as [h|] eqn:Hh.
  - pose proof (lookup_lt_Some _ _ _ Hh) as Hlt.
    rewrite decide_True by lia. simpl.
    destruct (decide (length before < length (concretized_order self))%nat);
      [|lia].
    simpl. by destruct (specs_by_hash self !! h).
  - apply lookup_ge_None in Hh. by rewrite decide_False by lia.
Qed.

(** X4. [remove(query)] deletes the first request of that package and
    leaves the others in their order.  When that request is resolved, its
    hash and its graph go too; when the graph is not stored, [remove]
    raises [KeyError] with the request and the hash already deleted. *)
Theorem remove_deletes_first_match (query x : string)
    (before after : list string) (self : Context) :
  user_specs self = before ++ x :: after →
  Forall (λ y, ¬ same_name query y) before →
  same_name query x →
  let k := length before in
  let removed := set_user_specs (before ++ after) self in
  let unresolved :=
    set_concretized_order (delete k (concretized_order self)) removed in
  ((length (concretized_order self) ≤ k)%nat →
   remove query self = (Ok (), removed, []))
  ∧ (∀ h spec,
       concretized_order self !! k = Some h →
       specs_by_hash self !! h = Some spec →
       remove query self =
         (Ok (), set_specs_by_hash (delete h (specs_by_hash self)) unresolved, []))
  ∧ (∀ h,
       concretized_order self !! k = Some h →
       specs_by_hash self !! h = None →
       remove query self = (Raise (KeyError h), unresolved, [])).
Proof.
  intros Hus Hb Hx k removed unresolved.
  pose proof (remove_found query x before after self Hus Hb Hx) as Heq.
  simpl in Heq. fold k removed unresolved in Heq. split_and!.
  - intros Hk. apply lookup_ge_None in Hk. by rewrite Heq, Hk.
  - intros h spec Hh Hs. by rewrite Heq, Hh, Hs.
  - intros h Hh Hs. by rewrite Heq, Hh, Hs.
Qed.

(** X5. [add(r)] and then [remove(r)], on a context that has no request
    for that package and no more resolutions than requests, give the
    context back as it was. *)
Theorem add_then_remove_restores (user_spec : string) (self : Context) :
  ¬ Exists (same_name user_spec) (user_specs self) →
  (length (concretized_order self) ≤ length (user_specs self))%nat →
  (add user_spec ;; remove user_spec) self = (Ok (), self, []).
Proof.
  intros Hnew Hlen. rewrite bind_eq.
  assert (add user_spec self
          = (Ok (), set_user_specs (user_specs self ++ [user_spec]) self, []))
    as ->.
  { unfold add. unfold_m. rewrite decide_False; [done|].
    intros H. by apply Hnew, existing_nonempty. }
  rewrite (remove_found user_spec user_spec (user_specs self) []); [|done| |done].
  2:{ by apply Forall_Exists_neg. }
  simpl. rewrite (proj2 (lookup_ge_None _ _)) by done.
  rewrite app_nil_r. by destruct self.
Qed.

(** ** Incremental resolution *)

Lemma concretize_loop_failure (done_ : list string) :
  ∀ (specs acc : list Spec) (r : string) (rest : list string) (e : Error)
    (self : Context),
    Forall2 resolves_to done_ specs →
    Spec_concretize (Spec_parse r) = Raise e →
    for_fold (done_ ++ r :: rest) acc concretize_step self =
      (Raise e,
       set_concretized_order
         (concretized_order self ++ (Spec_dag_hash <$> specs))
         (set_specs_by_hash (store_all specs (specs_by_hash self)) self),
       concretize_event <$> (done_ ++ [r])).
Proof.
  induction done_ as [|x done_ IH]; intros specs acc r rest e self Hall Hr.
  - apply Forall2_nil_inv_l in Hall as ->. simpl app.
    rewrite for_fold_cons, concretize_step_eq, Hr. simpl.
    rewrite app_nil_r. by destruct self.
  - apply Forall2_cons_inv_l in Hall as (spec & specs' & Hx & Hall & ->).
    simpl app. rewrite for_fold_cons, concretize_step_eq, Hx.
    rewrite (IH specs' _ r rest e) by done. simpl.
    unfold set_concretized_order, set_specs_by_hash. simpl.
    by rewrite <- app_assoc.
Qed.

(** X6. When the resolver fails on a pending request, [concretize] raises
    that error and keeps what it resolved before: the hashes and graphs
    of the pending requests in front of the failing one are stored, the
    requests behind it were not tried. *)
Theorem concretize_failure_keeps_progress (self : Context)
    (done_ rest : list string) (specs : list Spec) (r : string) (e : Error) :
  drop (length (concretized_order self)) (user_specs self)
    = done_ ++ r :: rest →
  Forall2 resolves_to done_ specs →
  Spec_concretize (Spec_parse r) = Raise e →
  concretize self =
    (Raise e,
     set_concretized_order
       (concretized_order self ++ (Spec_dag_hash <$> specs))
       (set_specs_by_hash (store_all specs (specs_by_hash self)) self),
     concretize_event <$> (done_ ++ [r])).
Proof.
  intros Hpending Hall Hr. unfold concretize. rewrite bind_eq. unfold get at 1.
  rewrite Hpending, (concretize_loop_failure done_ specs [] r rest e) by done.
  by rewrite app_nil_l.
Qed.

(** ** [to_dict] and [from_dict] *)

(** X8. [from_dict(name, to_dict())] restores the name, the requests, the
    hashes and both pin tables, and has no graph: it is the context
    itself exactly when the context stores no graph. *)
Theorem from_dict_to_dict (self : Context) :
  from_dict (name self) (to_dict self) = set_specs_by_hash ∅ self
  ∧ (from_dict (name self) (to_dict self) = self ↔ specs_by_hash self = ∅).
Proof.
  destruct self as [n us co sbh cl cb].
  unfold from_dict, to_dict, set_specs_by_hash. simpl.
  split; [done|]. split; [by intros [= <-]|by intros ->].
Qed.

(** ** Targeted upgrade: the dry run, and what any run keeps *)

Lemma upgrade_step_dry_run (dep_name h : string)
    (locals : list string * list Spec) (self : Context) :
  ∃ r ev, upgrade_step dep_name true locals h self = (r, self, ev)
          ∧ Forall is_msg ev.
Proof.
  destruct locals as [no nd].
  unfold upgrade_step, dict_getitem. unfold_m. simpl.
  destruct (specs_by_hash self !! h) as [spec|]; simpl; [|by eauto].
  destruct (Spec_contains dep_name spec); simpl; [|by eauto].
  destruct (Spec_getitem dep_name spec); simpl; [|by eauto].
  do 2 eexists. split; [done|]. constructor; [by eexists|done].
Qed.

Lemma upgrade_loop_dry_run (dep_name : string) (l : list string) :
  ∀ locals self r self' evs,
    for_fold l locals (upgrade_step dep_name true) self = (r, self', evs) →
    self' = self ∧ Forall is_msg evs.
Proof.
  induction l as [|h l IH]; intros locals self r self' evs.
  - rewrite for_fold_nil. by intros [= <- <- <-].
  - rewrite for_fold_cons.
    destruct (upgrade_step_dry_run dep_name h locals self)
      as (r1 & ev1 & -> & Hev1).
    destruct r1 as [locals1|e]; [|by intros [= <- <- <-]].
    destruct (for_fold l _ _ _) as [[r2 s2] ev2] eqn:Hrest.
    intros [= <- <- <-]. apply IH in Hrest as (-> & Hev2).
    split; [done|]. by apply Forall_app.
Qed.

Lemma upgrade_dry_run_outcome (dep_name : string) (self : Context) :
  ∃ r evs,
    upgrade_dependency dep_name true self = (r, self, evs)
    ∧ (r = Ok None ∨ ∃ e, r = Raise e)
    ∧ Forall is_msg evs.
Proof.
  unfold upgrade_dependency. rewrite bind_eq. unfold get at 1. rewrite bind_eq.
  destruct (for_fold _ _ _ _) as [[r s1] ev] eqn:Hloop.
  apply upgrade_loop_dry_run in Hloop as (-> & Hev).
  destruct r as [[no nd]|e]; simpl.
  - exists (Ok None), (ev ++ []). rewrite app_nil_r. split_and!; eauto.
  - exists (Raise e), ev. split_and!; eauto.
Qed.

(** X9. A dry run of [upgrade_dependency] leaves the context as it is,
    never calls the resolver (all it emits are messages) and returns
    [None] unless it raises. *)
Theorem upgrade_dependency_dry_run (dep_name : string) (self : Context) :
  ∃ r evs,
    upgrade_dependency dep_name true self = (r, self, evs)
    ∧ (r = Ok None ∨ ∃ e, r = Raise e)
    ∧ Forall is_msg evs.
Proof. apply upgrade_dry_run_outcome. Qed.

Lemma upgrade_step_outcome (dep_name h : string) (no : list string)
    (nd : list Spec) (self : Context) r self' evs :
  upgrade_step dep_name false (no, nd) h self = (r, self', evs) →
  user_specs self' = user_specs self
  ∧ concretized_order self' = concretized_order self
  ∧ keys_kept self self'
  ∧ ∀ no' nd', r = Ok (no', nd') →
      ∃ h', no' = no ++ [h'] ∧ is_Some (specs_by_hash self' !! h').
Proof.
  assert (keys_kept self self) as Hrefl by (by intros ?).
  unfold upgrade_step, dict_getitem, upgrade_dependency_version, concretize_spec.
  unfold_m. simpl.
  destruct (specs_by_hash self !! h) as [spec|] eqn:Hh; simpl.
  2:{ intros [= <- <- <-]. by split_and!. }
  destruct (Spec_contains dep_name spec); simpl.
  2:{ intros [= <- <- <-]. split_and!; [done..|].
      intros no' nd' [= <- <-]. exists h. by rewrite Hh. }
  destruct (Spec_set_versions_any dep_name (Spec_clear_concrete spec))
    as [relaxed|]; simpl.
  2:{ intros [= <- <- <-]. by split_and!. }
  destruct (Spec_concretize relaxed) as [new_spec|]; simpl.
  2:{ intros [= <- <- <-]. by split_and!. }
  assert (keys_kept self (set_specs_by_hash
            (<[Spec_dag_hash new_spec := new_spec]> (specs_by_hash self)) self))
    as Hkept.
  { intros h' Hh'. simpl.
    destruct (decide (Spec_dag_hash new_spec = h')) as [<-|Hne].
    - rewrite lookup_insert_eq. eauto.
    - by rewrite lookup_insert_ne. }
  destruct (Spec_getitem dep_name new_spec) as [new_dep|]; simpl.
  2:{ intros [= <- <- <-]. by split_and!. }
  intros [= <- <- <-]. split_and!; [done..|].
  intros no' nd' [= <- <-]. exists (Spec_dag_hash new_spec).
  simpl. rewrite lookup_insert_eq. eauto.
Qed.

Lemma upgrade_loop_outcome (dep_name : string) (l : list string) :
  ∀ no nd self r self' evs,
    for_fold l (no, nd) (upgrade_step dep_name false) self = (r, self', evs) →
    user_specs self' = user_specs self
    ∧ concretized_order self' = concretized_order self
    ∧ keys_kept self self'
    ∧ ∀ no' nd', r = Ok (no', nd') →
        ∃ extra, no' = no ++ extra ∧ length extra = length l
                 ∧ Forall (λ h, is_Some (specs_by_hash self' !! h)) extra.
Proof.
  induction l as [|h l IH]; intros no nd self r self' evs.
  - rewrite for_fold_nil. intros [= <- <- <-]. split_and!; [done..|by intros ?|].
    intros no' nd' [= <- <-]. exists []. by rewrite app_nil_r.
  - rewrite for_fold_cons.
    destruct (upgrade_step _ _ _ _ _) as [[r1 s1] ev1] eqn:Hstep.
    apply upgrade_step_outcome in Hstep as (Hus1 & Hco1 & Hk1 & Hok1).
    destruct r1 as [[no1 nd1]|e].
    + destruct (Hok1 no1 nd1 eq_refl) as (h' & -> & Hh').
      destruct (for_fold l _ _ _) as [[r2 s2] ev2] eqn:Hrest.
      intros [= <- <- <-].
      apply IH in Hrest as (Hus2 & Hco2 & Hk2 & Hok2).
      split_and!; [congruence|congruence|by intros ? ?%Hk1%Hk2|].
      intros no' nd' Hr. destruct (Hok2 no' nd' Hr) as (extra & -> & Hlen & Hall).
      exists (h' :: extra). rewrite <- app_assoc. simpl.
      split_and!; [done|by rewrite Hlen|]. constructor; [by apply Hk2|done].
    + intros [= <- <- <-]. by split_and!.
Qed.

(** X10. Whatever [upgrade_dependency(dep_name)] does without [dry_run], it
    leaves the requests alone and deletes no graph.  When it returns,
    [concretized_order] has its old length and every hash in it is
    stored; when it raises, [concretized_order] is as it was (graphs
    resolved on the way stay in [specs_by_hash]). *)
Theorem upgrade_dependency_keeps (dep_name : string) (self : Context) :
  let out := upgrade_dependency dep_name false self in
  user_specs out.1.2 = user_specs self
  ∧ keys_kept self out.1.2
  ∧ match out.1.1 with
    | Ok _ =>
        graphs_stored out.1.2
        ∧ length (concretized_order out.1.2) = length (concretized_order self)
    | Raise _ => concretized_order out.1.2 = concretized_order self
    end.
Proof.
  intros out. subst out.
  destruct (upgrade_dependency dep_name false self) as [[res s'] evs] eqn:Hrun.
  unfold upgrade_dependency in Hrun. rewrite bind_eq in Hrun.
  unfold get at 1 in Hrun. rewrite bind_eq in Hrun.
  destruct (for_fold _ _ _ _) as [[r s1] ev] eqn:Hloop.
  apply upgrade_loop_outcome in Hloop as (Hus & Hco & Hk & Hok).
  destruct r as [[no nd]|e]; simpl in Hrun; injection Hrun as <- <- <-; simpl;
    [|by split_and!].
  destruct (Hok no nd eq_refl) as (extra & -> & Hlen & Hall).
  by split_and!.
Qed.

(** ** Relocation: [reset_os_and_compiler] *)

Lemma store_all_dom (specs : list Spec) (m : gmap string Spec) :
  dom (store_all specs m) = dom m ∪ list_to_set (Spec_dag_hash <$> specs).
Proof.
  revert m. induction specs as [|spec specs IH]; intros m; simpl.
  - by rewrite (right_id_L ∅ (∪)).
  - rewrite IH, dom_insert_L.
    by rewrite (comm_L (∪) {[_]} (dom m)), <- (assoc_L (∪)).
Qed.

Lemma reset_loop (compiler : option string) (l : list string) :
  ∀ no nm self r self' evs,
    for_fold l (no, nm) (reset_step compiler) self = (r, self', evs) →
    self' = self
    ∧ ∀ no' nm', r = Ok (no', nm') →
        ∃ news, length news = length l
                ∧ no' = no ++ (Spec_dag_hash <$> news)
                ∧ nm' = store_all news nm.
Proof.
  induction l as [|h l IH]; intros no nm self r self' evs.
  - rewrite for_fold_nil. intros [= <- <- <-]. split; [done|].
    intros no' nm' [= <- <-]. exists []. by rewrite app_nil_r.
  - rewrite for_fold_cons.
    assert ((∃ e ev, reset_step compiler (no, nm) h self = (Raise e, self, ev))
            ∨ ∃ new_spec ev,
                reset_step compiler (no, nm) h self
                = (Ok (no ++ [Spec_dag_hash new_spec],
                       <[Spec_dag_hash new_spec := new_spec]> nm), self, ev))
      as Hstep.
    { unfold reset_step, dict_getitem, reset_os_and_compiler, concretize_spec.
      unfold_m. simpl.
      destruct (specs_by_hash self !! h) as [spec|]; simpl; [|eauto].
      destruct compiler as [c|]; [destruct (decide (c = ""))|]; simpl;
        try (destruct (Spec_set_compiler c (Spec_strip spec)); simpl; [|eauto]);
        match goal with
        | |- context [Spec_concretize ?x] =>
            destruct (Spec_concretize x); simpl; eauto
        end. }
    destruct Hstep as [(e & ev & ->)|(new_spec & ev & ->)].
    + intros [= <- <- <-]. done.
    + destruct (for_fold l _ _ _) as [[r2 s2] ev2] eqn:Hrest.
      intros [= <- <- <-]. apply IH in Hrest as (-> & Hok).
      split; [done|]. intros no' nm' Hr.
      destruct (Hok no' nm' Hr) as (news & Hlen & -> & ->).
      exists (new_spec :: news). simpl.
      split_and!; [by rewrite Hlen|by rewrite <- app_assoc|done].
Qed.

(** X11. [Context.reset_os_and_compiler] either raises and leaves the
    context exactly as it was, or returns with as many hashes as before,
    each stored, and with no graph but those of the new hashes: the
    graphs of the old resolutions are gone.  The requests stay. *)
Theorem reset_rebuilds_or_leaves (compiler : option string) (self : Context) :
  let out := Context_reset_os_and_compiler compiler self in
  (∃ e, out.1.1 = Raise e ∧ out.1.2 = self)
  ∨ (out.1.1 = Ok ()
     ∧ user_specs out.1.2 = user_specs self
     ∧ length (concretized_order out.1.2) = length (concretized_order self)
     ∧ graphs_stored out.1.2
     ∧ dom (specs_by_hash out.1.2) = list_to_set (concretized_order out.1.2)).
Proof.
  intros out. subst out.
  destruct (Context_reset_os_and_compiler compiler self)
    as [[res s'] evs] eqn:Hrun.
  unfold Context_reset_os_and_compiler in Hrun. rewrite bind_eq in Hrun.
  unfold get at 1 in Hrun. rewrite bind_eq in Hrun.
  destruct (for_fold _ _ _ _) as [[r s1] ev] eqn:Hloop.
  apply reset_loop in Hloop as (-> & Hok).
  destruct r as [[no nm]|e]; simpl in Hrun; injection Hrun as <- <- <-; simpl;
    [right|left; eauto].
  destruct (Hok no nm eq_refl) as (news & Hlen & -> & ->).
  unfold graphs_stored. simpl. rewrite length_fmap.
  split_and!; [done..| |].
  - apply Forall_fmap, Forall_forall. intros spec Hin.
    by apply store_all_stored.
  - by rewrite store_all_dom, dom_empty_L, (left_id_L ∅ (∪)).
Qed.

(** ** Persistence: a write that raises or is interrupted *)

(** What one update of the file system can have done when it ends. *)
Lemma fs_mkdirp_outcome (p : string) (w : World) r w1 ev :
  fs_mkdirp p w = (r, w1, ev) →
  (∃ e, r = Raise e ∧ dirs w1 = dirs w)
  ∨ (r = Ok ()
     ∧ dirs w1 = match dirs w !! p with
                 | Some _ => dirs w
                 | None => <[p := empty_dir]> (dirs w)
                 end).
Proof.
  unfold fs_mkdirp, syscall. unfold_m. destruct w as [ds [[|k]|]]; simpl;
    destruct (ds !! p); simpl; intros [= <- <- <-]; eauto 10.
Qed.

Lemma write_json_outcome (p : FilePath) data (w : World) r w1 ev :
  write_json p data w = (r, w1, ev) →
  (∃ e, r = Raise e ∧ dirs w1 = dirs w)
  ∨ (r = Ok ()
     ∧ ∃ d, dirs w !! p.1 = Some d
            ∧ dirs w1 = <[p.1 := mkDirectory (Some data) (d_context d) (d_repo d)]>
                          (dirs w)).
Proof.
  unfold write_json, syscall. unfold_m. destruct w as [ds [[|k]|]]; simpl;
    destruct (ds !! p.1) eqn:Hd; simpl; intros [= <- <- <-]; eauto 10.
Qed.

Lemma write_yaml_outcome (p : FilePath) data (w : World) r w1 ev :
  write_yaml p data w = (r, w1, ev) →
  (∃ e, r = Raise e ∧ dirs w1 = dirs w)
  ∨ (r = Ok ()
     ∧ ∃ d, dirs w !! p.1 = Some d
            ∧ dirs w1 = <[p.1 := mkDirectory (d_full_specs d) (Some data) (d_repo d)]>
                          (dirs w)).
Proof.
  unfold write_yaml, syscall. unfold_m. destruct w as [ds [[|k]|]]; simpl;
    destruct (ds !! p.1) eqn:Hd; simpl; intros [= <- <- <-]; eauto 10.
Qed.

Lemma shutil_copytree_outcome (src dst : FilePath) (w : World) r w1 ev :
  shutil_copytree src dst w = (r, w1, ev) →
  (∃ e, r = Raise e ∧ dirs w1 = dirs w)
  ∨ (r = Ok ()
     ∧ ∃ tree,
         dirs w !! src.1 ≫= d_repo = Some tree
         ∧ dirs w1 =
             <[dst.1 := match dirs w !! dst.1 with
                        | Some d => mkDirectory (d_full_specs d) (d_context d)
                                                (Some tree)
                        | None => mkDirectory None None (Some tree)
                        end]> (dirs w)).
Proof.
  unfold shutil_copytree, syscall. unfold_m. destruct w as [ds [[|k]|]]; simpl;
    (destruct (ds !! src.1) as [d0|] eqn:Hs; simpl;
     [destruct (d_repo d0) as [tree|] eqn:Hr; simpl|]);
    try (intros [= <- <- <-]; by eauto);
    (destruct (ds !! dst.1) as [d|] eqn:Hd; simpl;
     [destruct (d_repo d); simpl|]; intros [= <- <- <-]; eauto 10).
Qed.

Lemma shutil_move_outcome (src dst : string) (w : World) r w1 ev :
  shutil_move src dst w = (r, w1, ev) →
  (∃ e, r = Raise e ∧ dirs w1 = dirs w)
  ∨ (r = Ok ()
     ∧ ∃ d, dirs w !! src = Some d ∧ dirs w !! dst = None
            ∧ dirs w1 = <[dst := d]> (delete src (dirs w))).
Proof.
  unfold shutil_move, syscall. unfold_m. destruct w as [ds [[|k]|]]; simpl;
    destruct (ds !! src) eqn:Hs; simpl;
    try (intros [= <- <- <-]; by eauto);
    (destruct (ds !! dst) eqn:Hd; simpl; intros [= <- <- <-]; eauto 10).
Qed.

Lemma shutil_rmtree_outcome (p : string) (w : World) r w1 ev :
  shutil_rmtree p w = (r, w1, ev) →
  (∃ e, r = Raise e ∧ dirs w1 = dirs w)
  ∨ (r = Ok () ∧ dirs w1 = delete p (dirs w)).
Proof.
  unfold shutil_rmtree, syscall. unfold_m. destruct w as [ds [[|k]|]]; simpl;
    destruct (ds !! p) eqn:Hs; simpl; intros [= <- <- <-]; eauto 10.
Qed.

Lemma ends_in_bind {A B} (Q : gmap string Directory → Prop)
    (m : M World A) (f : A → M World B) (w : World) :
  (∀ r w1 ev, m w = (r, w1, ev) →
     match r with
     | Raise _ => Q (dirs w1)
     | Ok a => ends_in Q (f a w1)
     end) →
  ends_in Q ((m ≫= f) w).
Proof.
  intros H. rewrite bind_eq. destruct (m w) as [[r w1] ev1] eqn:Hm.
  specialize (H _ _ _ eq_refl). destruct r as [a|e]; [|done].
  unfold ends_in in *. by destruct (f a w1) as [[r2 w2] ev2].
Qed.

Lemma pass_eq {S} (s : S) : pass s = (Ok (), s, []).
Proof. reflexivity. Qed.

Lemma at_paths_start (n : string) (ds : gmap string Directory) :
  at_paths n ds ds (ds !! staging_path n) (ds !! committed_path n)
           (ds !! rollback_path n).
Proof. by repeat split. Qed.

Lemma at_paths_insert_staging (n : string) (ds s : gmap string Directory)
    (a b c : option Directory) (d : Directory) :
  at_paths n ds s a b c →
  at_paths n ds (<[staging_path n := d]> s) (Some d) b c.
Proof.
  pose proof (staging_ne_rollback n) as Hn1. pose proof (staging_ne_committed n) as Hn2.
  intros (H1 & H2 & H3 & H4). split_and!.
  - by rewrite lookup_insert_eq.
  - by rewrite lookup_insert_ne.
  - by rewrite lookup_insert_ne.
  - intros p ???. rewrite lookup_insert_ne by done. by apply H4.
Qed.

Lemma at_paths_set_aside (n : string) (ds s : gmap string Directory)
    (a b c : option Directory) (old : Directory) :
  at_paths n ds s a b c →
  at_paths n ds (<[rollback_path n := old]> (delete (committed_path n) s))
           a None (Some old).
Proof.
  pose proof (staging_ne_rollback n) as Hn1. pose proof (staging_ne_committed n) as Hn2.
  pose proof (rollback_ne_committed n) as Hn3.
  intros (H1 & H2 & H3 & H4). split_and!.
  - by rewrite lookup_insert_ne, lookup_delete_ne.
  - by rewrite lookup_insert_ne, lookup_delete_eq.
  - by rewrite lookup_insert_eq.
  - intros p ???. rewrite lookup_insert_ne, lookup_delete_ne by done.
    by apply H4.
Qed.

Lemma at_paths_commit (n : string) (ds s : gmap string Directory)
    (a b c : option Directory) (d : Directory) :
  at_paths n ds s a b c →
  at_paths n ds (<[committed_path n := d]> (delete (staging_path n) s))
           None (Some d) c.
Proof.
  pose proof (staging_ne_rollback n) as Hn1. pose proof (staging_ne_committed n) as Hn2.
  pose proof (rollback_ne_committed n) as Hn3.
  intros (H1 & H2 & H3 & H4). split_and!.
  - by rewrite lookup_insert_ne, lookup_delete_eq.
  - by rewrite lookup_insert_eq.
  - by rewrite lookup_insert_ne, lookup_delete_ne.
  - intros p ???. rewrite lookup_insert_ne, lookup_delete_ne by done.
    by apply H4.
Qed.

Lemma at_paths_drop_rollback (n : string) (ds s : gmap string Directory)
    (a b c : option Directory) :
  at_paths n ds s a b c →
  at_paths n ds (delete (rollback_path n) s) a b None.
Proof.
  pose proof (staging_ne_rollback n) as Hn1. pose proof (rollback_ne_committed n) as Hn3.
  intros (H1 & H2 & H3 & H4). split_and!.
  - by rewrite lookup_delete_ne.
  - by rewrite lookup_delete_ne.
  - by rewrite lookup_delete_eq.
  - intros p ???. rewrite lookup_delete_ne by done. by apply H4.
Qed.

Lemma write_outcome_untouched (context : Context) (ds : gmap string Directory) :
  write_outcome context ds ds.
Proof. do 3 eexists. split; [apply at_paths_start|by left]. Qed.

Lemma write_outcome_staging (context : Context) (ds s : gmap string Directory)
    (d : Directory) (b c : option Directory) :
  at_paths (name context) ds s (Some d) b c → write_outcome context ds s.
Proof. intros H. do 3 eexists. split; [exact H|]. right; left. eauto. Qed.

Lemma write_outcome_rollback (context : Context) (ds s : gmap string Directory)
    (d : Directory) (a b : option Directory) :
  at_paths (name context) ds s a b (Some d) → write_outcome context ds s.
Proof. intros H. do 3 eexists. split; [exact H|]. right; right; left. eauto. Qed.

Lemma write_outcome_committed (context : Context) (ds s : gmap string Directory)
    (d : Directory) :
  at_paths (name context) ds s None (Some d) None → holds context d →
  write_outcome context ds s.
Proof.
  intros H Hd. do 3 eexists. split; [exact H|]. right; right; right. eauto.
Qed.

(** Step 2 of the protocol, the copy of the snapshot: it fails and
    changes nothing, or it leaves the staging directory with the files
    it had. *)
Lemma copy_outcome (context : Context) (new_repo : option Repo) (dst : string)
    (w : World) r w1 ev :
  match new_repo with
  | Some new_repo => shutil_copytree (root new_repo) (dst, repo)
  | None =>
      have_repo ← os_path_exists_member (repo_path context);
      if (have_repo : bool) then shutil_copytree (repo_path context) (dst, repo)
      else pass
  end w = (r, w1, ev) →
  (∃ e, r = Raise e ∧ dirs w1 = dirs w)
  ∨ (r = Ok ()
     ∧ (dirs w1 = dirs w
        ∨ ∃ tree,
            dirs w1 =
              <[dst := match dirs w !! dst with
                       | Some d => mkDirectory (d_full_specs d) (d_context d)
                                               (Some tree)
                       | None => mkDirectory None None (Some tree)
                       end]> (dirs w))).
Proof.
  destruct new_repo as [new_repo|].
  - intros H. apply shutil_copytree_outcome in H.
    destruct H as [H|(-> & tree & _ & H)]; [by left|]. right. eauto.
  - rewrite bind_eq.
    assert (∃ b, os_path_exists_member (repo_path context) w = (Ok b, w, []))
      as [b ->] by (eexists; reflexivity).
    destruct b.
    + destruct (shutil_copytree _ _ w) as [[r2 w2] ev2] eqn:H.
      intros [= <- <- <-]. apply shutil_copytree_outcome in H.
      destruct H as [H|(-> & tree & _ & H)]; [by left|]. right. eauto.
    + rewrite pass_eq. intros [= <- <- <-]. right. eauto.
Qed.

Ltac pure_step lem :=
  apply ends_in_bind; intros ? ? ? Hpure; rewrite lem in Hpure;
  injection Hpure as <- <- <-; cbv beta iota.

(** Every way a [write] can end: the three paths are as they were, or a
    staging or a rollback directory exists, or the new state is committed
    and neither exists; no other path has changed. *)
Lemma write_states (context : Context) (new_repo : option Repo) (w : World) :
  ends_in (write_outcome context (dirs w)) (write context new_repo w).
Proof.
  set (n := name context).
  destruct (decide (exists_in w (staging_path n) ∨ exists_in w (rollback_path n)))
    as [Hp|Hc].
  { rewrite write_partial by done. apply write_outcome_untouched. }
  assert (dirs w !! staging_path n = None) as Hst.
  { destruct (dirs w !! staging_path n) eqn:E; [|done].
    destruct Hc. left. unfold exists_in. rewrite E. eauto. }
  assert (dirs w !! rollback_path n = None) as Hrb.
  { destruct (dirs w !! rollback_path n) eqn:E; [|done].
    destruct Hc. right. unfold exists_in. rewrite E. eauto. }
  pose proof (at_paths_start n (dirs w)) as HA. rewrite Hst, Hrb in HA.
  unfold write.
  pure_step @write_paths_context.
  pure_step os_path_exists_eq. pure_step os_path_exists_eq.
  fold n. rewrite guard_clean by done.
  (* step 1: the staging directory and the two files *)
  apply ends_in_bind. intros r w1 ev H1. apply fs_mkdirp_outcome in H1.
  rewrite Hst in H1. destruct H1 as [(e & -> & H1)|(-> & H1)].
  { rewrite H1. apply write_outcome_untouched. }
  apply (at_paths_insert_staging _ _ _ _ _ _ empty_dir) in HA.
  rewrite <- H1 in HA. clear H1.
  apply ends_in_bind. intros r w2 ev2 H2. unfold store_specs_by_hash in H2.
  apply write_json_outcome in H2. cbn [fst] in H2.
  destruct H2 as [(e & -> & H2)|(-> & d & Hd & H2)].
  { rewrite H2. by eapply write_outcome_staging. }
  apply (at_paths_insert_staging _ _ _ _ _ _
           (mkDirectory (Some (Spec_to_dict <$> specs_by_hash context))
                        (d_context d) (d_repo d))) in HA.
  fold n in H2. rewrite <- H2 in HA. clear H2 Hd w1.
  apply ends_in_bind. intros r w3 ev3 H3.
  apply write_yaml_outcome in H3. cbn [fst] in H3.
  destruct H3 as [(e & -> & H3)|(-> & d3 & Hd3 & H3)].
  { rewrite H3. by eapply write_outcome_staging. }
  fold n in Hd3, H3.
  assert (d_full_specs d3 = Some (Spec_to_dict <$> specs_by_hash context)) as Hfs.
  { destruct HA as (HA1 & _). rewrite HA1 in Hd3. by injection Hd3 as <-. }
  apply (at_paths_insert_staging _ _ _ _ _ _
           (mkDirectory (d_full_specs d3) (Some (to_dict context)) (d_repo d3)))
    in HA.
  rewrite <- H3 in HA. clear H3 Hd3 w2.
  (* step 2: the snapshot *)
  assert (∃ d4, at_paths n (dirs w) (dirs w3) (Some d4)
                         (dirs w !! committed_path n) None
                ∧ holds context d4) as (d4 & HA4 & Hholds).
  { eexists. split; [exact HA|]. by split. }
  clear HA Hfs d3 d.
  apply ends_in_bind. intros r w4 ev4 H4. apply copy_outcome in H4.
  destruct H4 as [(e & -> & H4)|(-> & H4)].
  { rewrite H4. by eapply write_outcome_staging. }
  assert (∃ d5, at_paths n (dirs w) (dirs w4) (Some d5)
                         (dirs w !! committed_path n) None
                ∧ holds context d5) as (d5 & HA5 & Hholds5).
  { destruct H4 as [H4|(tree & H4)].
    - rewrite H4. eauto.
    - fold n in H4. rewrite H4. pose proof HA4 as (HA4' & _).
      rewrite HA4'. eexists. split.
      + eapply at_paths_insert_staging, HA4.
      + done. }
  clear H4 HA4 Hholds d4 w3.
  (* steps 3 to 5 *)
  pure_step os_path_exists_eq.
  destruct (dirs w !! committed_path n) as [old|] eqn:Hcm.
  - assert (bool_decide (exists_in w4 (committed_path n)) = true) as ->.
    { apply bool_decide_eq_true_2. unfold exists_in.
      destruct HA5 as (_ & -> & _). eauto. }
    apply ends_in_bind. intros r w5 ev5 H5. apply shutil_move_outcome in H5.
    destruct H5 as [(e & -> & H5)|(-> & d & Hd & _ & H5)].
    { rewrite H5. by eapply write_outcome_staging. }
    apply (at_paths_set_aside _ _ _ _ _ _ d) in HA5. rewrite <- H5 in HA5.
    clear H5 Hd w4.
    apply ends_in_bind. intros r w6 ev6 H6. apply shutil_move_outcome in H6.
    destruct H6 as [(e & -> & H6)|(-> & d6 & Hd6 & _ & H6)].
    { rewrite H6. by eapply write_outcome_staging. }
    assert (d6 = d5) as ->.
    { destruct HA5 as (HA5' & _). rewrite HA5' in Hd6. by injection Hd6. }
    apply (at_paths_commit _ _ _ _ _ _ d5) in HA5. rewrite <- H6 in HA5.
    clear H6 Hd6 w5.
    pure_step os_path_exists_eq.
    assert (bool_decide (exists_in w6 (rollback_path n)) = true) as ->.
    { apply bool_decide_eq_true_2. unfold exists_in.
      destruct HA5 as (_ & _ & -> & _). eauto. }
    unfold ends_in.
    destruct (shutil_rmtree (rollback_path n) w6) as [[r w7] ev7] eqn:H7.
    apply shutil_rmtree_outcome in H7. simpl.
    destruct H7 as [(e & -> & H7)|(-> & H7)].
    { rewrite H7. by eapply write_outcome_rollback. }
    apply at_paths_drop_rollback in HA5. rewrite <- H7 in HA5.
    by eapply write_outcome_committed.
  - assert (bool_decide (exists_in w4 (committed_path n)) = false) as ->.
    { apply bool_decide_eq_false_2. unfold exists_in.
      destruct HA5 as (_ & -> & _). by intros [??]. }
    pure_step @pass_eq.
    apply ends_in_bind. intros r w6 ev6 H6. apply shutil_move_outcome in H6.
    destruct H6 as [(e & -> & H6)|(-> & d6 & Hd6 & _ & H6)].
    { rewrite H6. by eapply write_outcome_staging. }
    assert (d6 = d5) as ->.
    { destruct HA5 as (HA5' & _). rewrite HA5' in Hd6. by injection Hd6. }
    apply (at_paths_commit _ _ _ _ _ _ d5) in HA5. rewrite <- H6 in HA5.
    clear H6 Hd6 w4.
    pure_step os_path_exists_eq.
    assert (bool_decide (exists_in w6 (rollback_path n)) = false) as ->.
    { apply bool_decide_eq_false_2. unfold exists_in.
      destruct HA5 as (_ & _ & -> & _). by intros [??]. }
    unfold ends_in. rewrite pass_eq. simpl.
    by eapply write_outcome_committed.
Qed.

(** X15. A [write] for a name that is one path component changes no
    directory that exists when it starts, save those at and below the
    staging, the committed and the rollback path of its context, whatever
    it does and wherever it fails or is interrupted. *)
Theorem write_touches_only_its_paths (context : Context)
    (new_repo : option Repo) :
  is_component (name context) →
  isolated (name context) (write context new_repo).
Proof.
  intros _ w q _ Hq.
  destruct (write_states context new_repo w) as (a & b & c & HA & _).
  destruct HA as (_ & _ & _ & HA).
  apply HA; intros ->; apply Hq; [left|right; left|right; right]; by left.
Qed.

Lemma read_written (context : Context) (w : World) (d : Directory) :
  (∀ h spec, specs_by_hash context !! h = Some spec →
             Spec_from_dict (Spec_to_dict spec) = spec) →
  dirs w !! staging_path (name context) = None →
  dirs w !! rollback_path (name context) = None →
  dirs w !! committed_path (name context) = Some d →
  holds context d →
  read (name context) w = (Ok context, w, []).
Proof.
  intros Hser Hst Hrb Hcm [Hfs Hctx].
  rewrite read_clean by done. rewrite Hcm. simpl. rewrite Hctx, Hfs.
  assert (Spec_from_dict <$> (Spec_to_dict <$> specs_by_hash context)
          = specs_by_hash context) as ->.
  { apply map_eq. intros h. rewrite !lookup_fmap.
    destruct (specs_by_hash context !! h) as [spec|] eqn:Hh; simpl; [|done].
    f_equal. by apply (Hser h). }
  by destruct context.
Qed.

(** X16. A [write] is all or nothing for the process that reads next.
    Take any [write], ended normally, by an error or by an interruption
    after any number of file-system updates.  Then the file system is
    what it was before the call, or [read] refuses with the partial-write
    message, or [read] returns the context that was written.  The
    serializers are asked to restore what they wrote. *)
Theorem write_all_or_nothing_for_read (context : Context)
    (new_repo : option Repo) (w : World) :
  (∀ h spec, specs_by_hash context !! h = Some spec →
             Spec_from_dict (Spec_to_dict spec) = spec) →
  let w' := restarted (write context new_repo w).1.2 in
  dirs w' = dirs w
  ∨ read (name context) w' = (Raise (Die partial_write_msg), w', [])
  ∨ read (name context) w' = (Ok context, w', []).
Proof.
  intros Hser w'.
  destruct (write_states context new_repo w) as (a & b & c & HA & Hcase).
  destruct HA as (Ha & Hb & Hc & _).
  destruct Hcase as [H|[H|[H|(-> & -> & d & -> & Hd)]]].
  - by left.
  - right; left. apply read_partial. left. unfold exists_in. simpl.
    by rewrite Ha.
  - right; left. apply read_partial. right. unfold exists_in. simpl.
    by rewrite Hc.
  - right; right. by apply (read_written context w' d).
Qed.

(** A [write] that starts from a clean state and is not interrupted. *)
Lemma write_eq (context : Context) (new_repo : option Repo)
    (ds : gmap string Directory) :
  ds !! staging_path (name context) = None →
  ds !! rollback_path (name context) = None →
  (∀ r, new_repo = Some r → is_Some (ds !! (root r).1 ≫= d_repo)) →
  write context new_repo (mkWorld ds None) =
    (Ok (),
     mkWorld (<[committed_path (name context) :=
                  mkDirectory (Some (Spec_to_dict <$> specs_by_hash context))
                    (Some (to_dict context))
                    (match new_repo with
                     | Some r => ds !! (root r).1 ≫= d_repo
                     | None => ds !! committed_path (name context) ≫= d_repo
                     end)]> ds) None,
     []).
Proof.
  intros Hst Hrb Hrepo.
  destruct (write_commits_snapshot context new_repo ds Hst Hrb Hrepo)
    as (ds' & Hw & Hst' & Hrb' & Hcm').
  pose proof (write_states context new_repo (mkWorld ds None)) as HS.
  unfold ends_in in HS. rewrite Hw in HS. simpl in HS.
  destruct HS as (a & b & c & (_ & _ & _ & Hsame) & _).
  rewrite Hw. do 3 f_equal. apply map_eq. intros p.
  destruct (decide (p = committed_path (name context))) as [->|Hcm].
  { by rewrite lookup_insert_eq. }
  rewrite lookup_insert_ne by done.
  destruct (decide (p = staging_path (name context))) as [->|Hs].
  { by rewrite Hst, Hst'. }
  destruct (decide (p = rollback_path (name context))) as [->|Hr].
  { by rewrite Hrb, Hrb'. }
  by apply Hsame.
Qed.

(** X17. A [write] for a name that is one path component, from a clean
    state, not interrupted and with the given snapshot present, succeeds.
    The committed directory then holds the two files of the context and a
    snapshot, the copy of the given one or else the one the directory had
    before; nothing is left at the staging and rollback paths; and every
    directory that existed, save those at and below the three paths, is
    as it was. *)
Theorem write_replaces_committed_directory (context : Context)
    (new_repo : option Repo) (w : World) :
  is_component (name context) →
  budget w = None →
  dirs w !! staging_path (name context) = None →
  dirs w !! rollback_path (name context) = None →
  (∀ r, new_repo = Some r → is_Some (dirs w !! (root r).1 ≫= d_repo)) →
  ∃ w',
    write context new_repo w = (Ok (), w', [])
    ∧ budget w' = None
    ∧ dirs w' !! staging_path (name context) = None
    ∧ dirs w' !! rollback_path (name context) = None
    ∧ dirs w' !! committed_path (name context) =
        Some (committed_dir context
                (match new_repo with
                 | Some r => dirs w !! (root r).1 ≫= d_repo
                 | None => dirs w !! committed_path (name context) ≫= d_repo
                 end))
    ∧ (∀ q, is_Some (dirs w !! q) → ¬ own_tree (name context) q →
            dirs w' !! q = dirs w !! q).
Proof.
  destruct w as [ds b]. simpl. intros _ -> Hst Hrb Hrepo.
  pose proof (staging_ne_committed (name context)) as Hn1.
  pose proof (rollback_ne_committed (name context)) as Hn2.
  eexists. split; [by apply write_eq|]. simpl. split_and!.
  - done.
  - by rewrite lookup_insert_ne.
  - by rewrite lookup_insert_ne.
  - by rewrite lookup_insert_eq.
  - intros q _ Hq. rewrite lookup_insert_ne; [done|].
    intros <-. apply Hq. right; left. by left.
Qed.

(** ** The handlers *)

(** X18. [context_create] on a name that is one path component, with
    nothing at its three paths, commits the empty context: the committed
    directory has its two files and no snapshot, the [read] that follows
    returns the empty context, and a second [context_create] of the name
    is refused and changes nothing. *)
Theorem context_create_then_read (n : string) (ds : gmap string Directory) :
  is_component n →
  ds !! staging_path n = None →
  ds !! committed_path n = None →
  ds !! rollback_path n = None →
  ∃ w',
    context_create n (mkWorld ds None) = (Ok (), w', [])
    ∧ dirs w' !! committed_path n = Some (committed_dir (Context_init n) None)
    ∧ read n w' = (Ok (Context_init n), w', [])
    ∧ context_create n w' =
        (Raise (Die ("Context already exists: " +:+ n)), w', []).
Proof.
  intros _ Hst Hcm Hrb.
  pose proof (staging_ne_committed n) as Hn1.
  pose proof (rollback_ne_committed n) as Hn2.
  exists (mkWorld (<[committed_path n := committed_dir (Context_init n) None]> ds)
                  None).
  split_and!.
  - unfold context_create. rewrite bind_eq, os_path_exists_eq.
    change (path (Context_init n)) with (committed_path n).
    rewrite exists_false by done.
    rewrite (write_eq (Context_init n) None ds) by done.
    simpl. by rewrite Hcm.
  - simpl. by rewrite lookup_insert_eq.
  - rewrite read_clean by (simpl; by rewrite lookup_insert_ne).
    simpl. rewrite lookup_insert_eq. simpl. by rewrite fmap_empty.
  - unfold context_create. rewrite bind_eq, os_path_exists_eq.
    change (path (Context_init n)) with (committed_path n).
    erewrite exists_true by apply lookup_insert_eq. reflexivity.
Qed.

Lemma read_ok_inv (n : string) (w w1 : World) (c : Context) ev :
  read n w = (Ok c, w1, ev) →
  dirs w !! staging_path n = None
  ∧ dirs w !! rollback_path n = None
  ∧ name c = n.
Proof.
  intros H.
  destruct (dirs w !! staging_path n) as [d|] eqn:Hst.
  { rewrite read_partial in H; [done|]. left. unfold exists_in.
    rewrite Hst. eauto. }
  destruct (dirs w !! rollback_path n) as [d|] eqn:Hrb.
  { rewrite read_partial in H; [done|]. right. unfold exists_in.
    rewrite Hrb. eauto. }
  rewrite read_clean in H by done.
  destruct (dirs w !! committed_path n ≫= d_context); [|done].
  destruct (dirs w !! committed_path n ≫= d_full_specs); [|done].
  by injection H as <- _ _.
Qed.

Lemma remove_name (query : string) (self : Context) :
  name (remove query self).1.2 = name self.
Proof.
  unfold remove, list_del, dict_del. unfold_m. unfold_m. simpl.
  repeat (case_decide || case_match || simplify_eq/=); done.
Qed.

Lemma add_name (user_spec : string) (self : Context) :
  name (add user_spec self).1.2 = name self.
Proof. by destruct (add_outcome user_spec self) as [->| ->]. Qed.







(** ** The name of a context *)

Lemma keeps_name_bind {A B} (m : M Context A) (f : A → M Context B) :
  keeps_name m → (∀ a, keeps_name (f a)) → keeps_name (m ≫= f).
Proof.
  intros Hm Hf self. rewrite bind_eq. specialize (Hm self).
  destruct (m self) as [[[a|e] s1] ev1]; [|done].
  specialize (Hf a s1). destruct (f a s1) as [[r s2] ev2]. simpl in *.
  congruence.
Qed.

Lemma keeps_name_for_fold {A B} (l : list A) (acc : B)
    (body : B → A → M Context B) :
  (∀ acc x, keeps_name (body acc x)) → keeps_name (for_fold l acc body).
Proof.
  intros Hbody. revert acc. induction l as [|x l IH]; intros acc.
  - by intros self.
  - simpl. apply keeps_name_bind; [apply Hbody|]. intros acc'. apply IH.
Qed.

Lemma keeps_name_for_each {A} (l : list A) (body : A → M Context unit) :
  (∀ x, keeps_name (body x)) → keeps_name (for_each l body).
Proof.
  intros Hbody. induction l as [|x l IH].
  - by intros self.
  - simpl. apply keeps_name_bind; [apply Hbody|]. by intros _.
Qed.

Ltac keeps_name :=
  repeat first
    [ apply keeps_name_bind; [|intros ?]
    | apply keeps_name_for_fold; intros ? ?
    | apply keeps_name_for_each; intros ?
    | match goal with
      | |- keeps_name (if ?b then _ else _) => destruct b
      | |- keeps_name (match ?x with _ => _ end) => destruct x
      end
    | by intros ? ].

Lemma concretize_keeps_name : keeps_name concretize.
Proof. unfold concretize, concretize_step, concretize_spec. keeps_name. Qed.

Lemma upgrade_dependency_keeps_name (dep_name : string) (dry_run : bool) :
  keeps_name (upgrade_dependency dep_name dry_run).
Proof.
  unfold upgrade_dependency, upgrade_step, upgrade_dependency_version,
    concretize_spec.
  keeps_name.
Qed.

Lemma reset_keeps_name (compiler : option string) :
  keeps_name (Context_reset_os_and_compiler compiler).
Proof.
  unfold Context_reset_os_and_compiler, reset_step, reset_os_and_compiler,
    concretize_spec.
  keeps_name.
Qed.

(** X12. No method of [Context] changes the name of the object, whether it
    returns or raises: the paths of a context stay the same through every
    sequence of calls. *)
Theorem methods_keep_name :
  (∀ user_spec, keeps_name (add user_spec))
  ∧ (∀ query, keeps_name (remove query))
  ∧ keeps_name concretize
  ∧ keeps_name install
  ∧ (∀ dep_name dry_run, keeps_name (upgrade_dependency dep_name dry_run))
  ∧ (∀ compiler, keeps_name (Context_reset_os_and_compiler compiler)).
Proof.
  split_and!.
  - intros user_spec self. apply add_name.
  - intros query self. apply remove_name.
  - apply concretize_keeps_name.
  - unfold install. keeps_name.
  - apply upgrade_dependency_keeps_name.
  - apply reset_keeps_name.
Qed.

(** ** The directories a handler changes *)

Lemma touches_only_bind_post {A B} (P : string → Prop) (Post : A → Prop)
    (m : M World A) (f : A → M World B) :
  (∀ w a w1 ev, m w = (Ok a, w1, ev) → Post a) →
  touches_only P m → (∀ a, Post a → touches_only P (f a)) →
  touches_only P (m ≫= f).
Proof.
  intros HPost Hm Hf w q Hq. rewrite bind_eq. specialize (Hm w q Hq).
  destruct (m w) as [[[a|e] w1] ev1] eqn:E; [|done].
  specialize (Hf a (HPost _ _ _ _ E) w1 q Hq).
  destruct (f a w1) as [[r w2] ev2]. simpl in *. congruence.
Qed.

Lemma touches_only_bind {A B} (P : string → Prop)
    (m : M World A) (f : A → M World B) :
  touches_only P m → (∀ a, touches_only P (f a)) → touches_only P (m ≫= f).
Proof.
  intros Hm Hf. apply (touches_only_bind_post P (λ _, True)); auto.
Qed.

Lemma touches_only_for_each {A} (P : string → Prop) (l : list A)
    (body : A → M World unit) :
  (∀ x, touches_only P (body x)) → touches_only P (for_each l body).
Proof.
  intros Hbody. induction l as [|x l IH].
  - by intros w q _.
  - simpl. apply touches_only_bind; [apply Hbody|]. by intros _.
Qed.

Lemma touches_only_for_fold {A B} (P : string → Prop) (l : list A) (acc : B)
    (body : B → A → M World B) :
  (∀ acc x, touches_only P (body acc x)) →
  touches_only P (for_fold l acc body).
Proof.
  intros Hbody. revert acc. induction l as [|x l IH]; intros acc.
  - by intros w q _.
  - simpl. apply touches_only_bind; [apply Hbody|]. intros acc'. apply IH.
Qed.

Lemma touches_only_mono {A} (P P' : string → Prop) (m : M World A) :
  (∀ q, P q → P' q) → touches_only P m → touches_only P' m.
Proof. intros HP Hm w q Hq. apply Hm. intros H. by apply Hq, HP. Qed.

Lemma touches_only_syscall (P : string → Prop) : touches_only P syscall.
Proof. intros [ds [[|k]|]] q _; reflexivity. Qed.

Lemma touches_only_insert (P : string → Prop) (p : string) (d : Directory) :
  P p → touches_only P (modify (set_dirs <[p := d]>)).
Proof.
  intros Hp w q Hq. simpl. rewrite lookup_insert_ne; [done|].
  by intros ->.
Qed.

Lemma touches_only_on_context {A} (P : string → Prop) (m : M Context A)
    (c : Context) :
  touches_only P (on_context m c).
Proof.
  intros w q _. unfold on_context. by destruct (m c) as [[[a|e] c'] ev].
Qed.

Lemma on_context_name {A} (m : M Context A) (c : Context) (w w1 : World)
    (r : A * Context) ev :
  keeps_name m → on_context m c w = (Ok r, w1, ev) → name r.2 = name c.
Proof.
  intros Hm. unfold on_context. specialize (Hm c).
  destruct (m c) as [[[a|e] c'] ev']; [|done]. by intros [= <- _ _].
Qed.

Ltac touches :=
  repeat first
    [ apply touches_only_syscall
    | apply touches_only_on_context
    | apply touches_only_insert; cbn; by auto
    | apply touches_only_bind; [|intros ?]
    | apply touches_only_for_each; intros ?
    | apply touches_only_for_fold; intros ? ?
    | match goal with
      | |- touches_only _ (if ?b then _ else _) => destruct b
      | |- touches_only _ (match ?x with _ => _ end) => destruct x
      end
    | by intros ? ? ? ].

Lemma write_touches (context : Context) (new_repo : option Repo) :
  touches_only (own_paths (name context)) (write context new_repo).
Proof.
  intros w q Hq.
  destruct (write_states context new_repo w) as (a & b & c & HA & _).
  destruct HA as (_ & _ & _ & HA). apply HA; intros ->; apply Hq.
  - by left.
  - right; by left.
  - right; by right.
Qed.

Lemma read_state (n : string) (w : World) : (read n w).1.2 = w.
Proof.
  destruct (dirs w !! staging_path n) as [d|] eqn:Hst.
  { rewrite read_partial; [done|]. left. unfold exists_in.
    rewrite Hst. eauto. }
  destruct (dirs w !! rollback_path n) as [d|] eqn:Hrb.
  { rewrite read_partial; [done|]. right. unfold exists_in.
    rewrite Hrb. eauto. }
  rewrite read_clean by done.
  destruct (dirs w !! committed_path n ≫= d_context); [|done].
  by destruct (dirs w !! committed_path n ≫= d_full_specs).
Qed.

Lemma returns_bind {S A B} (b : B) (m : M S A) (f : A → M S B) :
  (∀ a, returns b (f a)) → returns b (m ≫= f).
Proof.
  intros Hf s r s1 ev. rewrite bind_eq.
  destruct (m s) as [[[a|e] s'] ev1]; [|by intros [= <- _ _] ? [=]].
  destruct (f a s') as [[r2 s2] ev2] eqn:E. intros [= <- _ _].
  by eapply Hf.
Qed.

Lemma returns_mret {S A} (a : A) : returns (S:=S) a (mret a).
Proof. intros s r s1 ev [= <- _ _] a' [= <-]. done. Qed.

Lemma tempfile_mkdtemp_outcome (w : World) r w1 ev :
  tempfile_mkdtemp w = (r, w1, ev) →
  (∃ e, r = Raise e ∧ dirs w1 = dirs w)
  ∨ (r = Ok (fresh (dom (dirs w)))
     ∧ dirs w1 = <[fresh (dom (dirs w)) := empty_dir]> (dirs w)).
Proof.
  unfold tempfile_mkdtemp, syscall. unfold_m.
  destruct w as [ds [[|k]|]]; simpl; intros [= <- <- <-]; eauto.
Qed.

(** [prepare_repository] works in the directory it makes: the other
    directories are as they were, and the repository it returns is the
    one in that directory. *)
Lemma prepare_repository_outcome (context : PyObj) (remove : list string)
    (w : World) r w1 ev :
  prepare_repository context remove w = (r, w1, ev) →
  (∀ q, q ≠ fresh (dom (dirs w)) → dirs w1 !! q = dirs w !! q)
  ∧ (∀ rp, r = Ok rp → rp = mkRepo (fresh (dom (dirs w)), repo)).
Proof.
  unfold prepare_repository. rewrite bind_eq.
  destruct (tempfile_mkdtemp w) as [[r1 w2] ev1] eqn:H1.
  apply tempfile_mkdtemp_outcome in H1 as [(e & -> & Hd)|(-> & Hd)].
  { intros [= <- <- <-]. split; [intros; by rewrite Hd|by intros ? [=]]. }
  set (p := fresh (dom (dirs w))) in *.
  match goal with
  | |- match ?m w2 with _ => _ end = _ → _ =>
      assert (touches_only (λ q, q = p) m) as HT;
      [|assert (returns (mkRepo (p, repo)) m) as HR;
        [|destruct (m w2) as [[r2 w3] ev2] eqn:H2]]
  end.
  { unfold call_repo_path, attr_name, os_path_exists_member, shutil_copytree,
      create_repo, shutil_rmtree_package.
    touches. }
  { repeat (apply returns_bind; intros ?). apply returns_mret. }
  intros [= <- <- <-]. split.
  - intros q Hq. specialize (HT w2 q Hq). rewrite H2 in HT. simpl in HT.
    by rewrite HT, Hd, lookup_insert_ne.
  - intros rp ->. by eapply HR.
Qed.

Lemma own_paths_tree (n q : string) : own_paths n q → own_tree n q.
Proof.
  intros [->|[->| ->]]; [left|right; left|right; right]; by left.
Qed.

Lemma isolated_own {A} (n : string) (m : M World A) :
  touches_only (own_paths n) m → isolated n m.
Proof.
  intros Hm w q _ Hq. apply Hm. intros H. by apply Hq, own_paths_tree.
Qed.

(** A handler that reads its context, prepares a repository and
    goes on in that repository and at the paths of the context. *)
Lemma isolated_prepare {B} (n : string) (o : Context → PyObj)
    (remove : list string) (k : Context → Repo → M World B) :
  (∀ c p, name c = n →
          touches_only (λ q, q = p ∨ own_paths n q) (k c (mkRepo (p, repo)))) →
  isolated n
    (context ← read n;
     rp ← prepare_repository (o context) remove;
     k context rp).
Proof.
  intros Hk w q Hsome Hq. rewrite bind_eq.
  pose proof (read_state n w) as Hw.
  destruct (read n w) as [[[c|e] w1] ev1] eqn:Hread; simpl in Hw; subst w1;
    [|done].
  apply read_ok_inv in Hread as (_ & _ & Hname).
  rewrite bind_eq.
  destruct (prepare_repository (o c) remove w) as [[r w2] ev2] eqn:Hprep.
  apply prepare_repository_outcome in Hprep as [Hframe Hval].
  assert (q ≠ fresh (dom (dirs w))) as Hfresh.
  { intros ->. apply elem_of_dom in Hsome. by apply is_fresh in Hsome. }
  destruct r as [rp|e]; [|by apply Hframe].
  rewrite (Hval rp eq_refl).
  specialize (Hk c (fresh (dom (dirs w))) Hname w2 q).
  destruct (k c _ w2) as [[r3 w3] ev3]. simpl in *.
  rewrite Hk; [by apply Hframe|]. intros [?|H]; [done|].
  by apply Hq, own_paths_tree.
Qed.

Lemma dump_to_context_repo_touches (P : string → Prop) (spec : Spec)
    (rp : Repo) :
  P (root rp).1 → touches_only P (dump_to_context_repo spec rp).
Proof.
  intros Hp. unfold dump_to_context_repo, dump_provenance,
    os_path_exists_package.
  touches.
Qed.

(** X21. The handlers, called on a name that is one path component,
    change no directory that exists when they start, save those at and
    below the staging, committed and rollback path of that name,
    wherever they fail or are interrupted.  (The three paths of a name
    can be paths of another name: the committed path of [_a] is the
    staging path of [a].) *)
Theorem handlers_are_isolated (n : string) :
  is_component n →
  isolated n (context_create n)
  ∧ (∀ args_package, isolated n (context_add n args_package))
  ∧ (∀ args_package, isolated n (context_remove n args_package))
  ∧ isolated n (context_concretize n)
  ∧ isolated n (context_install n)
  ∧ (∀ args_compiler, isolated n (context_relocate n args_compiler))
  ∧ (∀ args_dep_name args_dry_run,
       isolated n (context_upgrade_dependency n args_dep_name args_dry_run)).
Proof.
  intros _.
  assert (∀ (op : string → Op) (m : string → M Context unit) args_package,
            (∀ x, keeps_name (m x)) →
            isolated n
              (context ← read n;
               specs ← lift_res (parse_specs args_package);
               context ← for_fold specs context
                 (λ context spec,
                    r ← on_context (m (Spec_format spec)) context; mret r.2);
               write context None)) as Hrequests.
  { intros op m args_package Hm. apply isolated_own.
    apply (touches_only_bind_post _ (λ c, name c = n)).
    { intros w c w1 ev H. by apply read_ok_inv in H as (_ & _ & ?). }
    { intros w q _. by rewrite read_state. }
    intros c Hc. apply touches_only_bind; [by intros ???|]. intros specs.
    apply (touches_only_bind_post _ (λ c, name c = n)).
    - clear -Hm Hc. revert c Hc.
      induction specs as [|spec specs IH]; intros c Hc w c' w1 ev.
      + rewrite for_fold_nil. by intros [= <- _ _].
      + rewrite for_fold_cons, bind_eq.
        destruct (on_context _ c w) as [[[r|e] w2] ev2] eqn:Hon; [|done].
        apply on_context_name in Hon; [|done]. simpl.
        destruct (for_fold specs r.2 _ w2) as [[r3 w3] ev3] eqn:Hrest.
        intros [= -> _ _]. eapply IH; [|exact Hrest]. congruence.
    - touches.
    - intros c' <-. apply write_touches. }
  split_and!.
  - apply isolated_own. unfold context_create.
    apply touches_only_bind; [by intros ???|]. intros [|]; [by intros ???|].
    apply (write_touches (Context_init n)).
  - intros args_package. apply (Hrequests OpAdd add). intros x self.
    apply add_name.
  - intros args_package. apply (Hrequests OpRemove remove). intros x self.
    apply remove_name.
  - unfold context_concretize.
    apply (isolated_prepare n PyContext []
             (λ context rp,
                r ← on_context concretize context;
                for_each r.1
                  (λ spec, for_each (Spec_traverse [] spec)
                             (λ dep, dump_to_context_repo dep rp));;
                write r.2 (Some rp))).
    intros c p Hc.
    apply (touches_only_bind_post _ (λ r, name r.2 = n)).
    { intros w r w1 ev H. apply on_context_name in H; [congruence|].
      apply concretize_keeps_name. }
    { touches. }
    intros r Hr. apply touches_only_bind.
    + apply touches_only_for_each. intros spec.
      apply touches_only_for_each. intros dep.
      apply dump_to_context_repo_touches. by left.
    + intros _. eapply touches_only_mono; [|apply write_touches].
      intros q Hq. right. by rewrite <- Hr.
  - unfold context_install.
    apply (isolated_prepare n (λ _, global_context) []
             (λ _ _, call_install global_context)).
    intros c p Hc. by intros ???.
  - intros args_compiler. unfold context_relocate.
    apply (isolated_prepare n PyContext []
             (λ context _,
                r ← on_context (Context_reset_os_and_compiler args_compiler)
                      context;
                write r.2 None)).
    intros c p Hc.
    apply (touches_only_bind_post _ (λ r, name r.2 = n)).
    { intros w r w1 ev H. apply on_context_name in H; [congruence|].
      apply reset_keeps_name. }
    { touches. }
    intros r Hr. eapply touches_only_mono; [|apply write_touches].
    intros q Hq. right. by rewrite <- Hr.
  - intros args_dep_name args_dry_run. unfold context_upgrade_dependency.
    apply (isolated_prepare n PyContext [args_dep_name]
             (λ context rp,
                r ← on_context
                      (upgrade_dependency args_dep_name args_dry_run) context;
                match negb args_dry_run, r.1 with
                | true, Some new_dep =>
                    dump_to_context_repo new_dep rp;;
                    write r.2 (Some rp)
                | _, _ => pass
                end)).
    intros c p Hc.
    apply (touches_only_bind_post _ (λ r, name r.2 = n)).
    { intros w r w1 ev H. apply on_context_name in H; [congruence|].
      apply upgrade_dependency_keeps_name. }
    { touches. }
    intros r Hr. destruct (negb args_dry_run); [|by intros ???].
    destruct r.1 as [new_dep|]; [|by intros ???].
    apply touches_only_bind.
    + apply dump_to_context_repo_touches. by left.
    + intros _. eapply touches_only_mono; [|apply write_touches].
      intros q Hq. right. by rewrite <- Hr.
Qed.

(** ** The snapshot of package definitions *)

Lemma tempfile_mkdtemp_eq (ds : gmap string Directory) :
  tempfile_mkdtemp (mkWorld ds None) =
    (Ok (fresh (dom ds)), mkWorld (<[fresh (dom ds) := empty_dir]> ds) None, []).
Proof. reflexivity. Qed.

Lemma fresh_absent (ds : gmap string Directory) : ds !! fresh (dom ds) = None.
Proof. apply not_elem_of_dom, is_fresh. Qed.

Lemma member_after_mkdtemp (ds : gmap string Directory) (p q : string)
    (b : option nat) :
  ds !! p = None →
  os_path_exists_member (q, repo) (mkWorld (<[p := empty_dir]> ds) b) =
    (Ok (bool_decide (is_Some (ds !! q ≫= d_repo))),
     mkWorld (<[p := empty_dir]> ds) b, []).
Proof.
  intros Hp. unfold os_path_exists_member. unfold_m. simpl.
  destruct (decide (q = p)) as [->|Hq].
  - rewrite lookup_insert_eq, Hp. by simpl.
  - rewrite lookup_insert_ne by done. by destruct (ds !! q).
Qed.

Lemma create_repo_eq (root : FilePath) (ns : string)
    (ds : gmap string Directory) (d : Directory) :
  ds !! root.1 = Some d → d_repo d = None →
  create_repo root ns (mkWorld ds None) =
    (Ok (), mkWorld (<[root.1 := mkDirectory (d_full_specs d) (d_context d)
                                   (Some (mkRepoTree ns ∅))]> ds) None, []).
Proof.
  intros Hd Hr. unfold create_repo, syscall. unfold_m. simpl.
  by rewrite Hd, Hr.
Qed.

Lemma no_events {S A} (x : Res A * S * list Event) :
  (let '(r, s2, ev2) := x in (r, s2, [] ++ ev2)) = x.
Proof. by destruct x as [[r s2] ev2]. Qed.

(** [prepare_repository] up to its removals: the temporary directory
    holds the snapshot of the context. *)
Lemma prepare_repository_copy (c : Context) (remove : list string)
    (ds : gmap string Directory) :
  let p := fresh (dom ds) in
  prepare_repository (PyContext c) remove (mkWorld ds None) =
    ((if decide (remove ≠ []) then
        for_each remove (λ pkg_name, shutil_rmtree_package (p, repo) pkg_name)
      else pass);;
     emit (EvPutFirst (p, repo));;
     mret (mkRepo (p, repo)))
      (mkWorld (<[p := temp_dir (snapshot_of c ds)]> ds) None).
Proof.
  intros p. pose proof (fresh_absent ds) as Hp. fold p in Hp.
  unfold prepare_repository.
  rewrite bind_eq, tempfile_mkdtemp_eq. fold p. cbv beta iota zeta.
  rewrite bind_eq. change (call_repo_path (PyContext c) ?w)
    with (Ok (repo_path c), w, @nil Event). cbv beta iota.
  rewrite bind_eq. unfold repo_path at 1.
  rewrite member_after_mkdtemp by done. cbv beta iota.
  rewrite (bind_eq (if bool_decide _ then _ else _)).
  unfold snapshot_of.
  destruct (ds !! path c ≫= d_repo) as [tree|] eqn:Htree.
  - rewrite bool_decide_eq_true_2 by eauto.
    assert (path c ≠ p) as Hne.
    { intros Heq. rewrite Heq, Hp in Htree. done. }
    rewrite (shutil_copytree_eq _ _ _ tree empty_dir);
      [|by simpl; rewrite lookup_insert_ne|by simpl; rewrite lookup_insert_eq
       |done].
    simpl fst. rewrite insert_insert_eq. simpl default.
    by rewrite !no_events.
  - rewrite bool_decide_eq_false_2 by (by intros [??]).
    rewrite bind_eq.
    change (attr_name (PyContext c) ?w) with (Ok (name c), w, @nil Event).
    cbv beta iota.
    rewrite (create_repo_eq _ _ _ empty_dir);
      [|by simpl; rewrite lookup_insert_eq|done].
    simpl fst. rewrite insert_insert_eq. simpl default.
    by rewrite !no_events.
Qed.

Lemma shutil_rmtree_package_eq (p : string) (k : string) (a : _) (b : _)
    (ns : string) (pk : gmap string string) (v : string)
    (ds : gmap string Directory) :
  pk !! k = Some v →
  shutil_rmtree_package (p, repo) k
      (mkWorld (<[p := mkDirectory a b (Some (mkRepoTree ns pk))]> ds) None) =
    (Ok (),
     mkWorld (<[p := mkDirectory a b (Some (mkRepoTree ns (delete k pk)))]> ds)
             None, []).
Proof.
  intros Hk. unfold shutil_rmtree_package, syscall. unfold_m. simpl.
  rewrite lookup_insert_eq. simpl. rewrite Hk. simpl.
  unfold set_dirs. simpl. by rewrite insert_insert_eq.
Qed.

Lemma shutil_rmtree_package_missing (p : string) (k : string) (a : _) (b : _)
    (ns : string) (pk : gmap string string) (ds : gmap string Directory) :
  pk !! k = None →
  shutil_rmtree_package (p, repo) k
      (mkWorld (<[p := mkDirectory a b (Some (mkRepoTree ns pk))]> ds) None) =
    (Raise (OSError p),
     mkWorld (<[p := mkDirectory a b (Some (mkRepoTree ns pk))]> ds) None, []).
Proof.
  intros Hk. unfold shutil_rmtree_package, syscall. unfold_m. simpl.
  rewrite lookup_insert_eq. simpl. by rewrite Hk.
Qed.

Lemma remove_loop (p : string) (a : _) (b : _) (ns : string)
    (ds : gmap string Directory) (remove : list string) :
  ∀ pk,
    NoDup remove → Forall (λ k, is_Some (pk !! k)) remove →
    for_each remove (λ k, shutil_rmtree_package (p, repo) k)
        (mkWorld (<[p := mkDirectory a b (Some (mkRepoTree ns pk))]> ds) None) =
      (Ok (),
       mkWorld (<[p := mkDirectory a b
                         (Some (mkRepoTree ns (remove_all remove pk)))]> ds)
               None, []).
Proof.
  induction remove as [|k l IH]; intros pk Hnd Hall; [done|].
  apply NoDup_cons in Hnd as [Hk Hnd].
  apply Forall_cons in Hall as [[v Hv] Hall].
  rewrite for_each_cons, (shutil_rmtree_package_eq _ _ _ _ _ _ v) by done.
  rewrite IH; [done|done|].
  apply Forall_forall. intros k' Hk'.
  rewrite lookup_delete_ne by (by intros ->).
  by apply (proj1 (Forall_forall _ _) Hall).
Qed.

(** [prepare_repository] when the packages to remove are in the
    snapshot, each once. *)
Lemma prepare_repository_eq (c : Context) (remove : list string)
    (ds : gmap string Directory) :
  let p := fresh (dom ds) in
  let tree := snapshot_of c ds in
  NoDup remove → Forall (λ k, is_Some (packages tree !! k)) remove →
  prepare_repository (PyContext c) remove (mkWorld ds None) =
    (Ok (mkRepo (p, repo)),
     mkWorld (<[p := temp_dir (mkRepoTree (namespace tree)
                                  (remove_all remove (packages tree)))]> ds)
             None,
     [EvPutFirst (p, repo)]).
Proof.
  intros p tree Hnd Hall. rewrite prepare_repository_copy. fold p tree.
  unfold temp_dir. destruct tree as [ns pk]. simpl in *.
  rewrite bind_eq.
  assert ((if decide (remove ≠ []) then
             for_each remove (λ k, shutil_rmtree_package (p, repo) k)
           else pass)
            (mkWorld (<[p := mkDirectory None None (Some (mkRepoTree ns pk))]> ds)
                     None)
          = (Ok (),
             mkWorld (<[p := mkDirectory None None
                               (Some (mkRepoTree ns (remove_all remove pk)))]> ds)
                     None, [])) as ->.
  { destruct (decide (remove ≠ [])) as [_|Hnil]; [by apply remove_loop|].
    destruct remove; [done|]. by destruct Hnil. }
  reflexivity.
Qed.







(** X22. [dump_to_context_repo] never changes a package definition that
    is in the snapshot: whatever the spec, and wherever the call is
    interrupted, a package that was there is there with the same
    definition. *)
Theorem dump_to_context_repo_never_overwrites (spec : Spec) (rp : Repo)
    (w : World) (k v : string) :
  (dirs w !! (root rp).1 ≫= d_repo) ≫= (λ tree, packages tree !! k) = Some v →
  (dirs (dump_to_context_repo spec rp w).1.2 !! (root rp).1 ≫= d_repo)
    ≫= (λ tree, packages tree !! k) = Some v.
Proof.
  intros Hk. unfold dump_to_context_repo, os_path_exists_package.
  rewrite bind_eq. unfold_m. simpl.
  destruct (dirs w !! (root rp).1) as [d|] eqn:Hd; [|done]. simpl in *.
  destruct (d_repo d) as [tree|] eqn:Htree; [|done]. simpl in *.
  destruct (packages tree !! Spec_name spec) as [v'|] eqn:Hs.
  - rewrite bool_decide_eq_true_2 by eauto. simpl. rewrite Hd. simpl.
    by rewrite Htree.
  - rewrite bool_decide_eq_false_2 by (by intros [??]). simpl.
    unfold dump_provenance, syscall. unfold_m.
    destruct w as [ds [[|b]|]]; simpl in *.
    + rewrite Hd. simpl. by rewrite Htree.
    + rewrite lookup_insert_eq. simpl. rewrite Hd. simpl. rewrite Htree. simpl.
      rewrite lookup_insert_ne; [done|]. intros Heq. by rewrite Heq, Hk in Hs.
    + rewrite lookup_insert_eq. simpl. rewrite Hd. simpl. rewrite Htree. simpl.
      rewrite lookup_insert_ne; [done|]. intros Heq. by rewrite Heq, Hk in Hs.
Qed.

(** X23. [prepare_repository] works on a copy.  When the packages to
    remove are in the snapshot of the context, each once, it returns the
    repository of a directory that did not exist, which holds the
    snapshot without those packages (a new, empty snapshot named after
    the context if it had none); every directory that existed, the
    committed one included, is as it was, and the repository is put
    first. *)
Theorem prepare_repository_works_on_a_copy (c : Context) (remove : list string)
    (ds : gmap string Directory) :
  NoDup remove →
  Forall (λ k, is_Some (packages (snapshot_of c ds) !! k)) remove →
  ∃ p,
    ds !! p = None
    ∧ prepare_repository (PyContext c) remove (mkWorld ds None) =
        (Ok (mkRepo (p, repo)),
         mkWorld (<[p := temp_dir
                           (mkRepoTree (namespace (snapshot_of c ds))
                              (remove_all remove
                                 (packages (snapshot_of c ds))))]> ds) None,
         [EvPutFirst (p, repo)]).
Proof.
  intros Hnd Hall. exists (fresh (dom ds)). split; [apply fresh_absent|].
  by apply prepare_repository_eq.
Qed.

(** X24. [context_upgrade_dependency] on a package that is not in the
    snapshot of the context (so always on a context that has none)
    raises the [OSError] of [shutil.rmtree], with or without [--dry-run],
    before it looks at a graph: the context on disk is as it was, and the
    temporary directory stays behind with the copy of the snapshot. *)
Theorem context_upgrade_dependency_unknown_package (n dep_name : string)
    (dry_run : bool) (ds : gmap string Directory) (c : Context) :
  read n (mkWorld ds None) = (Ok c, mkWorld ds None, []) →
  packages (snapshot_of c ds) !! dep_name = None →
  context_upgrade_dependency n dep_name dry_run (mkWorld ds None) =
    (Raise (OSError (fresh (dom ds))),
     mkWorld (<[fresh (dom ds) := temp_dir (snapshot_of c ds)]> ds) None, []).
Proof.
  intros Hread Hdep. unfold context_upgrade_dependency.
  rewrite bind_eq, Hread. cbv beta iota.
  rewrite bind_eq, prepare_repository_copy.
  destruct (decide ([dep_name] ≠ [])) as [_|Hnil]; [|by destruct Hnil].
  rewrite bind_eq, for_each_cons. unfold temp_dir.
  destruct (snapshot_of c ds) as [ns pk]. simpl in Hdep.
  by rewrite shutil_rmtree_package_missing.
Qed.

(** X25. [context_upgrade_dependency --dry-run] on a package of the
    snapshot commits nothing: the only change on disk is the temporary
    directory, which holds the snapshot without the package; the events
    after [put_first] are messages, so the resolver is not called. *)
Theorem context_upgrade_dependency_dry_run (n dep_name : string)
    (ds : gmap string Directory) (c : Context) :
  read n (mkWorld ds None) = (Ok c, mkWorld ds None, []) →
  is_Some (packages (snapshot_of c ds) !! dep_name) →
  ∃ r evs,
    context_upgrade_dependency n dep_name true (mkWorld ds None) =
      (r,
       mkWorld (<[fresh (dom ds) :=
                    temp_dir (mkRepoTree (namespace (snapshot_of c ds))
                                (delete dep_name
                                   (packages (snapshot_of c ds))))]> ds) None,
       EvPutFirst (fresh (dom ds), repo) :: evs)
    ∧ (r = Ok () ∨ ∃ e, r = Raise e)
    ∧ Forall is_msg evs.
Proof.
  intros Hread Hdep. unfold context_upgrade_dependency.
  rewrite bind_eq, Hread. cbv beta iota.
  rewrite bind_eq, prepare_repository_eq;
    [|apply NoDup_singleton|by apply Forall_singleton].
  cbv beta iota. rewrite bind_eq. unfold on_context at 1.
  destruct (upgrade_dry_run_outcome dep_name c) as (r & evs & -> & Hr & Hev).
  destruct Hr as [->|[e ->]].
  - exists (Ok ()), evs. simpl. rewrite app_nil_r. eauto.
  - exists (Raise e), evs. simpl. eauto.
Qed.





(** ** [Context.list] *)

Lemma list_step_resolved (self : Context) (include_deps : bool)
    (u h : string) (spec : Spec) (out : list string) :
  h ≠ "" → specs_by_hash self !! h = Some spec →
  list_step self include_deps (Some u, Some h) out =
    (Ok (), out ++ listed include_deps u spec, []).
Proof.
  intros Hh Hs. unfold list_step, dict_getitem. unfold_m. simpl.
  destruct (decide (h = "")) as [|_]; [done|]. rewrite Hs. simpl.
  destruct include_deps; simpl; by rewrite <- app_assoc.
Qed.

Lemma list_loop_pending (self : Context) (include_deps : bool)
    (us : list string) (out : list string) :
  for_each (izip_longest us []) (list_step self include_deps) out =
    (Ok (), out ++ ((λ u, u +:+ newline) <$> us), []).
Proof.
  revert out. induction us as [|u us IH]; intros out.
  - simpl. by rewrite app_nil_r.
  - simpl izip_longest. rewrite for_each_cons.
    change (list_step self include_deps (Some u, None) out)
      with (Ok (), out ++ [u +:+ newline], @nil Event).
    cbv beta iota. rewrite IH. simpl. by rewrite <- app_assoc.
Qed.

Lemma list_loop (self : Context) (include_deps : bool) (us : list string) :
  ∀ order roots out,
    Forall2 (λ h spec, h ≠ "" ∧ specs_by_hash self !! h = Some spec)
            order roots →
    (length order ≤ length us)%nat →
    for_each (izip_longest us order) (list_step self include_deps) out =
      (Ok (),
       out ++ listing include_deps (take (length order) us) roots
           ++ ((λ u, u +:+ newline) <$> drop (length order) us), []).
Proof.
  induction us as [|u us IH]; intros order roots out Hall Hlen.
  - destruct order; [|simpl in Hlen; lia]. apply Forall2_nil_inv_l in Hall.
    subst roots. simpl. by rewrite app_nil_r.
  - destruct Hall as [|h spec order roots [Hh Hs] Hall].
    + rewrite list_loop_pending. by rewrite drop_0.
    + simpl izip_longest. rewrite for_each_cons.
      rewrite (list_step_resolved _ _ _ _ spec) by done. cbv beta iota.
      rewrite (IH order roots) by (done || simpl in Hlen; lia).
      simpl. unfold listing. simpl. by rewrite <- !app_assoc.
Qed.

Lemma list_loop_missing (self : Context) (include_deps : bool) (h u : string)
    (us2 order2 : list string) (us1 : list string) :
  ∀ order1 roots1 out,
    Forall2 (λ h spec, h ≠ "" ∧ specs_by_hash self !! h = Some spec)
            order1 roots1 →
    length us1 = length order1 →
    h ≠ "" → specs_by_hash self !! h = None →
    for_each (izip_longest (us1 ++ u :: us2) (order1 ++ h :: order2))
             (list_step self include_deps) out =
      (Raise (KeyError h),
       out ++ listing include_deps us1 roots1 ++ [u +:+ newline], []).
Proof.
  induction us1 as [|u1 us1 IH]; intros order1 roots1 out Hall Hlen Hh Hs.
  - destruct order1; [|done]. apply Forall2_nil_inv_l in Hall. subst roots1.
    simpl izip_longest. rewrite for_each_cons.
    unfold list_step, dict_getitem. unfold_m. simpl.
    destruct (decide (h = "")) as [|_]; [done|]. by rewrite Hs.
  - destruct Hall as [|h1 spec order1 roots1 [Hh1 Hs1] Hall]; [done|].
    simpl izip_longest. rewrite for_each_cons.
    rewrite (list_step_resolved _ _ _ _ spec) by done. cbv beta iota.
    rewrite (IH order1 roots1) by (done || simpl in Hlen; lia).
    simpl. unfold listing. simpl. by rewrite <- !app_assoc.
Qed.

Lemma stored_roots (self : Context) (order : list string) :
  Forall (λ h, is_Some (specs_by_hash self !! h)) order →
  Forall (λ h, h ≠ "") order →
  Forall2 (λ h spec, h ≠ "" ∧ specs_by_hash self !! h = Some spec)
          order (roots_of (specs_by_hash self) order).
Proof.
  intros Hst Hne. induction Hst as [|h order [spec Hs] _ IH].
  - constructor.
  - apply Forall_cons in Hne as [Hh Hne]. unfold roots_of. simpl.
    rewrite Hs. constructor; [done|by apply IH].
Qed.

(** X13. [Context.list] writes the requests in their order, one line
    each; the line of a resolved request is followed by the resolution,
    its [format()] line or with [include_deps] its [tree()]; the pending
    requests come last, alone.  This is on a context whose hashes are
    stored and not empty and that has no more resolutions than requests;
    what was on the stream stays in front. *)
Theorem list_writes_requests_and_resolutions (self : Context)
    (include_deps : bool) (stream : list string) :
  graphs_stored self →
  Forall (λ h, h ≠ "") (concretized_order self) →
  (length (concretized_order self) ≤ length (user_specs self))%nat →
  let resolved := length (concretized_order self) in
  Context_list self include_deps stream =
    (Ok (),
     stream
       ++ listing include_deps (take resolved (user_specs self))
            (roots_of (specs_by_hash self) (concretized_order self))
       ++ ((λ u, u +:+ newline) <$> drop resolved (user_specs self)),
     []).
Proof.
  intros Hst Hne Hlen resolved. unfold Context_list.
  apply list_loop; [|done]. by apply stored_roots.
Qed.

(** X14. [Context.list] on a context that has a hash without its graph
    raises [KeyError] with that hash: it has written the requests in
    front of it with their resolutions, and the line of the request whose
    graph is missing. *)
Theorem list_raises_on_a_missing_graph (self : Context) (include_deps : bool)
    (stream : list string) (us1 us2 order1 order2 : list string)
    (u h : string) :
  user_specs self = us1 ++ u :: us2 →
  concretized_order self = order1 ++ h :: order2 →
  length us1 = length order1 →
  Forall (λ h, is_Some (specs_by_hash self !! h)) order1 →
  Forall (λ h, h ≠ "") order1 →
  h ≠ "" →
  specs_by_hash self !! h = None →
  Context_list self include_deps stream =
    (Raise (KeyError h),
     stream ++ listing include_deps us1 (roots_of (specs_by_hash self) order1)
            ++ [u +:+ newline],
     []).
Proof.
  intros Hus Hco Hlen Hst Hne Hh Hs. unfold Context_list. rewrite Hus, Hco.
  apply list_loop_missing; [|done..]. by apply stored_roots.
Qed.

End Coverage.

(** * The properties on the small instance *)

Section Scenarios.
#[local] Existing Instance Mock.api.

(** [add] on the context with the one request [app-a]: a second request
    for [app-a] is refused, a request for [app-b] is appended. *)
Lemma add_duplicate_or_append_witness :
  add "app-a@2.0" Mock.app_a =
    (Raise (Die "Package app-a was already added to c"), Mock.app_a, [])
  ∧ add "app-b" Mock.app_a =
      (Ok (), set_user_specs ["app-a"; "app-b"] Mock.app_a, []).
Proof.
  split.
  - apply (add_duplicate_or_append "app-a@2.0" Mock.app_a).
    change (user_specs Mock.app_a) with ["app-a"]. by constructor.
  - apply (add_duplicate_or_append "app-b" Mock.app_a).
    change (user_specs Mock.app_a) with ["app-a"].
    intros H. apply Exists_cons in H as [H|H]; [vm_compute in H; discriminate|].
    by apply Exists_nil in H.
Defined.

(** [remove] of [zlib] from the context with the one request [app-a]. *)
Lemma remove_not_found_witness :
  remove "zlib" Mock.app_a = (Raise (Die "Not found: zlib"), Mock.app_a, []).
Proof.
  apply (remove_not_found "zlib" Mock.app_a).
  change (user_specs Mock.app_a) with ["app-a"].
  constructor; [|constructor]. intros H. vm_compute in H. discriminate.
Defined.

(** [concretize] with [app-a] resolved and [app-b] pending resolves
    [app-b] only; called again, it resolves nothing. *)
Lemma concretize_suffix_then_idle_witness :
  (concretize Mock.app_a_pending).2 = [EvConcretize "app-b"]
  ∧ concretized_order Mock.apps =
      concretized_order Mock.app_a_pending ++ ["app-b@1.0^lib@2.0^zlib@1.2"]
  ∧ concretize Mock.apps = (Ok [], Mock.apps, []).
Proof.
  destruct (concretize_suffix_then_idle Mock.app_a_pending Mock.apps
              ["app-b@1.0^lib@2.0^zlib@1.2"] [EvConcretize "app-b"])
    as (Hevs & _ & Horder & _ & Hidle).
  - reflexivity.
  - split_and!; [reflexivity|exact Horder|exact Hidle].
Defined.

(** Writing [apps] over the committed [app_a] and reading it back. *)
Lemma write_read_round_trip_witness :
  ∃ w', write Mock.apps None Mock.committed_app_a = (Ok (), w', [])
        ∧ read "c" w' = (Ok Mock.apps, w', []).
Proof.
  apply (write_read_round_trip Mock.apps None Mock.committed_app_a).
  - by split_and!.
  - reflexivity.
  - reflexivity.
  - reflexivity.
  - intros r H. discriminate H.
  - intros h spec _. reflexivity.
Defined.

(** With [_c] lying around, [write] and [read] refuse; with nothing
    on disk, [read] fails on [c/context.yaml]. *)
Lemma partial_write_state_and_missing_context_witness :
  write Mock.apps None Mock.half_written =
    (Raise (Die partial_write_msg), Mock.half_written, [])
  ∧ read "c" Mock.half_written =
      (Raise (Die partial_write_msg), Mock.half_written, [])
  ∧ read "c" Mock.nothing =
      (Raise (IOError (committed_path "c", context_yaml)), Mock.nothing, []).
Proof.
  assert (exists_in Mock.half_written (staging_path "c")) as Hstaging.
  { exists empty_dir. apply lookup_singleton_eq. }
  destruct (partial_write_state_and_missing_context
              Mock.apps None "c" Mock.half_written) as (Hwrite & Hread & _).
  destruct (partial_write_state_and_missing_context
              Mock.apps None "c" Mock.nothing) as (_ & _ & Hmissing).
  split_and!.
  - apply Hwrite. left. exact Hstaging.
  - apply Hread. left. exact Hstaging.
  - apply Hmissing; apply lookup_empty.
Defined.

(** Upgrading [lib] in the context with roots [zlib] and [app-a]: the
    root [zlib] has no [lib] node and keeps its place, [app-a] is
    resolved again, and the call returns its new [lib] node. *)
Lemma upgrade_dependency_roots_witness :
  ∃ self' evs,
    upgrade_dependency "lib" false Mock.zlib_and_app = (Ok (Some "lib@2.0"), self', evs)
    ∧ concretized_order Mock.zlib_and_app !! 0%nat = Some "zlib@1.2"
    ∧ concretized_order self' !! 0%nat = Some "zlib@1.2".
Proof.
  assert (hash_identifies (specs_by_hash Mock.zlib_and_app)) as Hkey.
  { intros h spec other Hh <-.
    assert (map_Forall (λ k v, k = v) (specs_by_hash Mock.zlib_and_app)) as Hall.
    { refine (bool_decide_unpack _ _). vm_compute. exact I. }
    exact (Hall _ _ Hh). }
  assert (Forall (upgradable "lib" (specs_by_hash Mock.zlib_and_app))
                 (concretized_order Mock.zlib_and_app)) as Hup.
  { change (concretized_order Mock.zlib_and_app)
      with ["zlib@1.2"; "app-a@1.0^lib@1.0^zlib@1.2"].
    constructor; [|constructor; [|constructor]].
    - vm_compute. exact I.
    - vm_compute. by exists "app-a@1.0^lib@2.0^zlib@1.2", "lib@2.0". }
  destruct (upgrade_dependency_roots "lib" Mock.zlib_and_app Hkey Hup)
    as (result & self' & evs & Hrun & _ & Hkeep & Hfirst).
  exists self', evs.
  assert (result = Some "lib@2.0") as ->.
  { vm_compute in Hfirst.
    destruct Hfirst as (spec & new_spec & new_dep & Hs & Hn & Hd & ->).
    injection Hs as <-. injection Hn as <-. by injection Hd as <-. }
  split_and!; [exact Hrun|reflexivity|].
  apply (Hkeep 0%nat "zlib@1.2" "zlib@1.2"); reflexivity.
Defined.

(** Two roots reach [lib] in different versions and also share [zlib]:
    [_get_environment_specs] warns twice, once about the [zlib] node
    that both roots resolve alike. *)
Lemma environment_warns_about_shared_nodes :
  roots_of (specs_by_hash Mock.apps) (concretized_order Mock.apps) =
    ["app-a@1.0^lib@1.0^zlib@1.2"; "app-b@1.0^lib@2.0^zlib@1.2"]
  ∧ Spec_getitem "lib" "app-a@1.0^lib@1.0^zlib@1.2" = Ok "lib@1.0"
  ∧ Spec_getitem "lib" "app-b@1.0^lib@2.0^zlib@1.2" = Ok "lib@2.0"
  ∧ (package_to_spec Mock.apps).2 =
      [EvWarn "lib@1.0 takes priority over lib@2.0";
       EvWarn "zlib@1.2 takes priority over zlib@1.2"]
  ∧ ¬ ∃ warning, (package_to_spec Mock.apps).2 = [warning].
Proof.
  split_and!; [vm_compute; reflexivity..|].
  intros [warning H]. vm_compute in H. discriminate H.
Qed.

(** Two roots with [lib] in two versions and nothing else in common:
    the [lib] of the first root is selected and one warning is emitted. *)
Lemma environment_first_writer_wins_witness :
  ∃ m,
    package_to_spec Mock.tools =
      (Ok m, Mock.tools, [EvWarn "lib@1.0 takes priority over lib@2.0"])
    ∧ m !! "lib" = Some "lib@1.0".
Proof.
  assert (graphs_stored Mock.tools) as Hstored.
  { change (concretized_order Mock.tools)
      with ["tool-a@1.0^lib@1.0"; "tool-b@1.0^lib@2.0"].
    constructor; [|constructor; [|constructor]]; vm_compute; eauto. }
  destruct (environment_first_writer_wins Mock.tools Hstored)
    as (m & Hrun & _ & _ & Htwo).
  destruct (Htwo "tool-a@1.0^lib@1.0" "tool-b@1.0^lib@2.0"
                 "tool-a@1.0^lib@1.0" "tool-b@1.0^lib@2.0"
                 "lib" "lib@1.0" "lib@2.0") as [Hlib Hwarn].
  - reflexivity.
  - vm_compute. reflexivity.
  - vm_compute. reflexivity.
  - refine (bool_decide_unpack _ _). vm_compute. exact I.
  - refine (bool_decide_unpack _ _). vm_compute. exact I.
  - refine (bool_decide_unpack _ _). vm_compute. exact I.
  - refine (bool_decide_unpack _ _). vm_compute. exact I.
  - reflexivity.
  - reflexivity.
  - intros x y Hx%list_elem_of_In Hy%list_elem_of_In Heq.
    vm_compute in Hx, Hy.
    destruct Hx as [<-|[<-|[]]]; [|reflexivity].
    destruct Hy as [<-|[<-|[]]]; vm_compute in Heq; discriminate Heq.
  - exists m. split; [|exact Hlib]. rewrite Hrun, Hwarn. reflexivity.
Defined.

(** C2, where the code departs from it.  From the empty context:
    [add('mpi')], [add('mpich')], [concretize()], [remove('mpi')].  The
    two requests resolve to the same graph; [remove] deletes it from
    [specs_by_hash] although [concretized_order] still names it for the
    request that stays, and removing that request raises [KeyError]. *)
Theorem remove_drops_a_graph_still_in_use :
  user_specs Mock.mpi_removed = ["mpich"]
  ∧ concretized_order Mock.mpi_removed = ["mpich@3.0"]
  ∧ specs_by_hash Mock.mpi_removed !! "mpich@3.0" = None
  ∧ ¬ graphs_stored Mock.mpi_removed
  ∧ (remove "mpich" Mock.mpi_removed).1.1 = Raise (KeyError "mpich@3.0")
  ∧ (install Mock.mpi_removed).1.1 = Raise (KeyError "mpich@3.0").
Proof.
  split_and!; try (vm_compute; reflexivity).
  intros H. apply Forall_cons in H as [[spec H] _].
  vm_compute in H. discriminate H.
Qed.

(** C1, where the code departs from it.  A [write] of [apps] over the
    committed [app_a] is interrupted after the rename to [.c]: [_c]
    holds the new state, [.c] the old one, [c] is gone.  [repair] raises
    before it looks at any path and changes nothing, and [read] then
    dies on the partial write state instead of returning [apps].
    Interrupted before that rename ([_c] and the old [c] exist), it is
    the same: [read] dies instead of returning [app_a]. *)
Theorem repair_leaves_the_interrupted_write :
  (exists_in Mock.crash_after_step3 (staging_path "c")
   ∧ exists_in Mock.crash_after_step3 (rollback_path "c")
   ∧ ¬ exists_in Mock.crash_after_step3 (committed_path "c")
   ∧ repair "c" Mock.crash_after_step3 =
       (Raise (AttributeError "function" "name"), Mock.crash_after_step3, [])
   ∧ read "c" (Mock.after (repair "c") Mock.crash_after_step3) =
       (Raise (Die partial_write_msg), Mock.crash_after_step3, []))
  ∧ (exists_in Mock.crash_before_step3 (staging_path "c")
     ∧ ¬ exists_in Mock.crash_before_step3 (rollback_path "c")
     ∧ exists_in Mock.crash_before_step3 (committed_path "c")
     ∧ repair "c" Mock.crash_before_step3 =
         (Raise (AttributeError "function" "name"), Mock.crash_before_step3, [])
     ∧ read "c" (Mock.after (repair "c") Mock.crash_before_step3) =
         (Raise (Die partial_write_msg), Mock.crash_before_step3, [])).
Proof.
  assert (∀ w p, bool_decide (is_Some (dirs w !! p)) = true → exists_in w p)
    as Hyes.
  { intros w p. unfold exists_in. by rewrite bool_decide_eq_true. }
  assert (∀ w p, bool_decide (is_Some (dirs w !! p)) = false → ¬ exists_in w p)
    as Hno.
  { intros w p. unfold exists_in. by rewrite bool_decide_eq_false. }
  assert (exists_in Mock.crash_after_step3 (staging_path "c")) as Hafter.
  { apply Hyes. vm_compute. reflexivity. }
  assert (exists_in Mock.crash_before_step3 (staging_path "c")) as Hbefore.
  { apply Hyes. vm_compute. reflexivity. }
  assert (∀ w, exists_in w (staging_path "c") →
               read "c" (Mock.after (repair "c") w) =
                 (Raise (Die partial_write_msg), w, [])) as Hread.
  { intros w Hw. unfold Mock.after. rewrite repair_raises.
    apply read_partial. by left. }
  split.
  - split_and!; [done| | |apply repair_raises|by apply Hread].
    + apply Hyes. vm_compute. reflexivity.
    + apply Hno. vm_compute. reflexivity.
  - split_and!; [done| | |apply repair_raises|by apply Hread].
    + apply Hno. vm_compute. reflexivity.
    + apply Hyes. vm_compute. reflexivity.
Qed.

(** The statements of [repair] below the failing call, run on the state
    after step 3: they finish the commit and leave [.c] behind, so that
    [read] still refuses; run once more, they remove [.c], and [read]
    then returns the new state. *)
Lemma repair_body_needs_two_runs :
  exists_in Mock.fixed_once (rollback_path "c")
  ∧ read "c" Mock.fixed_once =
      (Raise (Die partial_write_msg), Mock.fixed_once, [])
  ∧ ¬ exists_in Mock.fixed_twice (rollback_path "c")
  ∧ read "c" Mock.fixed_twice = (Ok Mock.apps, Mock.fixed_twice, []).
Proof.
  assert (exists_in Mock.fixed_once (rollback_path "c")) as Hleft.
  { unfold exists_in. apply (bool_decide_unpack _). vm_compute. exact I. }
  split_and!; [done| | |reflexivity].
  - apply read_partial. by right.
  - unfold exists_in. intros H. apply (bool_decide_pack _) in H.
    vm_compute in H. exact H.
Qed.

End Scenarios.


(** * The further properties on the small instance *)

Section HandlerScenarios.
#[local] Existing Instance Mock.api.
#[local] Existing Instance MockCommands.commands.

(** Removing [app-a] from the context with [app-a] and [app-b] resolved. *)
Lemma graphs_stored_step_witness :
  graphs_stored (run_op (OpRemove "app-a") Mock.apps).
Proof.
  apply (graphs_stored_step (OpRemove "app-a") Mock.apps).
  - refine (bool_decide_unpack _ _). vm_compute. exact I.
  - refine (bool_decide_unpack _ _). vm_compute. exact I.
Defined.

(** [install] on the context with [app-a] and [app-b] resolved. *)
Lemma install_events_witness :
  install Mock.apps =
    (Ok (), Mock.apps,
     [EvInstall "app-a@1.0"; EvInstall "app-b@1.0"]).
Proof.
  apply (install_events Mock.apps).
  refine (bool_decide_unpack _ _). vm_compute. exact I.
Defined.

(** [remove] of the pending request [app-b], behind [app-a]. *)
Lemma remove_deletes_first_match_witness :
  remove "app-b" Mock.app_a_pending
  = (Ok (), set_user_specs ["app-a"] Mock.app_a_pending, []).
Proof.
  apply (remove_deletes_first_match "app-b" "app-b" ["app-a"] [] Mock.app_a_pending).
  - reflexivity.
  - constructor; [|constructor]. intros H. vm_compute in H. discriminate.
  - reflexivity.
  - vm_compute. lia.
Defined.

(** [add] and [remove] of [app-b] on the context with [app-a] resolved. *)
Lemma add_then_remove_restores_witness :
  (add "app-b" ;; remove "app-b") Mock.app_a = (Ok (), Mock.app_a, []).
Proof.
  apply (add_then_remove_restores "app-b" Mock.app_a).
  - change (user_specs Mock.app_a) with ["app-a"].
    intros H. apply Exists_cons in H as [H|H]; [vm_compute in H; discriminate|].
    by apply Exists_nil in H.
  - vm_compute. lia.
Defined.

(** [concretize] with three pending requests, the resolver failing on
    the second: [app-a] is resolved and kept, [app-b] is not tried. *)
Lemma concretize_failure_keeps_progress_witness :
  concretize MockCommands.three_requests =
    (Raise (SpecError "cannot concretize nope"),
     set_concretized_order ["app-a@1.0^lib@1.0^zlib@1.2"]
       (set_specs_by_hash
          {[ "app-a@1.0^lib@1.0^zlib@1.2" := "app-a@1.0^lib@1.0^zlib@1.2" ]}
          MockCommands.three_requests),
     [EvConcretize "app-a"; EvConcretize "nope"]).
Proof.
  apply (concretize_failure_keeps_progress MockCommands.three_requests
           ["app-a"] ["app-b"] ["app-a@1.0^lib@1.0^zlib@1.2"] "nope").
  - reflexivity.
  - constructor; [reflexivity|constructor].
  - reflexivity.
Defined.

(** A [write] of [apps] over the committed [app_a], interrupted after
    four updates of the file system. *)
Lemma write_all_or_nothing_for_read_witness :
  let w' := restarted (write Mock.apps None
                         (mkWorld MockCommands.app_a_dirs (Some 4%nat))).1.2 in
  dirs w' = MockCommands.app_a_dirs
  ∨ read "c" w' = (Raise (Die partial_write_msg), w', [])
  ∨ read "c" w' = (Ok Mock.apps, w', []).
Proof.
  apply (write_all_or_nothing_for_read Mock.apps None
           (mkWorld MockCommands.app_a_dirs (Some 4%nat))).
  intros h spec _. reflexivity.
Defined.

(** A [write] of [apps] over the committed [app_a]. *)
Lemma write_replaces_committed_directory_witness :
  ∃ w',
    write Mock.apps None Mock.committed_app_a = (Ok (), w', [])
    ∧ budget w' = None
    ∧ dirs w' !! staging_path "c" = None
    ∧ dirs w' !! rollback_path "c" = None
    ∧ dirs w' !! committed_path "c" = Some (committed_dir Mock.apps None)
    ∧ (∀ q, is_Some (dirs Mock.committed_app_a !! q) → ¬ own_tree "c" q →
            dirs w' !! q = dirs Mock.committed_app_a !! q).
Proof.
  apply (write_replaces_committed_directory Mock.apps None Mock.committed_app_a).
  - by split_and!.
  - reflexivity.
  - reflexivity.
  - reflexivity.
  - intros r H. discriminate H.
Defined.

(** [context_create] of [d] beside the committed context [c]. *)
Lemma context_create_then_read_witness :
  ∃ w',
    context_create "d" (mkWorld MockCommands.app_a_dirs None) = (Ok (), w', [])
    ∧ dirs w' !! committed_path "d" = Some (committed_dir (Context_init "d") None)
    ∧ read "d" w' = (Ok (Context_init "d"), w', [])
    ∧ context_create "d" w' =
        (Raise (Die "Context already exists: d"), w', []).
Proof.
  apply (context_create_then_read "d" MockCommands.app_a_dirs).
  - by split_and!.
  - reflexivity.
  - reflexivity.
  - reflexivity.
Defined.



(** [dump_to_context_repo] of another [zlib] into the snapshot of [c]. *)
Lemma dump_to_context_repo_never_overwrites_witness :
  (dirs (dump_to_context_repo (API:=Mock.api) "zlib@1.3"
           (mkRepo (committed_path "c", repo))
           (mkWorld MockCommands.with_snapshot None)).1.2
     !! committed_path "c" ≫= d_repo)
    ≫= (λ tree, packages tree !! "zlib") = Some "package.py of zlib@1.2".
Proof.
  apply (dump_to_context_repo_never_overwrites (API:=Mock.api) "zlib@1.3"
           (mkRepo (committed_path "c", repo))
           (mkWorld MockCommands.with_snapshot None) "zlib"
           "package.py of zlib@1.2").
  reflexivity.
Defined.

(** [prepare_repository] for [c] with the removal of [lib]. *)
Lemma prepare_repository_works_on_a_copy_witness :
  ∃ p,
    MockCommands.with_snapshot !! p = None
    ∧ prepare_repository (PyContext Mock.app_a) ["lib"]
        (mkWorld MockCommands.with_snapshot None) =
        (Ok (mkRepo (p, repo)),
         mkWorld (<[p := temp_dir
                           (mkRepoTree "c"
                              (remove_all ["lib"]
                                 (packages (snapshot_of Mock.app_a
                                              MockCommands.with_snapshot))))]>
                    MockCommands.with_snapshot) None,
         [EvPutFirst (p, repo)]).
Proof.
  apply (prepare_repository_works_on_a_copy Mock.app_a ["lib"]
           MockCommands.with_snapshot).
  - apply NoDup_singleton.
  - constructor; [|constructor]. refine (bool_decide_unpack _ _).
    vm_compute. exact I.
Defined.

(** [context_upgrade_dependency] of [zlib] on the context [c] committed
    without a snapshot. *)
Lemma context_upgrade_dependency_unknown_package_witness :
  context_upgrade_dependency "c" "zlib" true
      (mkWorld MockCommands.app_a_dirs None) =
    (Raise (OSError (fresh (dom MockCommands.app_a_dirs))),
     mkWorld (<[fresh (dom MockCommands.app_a_dirs) :=
                  temp_dir (mkRepoTree "c" ∅)]> MockCommands.app_a_dirs) None,
     []).
Proof.
  apply (context_upgrade_dependency_unknown_package "c" "zlib" true
           MockCommands.app_a_dirs Mock.app_a); reflexivity.
Defined.

(** A dry run of the upgrade of [lib] in [c] with its snapshot. *)
Lemma context_upgrade_dependency_dry_run_witness :
  ∃ r evs,
    context_upgrade_dependency "c" "lib" true
        (mkWorld MockCommands.with_snapshot None) =
      (r,
       mkWorld (<[fresh (dom MockCommands.with_snapshot) :=
                    temp_dir (mkRepoTree "c"
                                (delete "lib"
                                   (packages (snapshot_of Mock.app_a
                                                MockCommands.with_snapshot))))]>
                  MockCommands.with_snapshot) None,
       EvPutFirst (fresh (dom MockCommands.with_snapshot), repo) :: evs)
    ∧ (r = Ok () ∨ ∃ e, r = Raise e)
    ∧ Forall is_msg evs.
Proof.
  apply (context_upgrade_dependency_dry_run "c" "lib"
           MockCommands.with_snapshot Mock.app_a).
  - reflexivity.
  - refine (bool_decide_unpack _ _). vm_compute. exact I.
Defined.




(** [list] on the context with [app-a] resolved and [app-b] pending. *)
Lemma list_writes_requests_and_resolutions_witness :
  Context_list Mock.app_a_pending false [] =
    (Ok (), ["app-a" +:+ newline; "app-a@1.0" +:+ newline; "app-b" +:+ newline],
     []).
Proof.
  apply (list_writes_requests_and_resolutions Mock.app_a_pending false []).
  - refine (bool_decide_unpack _ _). vm_compute. exact I.
  - refine (bool_decide_unpack _ _). vm_compute. exact I.
  - vm_compute. lia.
Defined.

(** [list] on the context left by the removal of [mpi]: the hash of
    [mpich] is there, its graph is not. *)
Lemma list_raises_on_a_missing_graph_witness :
  Context_list Mock.mpi_removed false [] =
    (Raise (KeyError "mpich@3.0"), ["mpich" +:+ newline], []).
Proof.
  apply (list_raises_on_a_missing_graph Mock.mpi_removed false []
           [] [] [] [] "mpich" "mpich@3.0").
  - reflexivity.
  - reflexivity.
  - reflexivity.
  - constructor.
  - constructor.
  - discriminate.
  - reflexivity.
Defined.

(** [context_install] on the committed context [c]. *)
Lemma context_install_attribute_error_witness :
  context_install "c" (mkWorld MockCommands.app_a_dirs None) =
    (Raise (AttributeError "function" "repo_path"),
     mkWorld (<[fresh (dom MockCommands.app_a_dirs) := empty_dir]>
                MockCommands.app_a_dirs) None, []).
Proof.
  apply (context_install_attribute_error "c" MockCommands.app_a_dirs Mock.app_a).
  reflexivity.
Defined.

(** A [write] of [apps], whose name is [c]. *)
Lemma write_touches_only_its_paths_witness :
  isolated "c" (write Mock.apps None).
Proof.
  apply (write_touches_only_its_paths Mock.apps None). by split_and!.
Defined.

(** The handlers on the name [c]. *)
Lemma handlers_are_isolated_witness :
  isolated "c" (context_create "c")
  ∧ (∀ args_package, isolated "c" (context_add "c" args_package))
  ∧ (∀ args_package, isolated "c" (context_remove "c" args_package))
  ∧ isolated "c" (context_concretize "c")
  ∧ isolated "c" (context_install "c")
  ∧ (∀ args_compiler, isolated "c" (context_relocate "c" args_compiler))
  ∧ (∀ args_dep_name args_dry_run,
       isolated "c" (context_upgrade_dependency "c" args_dep_name args_dry_run)).
Proof.
  apply (handlers_are_isolated "c"). by split_and!.
Defined.

End HandlerScenarios.
